(** * nakedcap-podcast: the scraper.py pipeline, embedded and verified

    A shallow embedding of [scraper.py] (the nakedcapitalism.com daily
    Links -> podcast pipeline) and the proofs of its specification.

    Conventions.
    - A Python [str] is a sequence of Unicode code points: [str := list N].
      ASCII literals are written [lit "..."]; other characters are given
      by their code point (the ellipsis is 8230).
    - Python exceptions are the inductive [exn]; a call that may raise
      returns a [Result].
    - The file system, the network, the speech service and the audio codec
      are explicit: the first is a state component, the others are
      variables of the sections that need them. *)

From Stdlib Require Import NArith ZArith Ascii String DecimalString DecimalPos DecimalZ.
From stdpp Require Import gmap list.

#[local] Set Warnings "-abstract-large-number".
#[local] Open Scope list_scope.

(** ** Python strings *)

Module Py.

Abbreviation str := (list N).

Definition ord (a : ascii) : N := N_of_ascii a.

Definition lit (s : string) : str := map N_of_ascii (list_ascii_of_string s).

(** [len(s)] *)
Definition len (s : str) : Z := Z.of_nat (length s).

(** [a == b] on strings *)
Definition str_eqb (a b : str) : bool := bool_decide (a = b).

(** [s.replace(old, new)] for a one-character [old] (every call site of
    [str.replace] in scraper.py has a one-character pattern). *)
Fixpoint replace (old : N) (new : str) (s : str) : str :=
  match s with
  | [] => []
  | c :: t => (if N.eqb c old then new else [c]) ++ replace old new t
  end.

(** [sep.join(parts)] *)
Fixpoint join (sep : str) (parts : list str) : str :=
  match parts with
  | [] => []
  | [p] => p
  | p :: rest => p ++ sep ++ join sep rest
  end.

(** [s.count(c)] for a one-character [c] *)
Fixpoint count (c : N) (s : str) : nat :=
  match s with
  | [] => 0
  | x :: t => (if N.eqb x c then 1 else 0) + count c t
  end.

(** [str(n)] and [f"{n}"] for an integer *)
Definition str_of_Z (n : Z) : str := lit (NilZero.string_of_int (Z.to_int n)).

(** [f"{n:02d}"] for a non-negative integer: decimal, at least two digits,
    padded with zeros on the left. *)
Definition fmt_02d (n : Z) : str :=
  let d := str_of_Z n in
  if (length d <? 2)%nat then lit "0" ++ d else d.

(** [l[-n:]] for a positive [n]: the last [n] elements, the whole list when
    it is shorter. *)
Definition last_n {A} (n : nat) (l : list A) : list A :=
  drop (length l - n) l.

(** [l[:n]] *)
Definition first_n {A} (n : nat) (l : list A) : list A := take n l.

(** The characters [str.isspace], [str.split()] and [str.strip()] treat as
    white space (CPython's [Py_UNICODE_ISSPACE]). *)
Definition isspace (c : N) : bool :=
  ((9 <=? c) && (c <=? 13) || (28 <=? c) && (c <=? 32)
   || (c =? 133) || (c =? 160) || (c =? 5760)
   || (8192 <=? c) && (c <=? 8202)
   || (c =? 8232) || (c =? 8233) || (c =? 8239) || (c =? 8287)
   || (c =? 12288))%N.

(** [s.lstrip()], [s.rstrip()], [s.strip()], [s.split()] *)
Fixpoint lstrip (s : str) : str :=
  match s with
  | c :: t => if isspace c then lstrip t else s
  | [] => []
  end.

Definition rstrip (s : str) : str := reverse (lstrip (reverse s)).

Definition strip (s : str) : str := rstrip (lstrip s).

(** [split_words cur s]: the words of [s], [cur] being the characters of the
    word being read, last character first. *)
Fixpoint split_words (cur : str) (s : str) : list str :=
  match s with
  | [] => match cur with [] => [] | _ => [reverse cur] end
  | c :: t =>
      if isspace c
      then match cur with
           | [] => split_words [] t
           | _ => reverse cur :: split_words [] t
           end
      else split_words (c :: cur) t
  end.

Definition split (s : str) : list str := split_words [] s.

(** [starts_with p s]: [s.startswith(p)] *)
Fixpoint starts_with (p s : str) : bool :=
  match p, s with
  | [], _ => true
  | x :: p', y :: s' => (x =? y)%N && starts_with p' s'
  | _ :: _, [] => false
  end.

(** [needle in hay], for strings *)
Fixpoint contains (needle hay : str) : bool :=
  starts_with needle hay
  || match hay with
     | [] => false
     | _ :: t => contains needle t
     end.

End Py.

Import Py.

(** ** Exceptions *)

Inductive exn : Type :=
  | ValueError (msg : str)
  | FileNotFoundError (path : list str)
  | JSONDecodeError
  | CouldntDecodeError (path : list str)
  | HTTPError
  | EdgeTTSException.

Inductive Result (A : Type) : Type :=
  | Ok (a : A)
  | Raise (e : exn).
Arguments Ok {A} a.
Arguments Raise {A} e.

#[global] Instance Result_ret : MRet Result := @Ok.
#[global] Instance Result_bind : MBind Result := fun A B f r =>
  match r with
  | Ok a => f a
  | Raise e => Raise e
  end.

(** ** Configuration (the CONFIG block of scraper.py) *)

Definition GITHUB_PAGES_URL : str := lit "https://connie817954.github.io/nakedcap-podcast".
Definition PODCAST_TITLE : str := lit "Naked Capitalism Daily Links".
Definition PODCAST_DESCRIPTION : str :=
  lit "Daily Links from nakedcapitalism.com, converted to audio.".
Definition PODCAST_AUTHOR : str := lit "Naked Capitalism (TTS)".
Definition PODCAST_EMAIL : str := lit "you@example.com".

Definition TTS_VOICE : str := lit "en-US-AriaNeural".
Definition TTS_RATE : str := lit "+0%".
Definition MAX_ARTICLES : nat := 20.
Definition MIN_TEXT_LENGTH : Z := 200.

Definition SILENCE_BETWEEN_CHAPTERS_MS : nat := 2000.

(** ** Data model *)

(** One entry of [post["articles"]]. *)
Record Article := mkArticle {
  art_url : str;
  art_title : str;
  art_blurb : str
}.

(** The dict returned by [fetch_links_post]. *)
Record Post := mkPost {
  post_title : str;
  post_url : str;
  post_articles : list Article
}.

(** One entry of [state["episodes"]] (the dict [episode_record]). *)
Record Episode := mkEpisode {
  guid : str;
  title : str;
  description : str;
  audio_url : str;
  file_size : Z;
  duration : str;
  pub_date : str
}.

#[global] Instance Episode_eq_dec : EqDecision Episode.
Proof. solve_decision. Defined.

(** The dict kept in state.json. *)
Record FeedState := mkFeedState { episodes : list Episode }.

#[global] Instance FeedState_eq_dec : EqDecision FeedState.
Proof. solve_decision. Defined.

(** ** Step 1: the article links of the Links post *)

(** An [<a href=...>] element of the post's content, as BeautifulSoup
    gives it: [a["href"]], [a.get_text(strip=True)], and the text
    [get_text(" ", strip=True)] of the enclosing [p] or [li], if any. *)
Record Anchor := mkAnchor {
  a_href : str;
  a_text : str;
  a_parent_text : option str
}.

Definition SKIPPED_LINKS : list str :=
  [lit "nakedcapitalism.com"; lit "#"; lit "twitter.com"; lit "facebook.com";
   lit "mailto:"; lit "javascript:"].

(** The loop of [_parse_links_post] over the anchors, with its [seen] set
    and its [articles] list. *)
Fixpoint collect_links (anchors : list Anchor) (seen : gset str)
    (articles : list Article) : list Article :=
  match anchors with
  | [] => articles
  | a :: rest =>
      let href := strip (a_href a) in
      if existsb (fun x => contains x href) SKIPPED_LINKS
      then collect_links rest seen articles
      else if negb (starts_with (lit "http") href)
      then collect_links rest seen articles
      else if bool_decide (href ∈ seen)
      then collect_links rest seen articles
      else
        let seen := seen ∪ {[ href ]} in
        let link_text := a_text a in
        let blurb := default [] (a_parent_text a) in
        let articles :=
          articles
          ++ [mkArticle href
                (if bool_decide (link_text = []) then href else link_text)
                blurb] in
        if MAX_ARTICLES <=? length articles then articles
        else collect_links rest seen articles
  end.

(** [_parse_links_post(url, title)], given the anchors of the content div *)
Definition _parse_links_post (url title : str) (anchors : list Anchor) : Post :=
  mkPost title url (collect_links anchors ∅ []).

(** ** The feed renderer: [_xml] and [generate_rss] *)

Definition AMP : N := ord "&".
Definition LT : N := ord "<".
Definition GT : N := ord ">".
Definition QUOT : N := 34.

(** [_xml(s)]: the chain of four [replace] calls, in source order. *)
Definition _xml (s : str) : str :=
  replace QUOT (lit "&quot;")
    (replace GT (lit "&gt;")
       (replace LT (lit "&lt;")
          (replace AMP (lit "&amp;") s))).

Definition nl : str := [10%N].
Definition dq : str := [QUOT].

Section Renderer.

(** [format_datetime(datetime.fromisoformat(s))]: the RFC 2822 rendering
    of an ISO 8601 time stamp; [None] when [fromisoformat] raises. *)
Variable rfc2822_of_iso : str -> option str.

(** The body of the loop of [generate_rss]: the text added to [items] for
    one episode. *)
Definition rss_item (ep : Episode) : Result str :=
  match rfc2822_of_iso (pub_date ep) with
  | None => Raise (ValueError (pub_date ep))
  | Some date =>
      Ok (nl ++ lit "    <item>" ++ nl
          ++ lit "      <title>" ++ _xml (title ep) ++ lit "</title>" ++ nl
          ++ lit "      <description>" ++ _xml (description ep)
          ++ lit "</description>" ++ nl
          ++ lit "      <enclosure url=" ++ dq ++ audio_url ep ++ dq
          ++ lit " length=" ++ dq ++ str_of_Z (file_size ep) ++ dq
          ++ lit " type=" ++ dq ++ lit "audio/mpeg" ++ dq ++ lit "/>" ++ nl
          ++ lit "      <guid isPermaLink=" ++ dq ++ lit "false" ++ dq
          ++ lit ">" ++ guid ep ++ lit "</guid>" ++ nl
          ++ lit "      <pubDate>" ++ date ++ lit "</pubDate>" ++ nl
          ++ lit "      <itunes:duration>" ++ duration ep
          ++ lit "</itunes:duration>" ++ nl
          ++ lit "      <itunes:explicit>no</itunes:explicit>" ++ nl
          ++ lit "    </item>")
  end.

(** [for ep in reversed(episodes): items += ...], over the already
    reversed list. *)
Fixpoint rss_items (items : str) (eps : list Episode) : Result str :=
  match eps with
  | [] => Ok items
  | ep :: rest => item ← rss_item ep; rss_items (items ++ item) rest
  end.

Definition rss_head : str :=
  lit "<?xml version=" ++ dq ++ lit "1.0" ++ dq ++ lit " encoding=" ++ dq
  ++ lit "UTF-8" ++ dq ++ lit "?>" ++ nl
  ++ lit "<rss version=" ++ dq ++ lit "2.0" ++ dq ++ nl
  ++ lit "     xmlns:itunes=" ++ dq
  ++ lit "http://www.itunes.com/dtds/podcast-1.0.dtd" ++ dq ++ nl
  ++ lit "     xmlns:content=" ++ dq
  ++ lit "http://purl.org/rss/1.0/modules/content/" ++ dq ++ lit ">" ++ nl
  ++ lit "  <channel>" ++ nl
  ++ lit "    <title>" ++ _xml PODCAST_TITLE ++ lit "</title>" ++ nl
  ++ lit "    <link>https://www.nakedcapitalism.com/</link>" ++ nl
  ++ lit "    <description>" ++ _xml PODCAST_DESCRIPTION
  ++ lit "</description>" ++ nl
  ++ lit "    <language>en-us</language>" ++ nl
  ++ lit "    <itunes:author>" ++ _xml PODCAST_AUTHOR
  ++ lit "</itunes:author>" ++ nl
  ++ lit "    <itunes:owner>" ++ nl
  ++ lit "      <itunes:name>" ++ _xml PODCAST_AUTHOR
  ++ lit "</itunes:name>" ++ nl
  ++ lit "      <itunes:email>" ++ _xml PODCAST_EMAIL
  ++ lit "</itunes:email>" ++ nl
  ++ lit "    </itunes:owner>" ++ nl
  ++ lit "    <itunes:category text=" ++ dq ++ lit "News" ++ dq
  ++ lit "/>" ++ nl
  ++ lit "    <itunes:explicit>no</itunes:explicit>" ++ nl
  ++ lit "    <image>" ++ nl
  ++ lit "      <url>" ++ GITHUB_PAGES_URL ++ lit "/cover.jpg</url>" ++ nl
  ++ lit "      <title>" ++ _xml PODCAST_TITLE ++ lit "</title>" ++ nl
  ++ lit "      <link>https://www.nakedcapitalism.com/</link>" ++ nl
  ++ lit "    </image>".

Definition rss_tail : str :=
  nl ++ lit "  </channel>" ++ nl ++ lit "</rss>".

(** [generate_rss(episodes)] *)
Definition generate_rss (eps : list Episode) : Result str :=
  items ← rss_items [] (reverse eps);
  mret (rss_head ++ items ++ rss_tail).

End Renderer.

(** ** The feed state store: append with bounded retention *)

(** [state["episodes"].append(rec); state["episodes"] = state["episodes"][-30:]] *)
Definition append_episode (st : FeedState) (rec : Episode) : FeedState :=
  mkFeedState (last_n 30 (episodes st ++ [rec])).

(** [any(ep["guid"] == episode_id for ep in state["episodes"])] *)
Definition has_guid (episode_id : str) (st : FeedState) : bool :=
  existsb (fun ep => str_eqb (guid ep) episode_id) (episodes st).

(** ** The standard library's [textwrap.shorten]

    scraper.py shortens the blurb and the chapter text with
    [textwrap.shorten(text, width=..., placeholder=...)], which is
    [TextWrapper(width, max_lines=1, placeholder).fill(' '.join(text.strip().split()))].
    The model follows CPython's textwrap.py, with the [TextWrapper] options
    [shorten] leaves at their defaults (empty indents, [expand_tabs],
    [replace_whitespace], [drop_whitespace], [break_long_words],
    [break_on_hyphens]) inlined. *)

Module Textwrap.

(** [s.strip() == ''] *)
Definition blank (s : str) : bool := forallb isspace s.

Definition SPACE : N := 32.
Definition HYPHEN : N := 45.

(** [' '.join(text.strip().split())] *)
Definition collapse (text : str) : str := join [SPACE] (split (strip text)).

(** [_whitespace = '\t\n\x0b\x0c\r '] *)
Definition is_ws (c : N) : bool := ((9 <=? c) && (c <=? 13) || (c =? 32))%N.

(** [text.expandtabs(8)], [col] being the current column *)
Fixpoint expandtabs (col : nat) (s : str) : str :=
  match s with
  | [] => []
  | c :: t =>
      if (c =? 9)%N
      then let incr := 8 - col mod 8 in
           repeat SPACE incr ++ expandtabs (col + incr) t
      else c :: expandtabs (if (c =? 10)%N || (c =? 13)%N then 0 else S col) t
  end.

(** [_munge_whitespace]: tabs expanded, then each white-space character
    replaced by a space. *)
Definition munge_whitespace (text : str) : str :=
  map (fun c => if is_ws c then SPACE else c) (expandtabs 0 text).

Section Chunks.

(** The Unicode database behind the regular expression classes [\w] and
    [\d], for the code points from 128 on ([str.isalnum] and
    [str.isdecimal] of the one-character string). *)
Variable uni_isalnum : N -> bool.
Variable uni_isdecimal : N -> bool.

(** [\d] *)
Definition is_digit (c : N) : bool :=
  (if c <? 128 then (48 <=? c) && (c <=? 57) else uni_isdecimal c)%N.

(** [\w] *)
Definition is_word (c : N) : bool :=
  (if c <? 128
   then (48 <=? c) && (c <=? 57) || (65 <=? c) && (c <=? 90)
        || (97 <=? c) && (c <=? 122) || (c =? 95)
   else uni_isalnum c)%N.

(** [letter = [^\d\W]] *)
Definition is_letter (c : N) : bool := is_word c && negb (is_digit c).

(** [word_punct]: a [\w] character or one of the seven punctuation
    marks ! (33), the double quote (34), ' (39), & (38), . (46), , (44)
    and ? (63). *)
Definition is_word_punct (c : N) : bool :=
  (is_word c || (c =? 33) || (c =? 34) || (c =? 39) || (c =? 38)
   || (c =? 46) || (c =? 44) || (c =? 63))%N.

(** The length of the run of hyphens / of white space at the head. *)
Fixpoint hyphen_run (s : str) : nat :=
  match s with
  | c :: t => if (c =? HYPHEN)%N then S (hyphen_run t) else 0
  | [] => 0
  end.

Fixpoint ws_run (s : str) : nat :=
  match s with
  | c :: t => if is_ws c then S (ws_run t) else 0
  | [] => 0
  end.

(** [-{2,}\w] matches at the head of [s]. *)
Definition emdash_ahead (s : str) : bool :=
  let r := hyphen_run s in
  (2 <=? r) && match drop r s with c :: _ => is_word c | [] => false end.

(** [(?<=lt{2}-) | (?<=lt-lt-)] just after a hyphen, [before] being the
    text in front of that hyphen, last character first. *)
Definition hyphen_behind (before : str) : bool :=
  match before with
  | l1 :: l2 :: rest =>
      is_letter l1
      && (is_letter l2
          || (l2 =? HYPHEN)%N
             && match rest with l3 :: _ => is_letter l3 | [] => false end)
  | _ => false
  end.

(** [(?= lt -? lt)] *)
Definition hyphen_ahead (after : str) : bool :=
  match after with
  | l1 :: l2 :: rest =>
      is_letter l1
      && (is_letter l2
          || (l2 =? HYPHEN)%N
             && match rest with l3 :: _ => is_letter l3 | [] => false end)
  | _ => false
  end.

(** The third alternative of [wordsep_re], after the lazy [nws+?] has
    taken at least one character: how many more characters the match
    takes. [before] is the text in front of [rest], last character first.
    For each length the three endings are tried in the order of the
    pattern: hyphenated word, end of word, em-dash. *)
Fixpoint word_more (before rest : str) : nat :=
  match rest with
  | [] => 0
  | c :: r =>
      if (c =? HYPHEN)%N && hyphen_behind before && hyphen_ahead r then 1
      else if is_ws c then 0
      else if match before with b :: _ => is_word_punct b | [] => false end
              && emdash_ahead rest then 0
      else S (word_more (c :: before) r)
  end.

(** The length of the match of [wordsep_re] that starts at [c :: r]. *)
Definition chunk_len (before : str) (c : N) (r : str) : nat :=
  if is_ws c then ws_run (c :: r)
  else if match before with b :: _ => is_word_punct b | [] => false end
          && emdash_ahead (c :: r) then hyphen_run (c :: r)
  else S (word_more (c :: before) r).

Fixpoint split_chunks (fuel : nat) (before rest : str) : list str :=
  match fuel with
  | 0 => []
  | S fuel' =>
      match rest with
      | [] => []
      | c :: r =>
          let n := chunk_len before c r in
          take n rest
            :: split_chunks fuel' (reverse (take n rest) ++ before) (drop n rest)
      end
  end.

(** [_split(text)]: [wordsep_re.split(text)] without the empty strings.
    The pattern matches at every position of a non-empty text, so the
    pieces are the successive matches. *)
Definition wordsep_split (text : str) : list str :=
  filter (fun c => c <> []) (split_chunks (length text) [] text).

(** The attributes of the [TextWrapper] that [shorten] sets. *)
Variable width : nat.
Variable max_lines : option nat.
Variable placeholder : str.

(** The inner [while chunks:] of [_wrap_chunks]: chunks are moved to the
    current line while they fit. [cur_line] has its last chunk first. *)
Fixpoint fill_line (chunks cur_line : list str) (cur_len : nat)
  : list str * nat * list str :=
  match chunks with
  | [] => (cur_line, cur_len, [])
  | c :: rest =>
      if cur_len + length c <=? width
      then fill_line rest (c :: cur_line) (cur_len + length c)
      else (cur_line, cur_len, chunks)
  end.

(** [s.rfind(c, 0, stop)] *)
Fixpoint rfind (c : N) (s : str) (stop : nat) : option nat :=
  match stop, s with
  | S stop', x :: t =>
      match rfind c t stop' with
      | Some i => Some (S i)
      | None => if (x =? c)%N then Some 0 else None
      end
  | _, _ => None
  end.

(** [_handle_long_word] (with [break_long_words] and [break_on_hyphens]) *)
Definition handle_long_word (chunks cur_line : list str) (cur_len : nat)
  : list str * list str :=
  match chunks with
  | [] => (cur_line, chunks)
  | chunk :: rest =>
      let space_left := if width <? 1 then 1 else width - cur_len in
      let end_ :=
        if space_left <? length chunk
        then match rfind HYPHEN chunk space_left with
             | Some hyphen =>
                 if (0 <? hyphen)
                    && existsb (fun c => negb (c =? HYPHEN)%N) (take hyphen chunk)
                 then hyphen + 1 else space_left
             | None => space_left
             end
        else space_left in
      (take end_ chunk :: cur_line, drop end_ chunk :: rest)
  end.

(** The [while cur_line:] loop that makes room for the placeholder;
    [None] is its [else] branch (the line ran empty). *)
Fixpoint put_placeholder (cur_line : list str) (cur_len : nat)
  : option (list str) :=
  match cur_line with
  | [] => None
  | last :: before =>
      if negb (blank last) && (cur_len + length placeholder <=? width)
      then Some (placeholder :: cur_line)
      else put_placeholder before (cur_len - length last)
  end.

Definition sum_len (l : list str) : nat := foldr (fun c n => length c + n) 0 l.

(** After the inner loop: [if chunks and len(chunks[-1]) > width:] the
    long word is broken and [cur_len] recomputed. *)
Definition long_word_step (s : list str * nat * list str)
  : list str * nat * list str :=
  let '(cur_line, cur_len, chunks) := s in
  match chunks with
  | c :: _ =>
      if width <? length c
      then let '(cl, ch) := handle_long_word chunks cur_line cur_len in
           (cl, sum_len cl, ch)
      else s
  | [] => s
  end.

(** [if cur_line and cur_line[-1].strip() == '':] the white space at the
    end of the line is dropped. *)
Definition drop_blank_end (cur_line : list str) (cur_len : nat)
  : list str * nat :=
  match cur_line with
  | last :: before =>
      if blank last then (before, cur_len - length last)
      else (cur_line, cur_len)
  | [] => (cur_line, cur_len)
  end.

(** The [else] branch that ends the wrapping: the last line gets the
    placeholder. *)
Definition last_line (cur_line : list str) (cur_len : nat) (lines : list str)
  : list str :=
  match put_placeholder cur_line cur_len with
  | Some cl => lines ++ [concat (reverse cl)]
  | None =>
      match reverse lines with
      | prev :: earlier =>
          if length (rstrip prev) + length placeholder <=? width
          then reverse earlier ++ [rstrip prev ++ placeholder]
          else lines ++ [lstrip placeholder]
      | [] => lines ++ [lstrip placeholder]
      end
  end.

(** [max_lines is None or len(lines) + 1 < max_lines or (not chunks or
    len(chunks) == 1 and not chunks[0].strip()) and cur_len <= width] *)
Definition line_is_kept (chunks : list str) (cur_len : nat) (lines : list str)
  : bool :=
  match max_lines with
  | None => true
  | Some m => length lines + 1 <? m
  end
  || (match chunks with
      | [] => true
      | [c] => blank c
      | _ => false
      end && (cur_len <=? width)).

(** The outer [while chunks:] of [_wrap_chunks]. Every round takes at
    least one character off [chunks]; [fuel] bounds the rounds. *)
Fixpoint wrap_loop (fuel : nat) (chunks lines : list str) : list str :=
  match fuel with
  | 0 => lines
  | S fuel' =>
      match chunks with
      | [] => lines
      | first :: others =>
          let chunks :=
            if blank first && negb (bool_decide (lines = []))
            then others else chunks in
          let '(cur_line, cur_len, chunks) :=
            long_word_step (fill_line chunks [] 0) in
          let '(cur_line, cur_len) := drop_blank_end cur_line cur_len in
          match cur_line with
          | [] => wrap_loop fuel' chunks lines
          | _ :: _ =>
              if line_is_kept chunks cur_len lines
              then wrap_loop fuel' chunks (lines ++ [concat (reverse cur_line)])
              else last_line cur_line cur_len lines
          end
      end
  end.

(** [_wrap_chunks(chunks)] *)
Definition wrap_chunks (chunks : list str) : Result (list str) :=
  if width <=? 0 then Raise (ValueError (lit "invalid width"))
  else if match max_lines with
          | Some _ => width <? length (lstrip placeholder)
          | None => false
          end
  then Raise (ValueError (lit "placeholder too large for max width"))
  else Ok (wrap_loop (S (sum_len chunks)) chunks []).

(** [fill(text)] *)
Definition fill (text : str) : Result str :=
  lines ← wrap_chunks (wordsep_split (munge_whitespace text));
  mret (join nl lines).

End Chunks.

(** [textwrap.shorten(text, width, placeholder=placeholder)] *)
Definition shorten (uni_isalnum uni_isdecimal : N -> bool)
    (text : str) (width : nat) (placeholder : str) : Result str :=
  fill uni_isalnum uni_isdecimal width (Some 1) placeholder (collapse text).

End Textwrap.

(** ** Audio, files and the world of a run *)

(** A [pydub.AudioSegment], at one sample per millisecond: [len(seg)] is
    the length of the list, [+] is concatenation. *)
Definition AudioSegment := list Z.

Definition AudioSegment_empty : AudioSegment := [].

(** [AudioSegment.silent(duration=ms)] *)
Definition AudioSegment_silent (ms : nat) : AudioSegment := repeat 0%Z ms.

(** A [pathlib.Path] below [BASE_DIR]: the list of its components. *)
Abbreviation Path := (list str).

(** What a file holds. The JSON and MP3 codecs are taken as exact:
    a file written by [json.dumps] / [export] reads back as the value
    written; everything else does not parse. An empty file is [Raw []]. *)
Inductive FileData : Type :=
  | JsonState (st : FeedState)
  | Text (s : str)
  | Mp3 (audio : AudioSegment) (title_tag : str)
  | Raw (bytes : str).

(** The calls that leave the process, recorded in the order they are made. *)
Inductive Event : Type :=
  | EvGet (url : str)
  | EvTts (text : str) (output_path : Path)
  | EvAssemble (chapter_paths : list Path) (output_path : Path).

Record World := mkWorld {
  files : gmap Path FileData;
  dirs : gset Path;
  trace : list Event
}.

(** What [edge_tts.Communicate(text, voice, rate).save(path)] did: it wrote
    the file and returned, or it raised, possibly leaving a partial file. *)
Inductive TtsOutcome : Type :=
  | TtsSaved (data : FileData)
  | TtsFailed (partial : option FileData).

(** The collaborators of one run: the scraper, the clock, the network, the
    text extractor, the speech service and the library tables. *)
Record Env := mkEnv {
  (** [fetch_links_post()]: the post found, [None], or an HTTP error *)
  fetch_links_post : Result (option Post);
  (** [datetime.now(timezone.utc).strftime("%Y-%m-%d")] *)
  utc_today : str;
  (** [datetime.now(timezone.utc).isoformat()] at commit time *)
  utc_now_iso : str;
  (** [SESSION.get(url, timeout=10).text]; [None] when it raises *)
  session_get : str -> option str;
  (** [trafilatura.extract(html, ...)]; [None] when it returns [None] or
      raises *)
  trafilatura_extract : str -> option str;
  (** the speech service *)
  edge_tts_save : str -> str -> str -> TtsOutcome;
  (** [path.stat().st_size] of a file with this content *)
  st_size : FileData -> Z;
  (** [format_datetime(datetime.fromisoformat(s))] *)
  rfc2822_of_iso : str -> option str;
  (** the Unicode tables of the [re] module *)
  uni_isalnum : N -> bool;
  uni_isdecimal : N -> bool
}.

(** Paths (relative to the script). *)
Definition AUDIO_DIR : Path := [lit "docs"; lit "audio"].
Definition RSS_FILE : Path := [lit "docs"; lit "feed.xml"].
Definition STATE_FILE : Path := [lit "state.json"].
Definition TMP_DIR : Path := [lit "tmp_chapters"].

(** ** The monad of the pipeline: a world threaded through calls that may
    raise. The world survives an exception. *)

Definition M (A : Type) : Type := World -> Result A * World.

#[global] Instance M_ret : MRet M := fun A a w => (Ok a, w).
#[global] Instance M_bind : MBind M := fun A B f m w =>
  match m w with
  | (Ok a, w') => f a w'
  | (Raise e, w') => (Raise e, w')
  end.

Definition raise {A} (e : exn) : M A := fun w => (Raise e, w).

Definition lift {A} (r : Result A) : M A := fun w => (r, w).

(** [try: body  except Exception as e: handler(e)] *)
Definition try_except {A} (body : M A) (handler : exn -> M A) : M A :=
  fun w =>
    match body w with
    | (Ok a, w') => (Ok a, w')
    | (Raise e, w') => handler e w'
    end.

Definition get_world : M World := fun w => (Ok w, w).

Definition emit (ev : Event) : M unit :=
  fun w => (Ok tt, mkWorld (files w) (dirs w) (trace w ++ [ev])).

(** *** File system calls *)

Definition under (d p : Path) : Prop := d `prefix_of` p.

(** The non-empty prefixes of a path: the directories [mkdir(parents=True)]
    makes sure exist. *)
Fixpoint ancestors_and_self (p : Path) : list Path :=
  match p with
  | [] => []
  | c :: rest => [c] :: map (cons c) (ancestors_and_self rest)
  end.

(** [p.mkdir(parents=True, exist_ok=True)] *)
Definition mkdir_parents (p : Path) : M unit :=
  fun w => (Ok tt, mkWorld (files w) (dirs w ∪ list_to_set (ancestors_and_self p))
                           (trace w)).

(** [p.mkdir(exist_ok=True)], for a [p] directly below [BASE_DIR] *)
Definition mkdir_exist_ok (p : Path) : M unit :=
  fun w => (Ok tt, mkWorld (files w) (dirs w ∪ {[ p ]}) (trace w)).

(** [shutil.rmtree(d)] *)
Definition rmtree (d : Path) : M unit :=
  fun w =>
    if decide (d ∈ dirs w)
    then (Ok tt, mkWorld (filter (fun kv => ¬ under d kv.1) (files w))
                         (filter (fun p => ¬ under d p) (dirs w))
                         (trace w))
    else (Raise (FileNotFoundError d), w).

(** Writing a whole file (at every call site the directory exists). *)
Definition write_file (p : Path) (data : FileData) : M unit :=
  fun w => (Ok tt, mkWorld (<[p := data]> (files w)) (dirs w) (trace w)).

Definition read_file (p : Path) : M (option FileData) :=
  fun w => (Ok (files w !! p), w).

(** [Path(name).stem]: the name without its last suffix *)
Definition stem (name : str) : str :=
  match Textwrap.rfind (ord ".") name (length name) with
  | Some i => if (0 <? i) && (i <? length name - 1) then take i name else name
  | None => name
  end.

Definition path_name (p : Path) : str := default [] (last p).

(** [AudioSegment.from_mp3(str(path))] *)
Definition from_mp3 (p : Path) : M AudioSegment :=
  data ← read_file p;
  match data with
  | Some (Mp3 a _) => mret a
  | Some _ => raise (CouldntDecodeError p)
  | None => raise (FileNotFoundError p)
  end.

(** The directory [d] is there: [BASE_DIR] itself (the empty path) or a
    directory of the world. *)
Definition dir_exists (w : World) (d : Path) : Prop := d = [] ∨ d ∈ dirs w.

(** [seg.export(str(path), format="mp3", bitrate="64k", tags={"title": t})]:
    the first thing [export] does is to open the output file for writing,
    which raises [FileNotFoundError] when the directory of [path] is
    missing; nothing is written then. *)
Definition export (seg : AudioSegment) (p : Path) (title_tag : str) : M unit :=
  fun w =>
    if decide (dir_exists w (removelast p))
    then write_file p (Mp3 seg title_tag) w
    else (Raise (FileNotFoundError p), w).

Section Pipeline.

Variable E : Env.

Definition textwrap_shorten (text : str) (width : nat) (placeholder : str) : Result str :=
  Textwrap.shorten (uni_isalnum E) (uni_isdecimal E) text width placeholder.

(** *** Step 2: [fetch_article_text] *)

Definition fetch_article_text (url : str) : M (option str) :=
  _ ← emit (EvGet url);
  match session_get E url with
  | None => mret None
  | Some html =>
      match trafilatura_extract E html with
      | Some text =>
          if negb (bool_decide (text = [])) && (MIN_TEXT_LENGTH <=? len text)%Z
          then mret (Some text)
          else mret None
      | None => mret None
      end
  end.

(** *** Step 3: [text_to_speech] and [make_chapter_intro] *)

Definition text_to_speech (text : str) (output_path : Path) : M unit :=
  _ ← emit (EvTts text output_path);
  match edge_tts_save E text TTS_VOICE TTS_RATE with
  | TtsSaved data => write_file output_path data
  | TtsFailed partial =>
      _ ← match partial with
          | Some data => write_file output_path data
          | None => mret tt
          end;
      raise EdgeTTSException
  end.

Definition ELLIPSIS : str := [8230%N].

Definition make_chapter_intro (index : nat) (title blurb : str) : Result str :=
  let intro := lit "Chapter " ++ str_of_Z (Z.of_nat index) ++ lit ". "
               ++ title ++ lit "." in
  if negb (bool_decide (blurb = [])) && negb (str_eqb blurb title)
  then short_blurb ← textwrap_shorten blurb 300 ELLIPSIS;
       mret (intro ++ lit " " ++ short_blurb)
  else mret intro.

(** *** Step 4: [assemble_episode] *)

(** The [for i, path in enumerate(chapter_paths)] loop; [n] is
    [len(chapter_paths)]. *)
Fixpoint assemble_loop (n : Z) (i : Z) (paths : list Path)
    (combined : AudioSegment) : M AudioSegment :=
  match paths with
  | [] => mret combined
  | path :: rest =>
      seg ← from_mp3 path;
      let combined := combined ++ seg in
      let combined :=
        if (i <? n - 1)%Z
        then combined ++ AudioSegment_silent SILENCE_BETWEEN_CHAPTERS_MS
        else combined in
      assemble_loop n (i + 1)%Z rest combined
  end.

Definition assemble_episode (chapter_paths : list Path) (output_path : Path)
  : M unit :=
  _ ← emit (EvAssemble chapter_paths output_path);
  combined ← assemble_loop (Z.of_nat (length chapter_paths)) 0 chapter_paths
               AudioSegment_empty;
  export combined output_path (stem (path_name output_path)).

(** *** Step 5: the feed state store *)

(** [json.loads(STATE_FILE.read_text())] when the file exists. A state
    file is read as the state that was saved; a file of any other kind
    stands for a text that [json.loads] rejects (an empty or cut file, a
    text that is not JSON). A text that is JSON of another shape than a
    state is not among the files of the model: the theorems that rest on
    a state file that does not load say which text they are about. *)
Definition load_state : M FeedState :=
  data ← read_file STATE_FILE;
  match data with
  | None => mret (mkFeedState [])
  | Some (JsonState st) => mret st
  | Some _ => raise JSONDecodeError
  end.

(** [STATE_FILE.write_text(json.dumps(state, indent=2))], as a call that
    returns. What a write that does not finish can leave in the file is
    in [save_state_stages]; the theorems on a run that depend on the
    state having been saved take it from the state file after the run. *)
Definition save_state (st : FeedState) : M unit :=
  write_file STATE_FILE (JsonState st).

(** *** The main pipeline *)

Definition END_MARKER : str :=
  lit " [" ++ ELLIPSIS ++ lit "end of article" ++ ELLIPSIS ++ lit "]".

(** The text handed to the speech service for article [i]. *)
Definition chapter_text (i : nat) (article : Article) (body_text : str)
  : Result str :=
  intro ← make_chapter_intro i (art_title article) (art_blurb article);
  let full_text := intro ++ nl ++ nl ++ body_text in
  textwrap_shorten full_text 8000 END_MARKER.

Definition chapter_path (i : nat) : Path :=
  TMP_DIR ++ [lit "chapter_" ++ fmt_02d (Z.of_nat i) ++ lit ".mp3"].

(** One round of the loop over the articles; [acc] is
    [(chapter_paths, chapter_titles)]. *)
Definition process_article (i : nat) (article : Article)
    (acc : list Path * list str) : M (list Path * list str) :=
  body_text ← fetch_article_text (art_url article);
  match body_text with
  | None => mret acc
  | Some body_text =>
      if bool_decide (body_text = []) then mret acc
      else
        full_text ← lift (chapter_text i article body_text);
        try_except
          (_ ← text_to_speech full_text (chapter_path i);
           mret (acc.1 ++ [chapter_path i], acc.2 ++ [art_title article]))
          (fun _ => mret acc)
  end.

(** [for i, article in enumerate(post["articles"], start=1)] *)
Fixpoint process_articles (i : nat) (articles : list Article)
    (acc : list Path * list str) : M (list Path * list str) :=
  match articles with
  | [] => mret acc
  | article :: rest =>
      acc' ← process_article i article acc;
      process_articles (S i) rest acc'
  end.

Definition episode_id : str := lit "nc-links-" ++ utc_today E.

Definition duration_str (duration_secs : Z) : str :=
  fmt_02d (duration_secs / 3600) ++ lit ":"
  ++ fmt_02d ((duration_secs mod 3600) / 60) ++ lit ":"
  ++ fmt_02d (duration_secs mod 60).

Definition episode_description (chapter_paths : list Path)
    (chapter_titles : list str) : str :=
  lit "Daily Links from Naked Capitalism. "
  ++ str_of_Z (Z.of_nat (length chapter_paths)) ++ lit " articles: "
  ++ join (lit "; ") (first_n 5 chapter_titles)
  ++ (if (5 <? length chapter_titles) then ELLIPSIS else []).

Definition run_pipeline : M unit :=
  _ ← mkdir_parents AUDIO_DIR;
  post ← lift (fetch_links_post E);
  match post with
  | None => mret tt
  | Some post =>
      state ← load_state;
      if has_guid episode_id state then mret tt
      else
        _ ← mkdir_exist_ok TMP_DIR;
        chapters ← process_articles 1 (post_articles post) ([], []);
        let '(chapter_paths, chapter_titles) := chapters in
        match chapter_paths with
        | [] => rmtree TMP_DIR
        | _ :: _ =>
            let episode_filename := episode_id ++ lit ".mp3" in
            let episode_path := AUDIO_DIR ++ [episode_filename] in
            _ ← assemble_episode chapter_paths episode_path;
            _ ← rmtree TMP_DIR;
            data ← read_file episode_path;
            match data with
            | None => raise (FileNotFoundError episode_path)
            | Some data =>
                let file_size := st_size E data in
                audio ← from_mp3 episode_path;
                let duration_secs := (Z.of_nat (length audio) / 1000)%Z in
                let episode_record :=
                  {| guid := episode_id;
                     title := post_title post;
                     description :=
                       episode_description chapter_paths chapter_titles;
                     audio_url := GITHUB_PAGES_URL ++ lit "/audio/"
                                  ++ episode_filename;
                     file_size := file_size;
                     duration := duration_str duration_secs;
                     pub_date := utc_now_iso E |} in
                let state := append_episode state episode_record in
                _ ← save_state state;
                _ ← mkdir_parents (removelast RSS_FILE);
                doc ← lift (generate_rss (rfc2822_of_iso E) (episodes state));
                write_file RSS_FILE (Text doc)
            end
        end
  end.

End Pipeline.

(** *** What [Path.write_text] does to the file

    [STATE_FILE.write_text(data)] opens the file with mode "w", which cuts
    it to length zero, then writes [data] and closes the file. The worlds
    that another process, or a crash, can find while [save_state] runs, in
    order: the one before the call, the one with the file cut to nothing,
    the one after the call. *)
Definition save_state_stages (st : FeedState) (w : World) : list World :=
  [ w;
    (write_file STATE_FILE (Raw []) w).2;
    (save_state st w).2 ].

(** ** Predicates of the specification *)

(** The text after an ampersand names one of the four entities of [_xml]. *)
Definition starts_entity (s : str) : bool :=
  starts_with (lit "amp;") s || starts_with (lit "lt;") s
  || starts_with (lit "gt;") s || starts_with (lit "quot;") s.



(** The ampersands of [doc] that are markup of their own: those that do
    not start one of the four entities of [_xml]. *)
Fixpoint bare_amps (doc : str) : nat :=
  match doc with
  | [] => 0
  | c :: rest =>
      (if (c =? AMP)%N && negb (starts_entity rest) then 1 else 0)
      + bare_amps rest
  end.

(** What follows [a] has no say on the ampersands of [a]. *)
Definition sealed (a : str) : Prop :=
  ∀ b, bare_amps (a ++ b) = bare_amps a + bare_amps b.



(** How many episodes of a state carry a guid. *)
Definition guid_count (id : str) (st : FeedState) : nat :=
  length (filter (fun ep => guid ep = id) (episodes st)).

(** What [_xml] makes of one character. *)
Definition xml_char (c : N) : str :=
  if (c =? AMP)%N then lit "&amp;"
  else if (c =? LT)%N then lit "&lt;"
  else if (c =? GT)%N then lit "&gt;"
  else if (c =? QUOT)%N then lit "&quot;"
  else [c].






(** *** Collapsed text *)

(** A word: not empty, no white space in it. *)
Definition nospace (w : str) : Prop := Forall (fun c => isspace c = false) w.
Definition wordlike (w : str) : Prop := w ≠ [] ∧ nospace w.

(** The only white space of [t] is the space character. *)
Definition tidy (t : str) : Prop :=
  Forall (fun c => c = Textwrap.SPACE ∨ isspace c = false) t.

(** [t] does not start / end with white space. *)
Definition hd_nospace (t : str) : Prop :=
  match t with c :: _ => isspace c = false | [] => True end.
Definition last_nospace (t : str) : Prop :=
  match last t with Some c => isspace c = false | None => True end.

(** [f"Chapter {index}. {title}."] *)
Definition chapter_head (index : nat) (title : str) : str :=
  lit "Chapter " ++ str_of_Z (Z.of_nat index) ++ lit ". " ++ title ++ lit ".".

(** The text for the speech service as the specification has it: the
    intro, a blank line, the article body, unchanged while it is within
    the bound. *)
Definition chapter_text_as_claimed (E : Env) (i : nat) (article : Article)
    (body_text text : str) : Prop :=
  ∃ intro,
    make_chapter_intro E i (art_title article) (art_blurb article) = Ok intro
    ∧ (length (intro ++ nl ++ nl ++ body_text) ≤ 8000 →
       text = intro ++ nl ++ nl ++ body_text).

(** *** The assembled episode, in the words of the specification *)

(** The chapters in list order with [gap] strictly between consecutive
    ones: none before the first, none after the last. *)
Fixpoint chapters_with_gaps (gap : AudioSegment) (segs : list AudioSegment)
  : AudioSegment :=
  match segs with
  | [] => []
  | [seg] => seg
  | seg :: rest => seg ++ gap ++ chapters_with_gaps gap rest
  end.

(** Total length of the chapters, in milliseconds. *)
Definition total_ms (segs : list AudioSegment) : nat :=
  foldr (fun seg n => length seg + n) 0 segs.

(** The file at [p] decodes to [seg]. *)
Definition decodes_to (w : World) (p : Path) (seg : AudioSegment) : Prop :=
  ∃ tag, files w !! p = Some (Mp3 seg tag).

(** The file at [p] is missing or is not audio. *)
Definition undecodable (w : World) (p : Path) : Prop :=
  ∀ seg tag, files w !! p ≠ Some (Mp3 seg tag).

(** The world after [assemble_episode] has exported [combined]. *)
Definition exported (w : World) (chapter_paths : list Path) (out : Path)
    (combined : AudioSegment) : World :=
  mkWorld (<[out := Mp3 combined (stem (path_name out))]> (files w))
          (dirs w)
          (trace w ++ [EvAssemble chapter_paths out]).

(** *** The loop over the articles, article by article *)

(** [enumerate(l, start)] *)
Definition enumerate_from {A} (start : nat) (l : list A) : list (nat * A) :=
  zip (seq start (length l)) l.

(** What [fetch_article_text] returns, apart from the world. *)
Definition extracted_text (E : Env) (url : str) : option str :=
  match session_get E url with
  | None => None
  | Some html =>
      match trafilatura_extract E html with
      | Some text =>
          if negb (bool_decide (text = [])) && (MIN_TEXT_LENGTH <=? len text)%Z
          then Some text else None
      | None => None
      end
  end.

(** The text article [ia.2], at position [ia.1], is sent to the speech
    service with; [None] when the article is skipped before that. *)
Definition spoken_text (E : Env) (ia : nat * Article) : option str :=
  match extracted_text E (art_url ia.2) with
  | Some body =>
      if bool_decide (body = []) then None
      else match chapter_text E ia.1 ia.2 body with
           | Ok text => Some text
           | Raise _ => None
           end
  | None => None
  end.

Definition tts_outcome (E : Env) (ia : nat * Article) : option TtsOutcome :=
  match spoken_text E ia with
  | Some text => Some (edge_tts_save E text TTS_VOICE TTS_RATE)
  | None => None
  end.

(** The article yields a chapter: its text was extracted and synthesized. *)
Definition survives (E : Env) (ia : nat * Article) : bool :=
  match tts_outcome E ia with
  | Some (TtsSaved _) => true
  | _ => false
  end.

(** The articles that yield a chapter, with their positions. *)
Definition kept_chapters (E : Env) (start : nat) (articles : list Article)
  : list (nat * Article) :=
  filter (fun ia => Is_true (survives E ia)) (enumerate_from start articles).

(** What the round for one article leaves in the world. *)
Definition article_events (E : Env) (ia : nat * Article) : list Event :=
  EvGet (art_url ia.2)
  :: match spoken_text E ia with
     | Some text => [EvTts text (chapter_path ia.1)]
     | None => []
     end.

Definition article_file (E : Env) (ia : nat * Article) : option FileData :=
  match tts_outcome E ia with
  | Some (TtsSaved data) => Some data
  | Some (TtsFailed partial) => partial
  | None => None
  end.

Definition article_world (E : Env) (w : World) (ia : nat * Article) : World :=
  mkWorld (match article_file E ia with
           | Some data => <[chapter_path ia.1 := data]> (files w)
           | None => files w
           end)
          (dirs w)
          (trace w ++ article_events E ia).

(** *** The stages of a run *)

(** After [AUDIO_DIR.mkdir(parents=True, exist_ok=True)]. *)
Definition started (w : World) : World :=
  mkWorld (files w) (dirs w ∪ list_to_set (ancestors_and_self AUDIO_DIR))
          (trace w).

(** What [load_state] returns in a world. *)
Definition loaded_state (w : World) : Result FeedState :=
  match files w !! STATE_FILE with
  | None => Ok (mkFeedState [])
  | Some (JsonState st) => Ok st
  | Some _ => Raise JSONDecodeError
  end.

(** After the loop over the articles of [post]. *)
Definition processed (E : Env) (post : Post) (w : World) : World :=
  foldl (article_world E)
        (mkWorld (files w) (dirs (started w) ∪ {[ TMP_DIR ]}) (trace w))
        (enumerate_from 1 (post_articles post)).

(** After [shutil.rmtree(tmp_dir)]. *)
Definition without_tmp (w : World) : World :=
  mkWorld (filter (fun kv => ¬ under TMP_DIR kv.1) (files w))
          (filter (fun p => ¬ under TMP_DIR p) (dirs w))
          (trace w).

Definition kept_paths (E : Env) (post : Post) : list Path :=
  map (fun ia => chapter_path ia.1) (kept_chapters E 1 (post_articles post)).

Definition kept_titles (E : Env) (post : Post) : list str :=
  map (fun ia => art_title ia.2) (kept_chapters E 1 (post_articles post)).

Definition episode_filename (E : Env) : str := episode_id E ++ lit ".mp3".
Definition episode_path (E : Env) : Path := AUDIO_DIR ++ [episode_filename E].

(** The record built in step 4 for an episode of audio [combined]. *)
Definition episode_record_of (E : Env) (post : Post) (combined : AudioSegment)
  : Episode :=
  {| guid := episode_id E;
     title := post_title post;
     description := episode_description (kept_paths E post) (kept_titles E post);
     audio_url := GITHUB_PAGES_URL ++ lit "/audio/" ++ episode_filename E;
     file_size := st_size E (Mp3 combined (stem (episode_filename E)));
     duration := duration_str (Z.of_nat (length combined) / 1000);
     pub_date := utc_now_iso E |}.

(** The world once the episode is assembled, the temporary directory
    removed and the new state saved. *)
Definition committed (E : Env) (post : Post) (st : FeedState)
    (combined : AudioSegment) (w : World) : World :=
  let w5 := without_tmp (exported (processed E post w) (kept_paths E post)
                                  (episode_path E) combined) in
  mkWorld (<[STATE_FILE :=
               JsonState (append_episode st (episode_record_of E post combined))]>
             (files w5))
          (dirs w5 ∪ list_to_set (ancestors_and_self (removelast RSS_FILE)))
          (trace w5).

(** The ways a run ends: the states of the orchestrator's state machine. *)
Inductive Outcome (E : Env) (w : World) : Result unit -> World -> Prop :=
  | SourceError e :
      fetch_links_post E = Raise e →
      Outcome E w (Raise e) (started w)
  | SourceNotFound :
      fetch_links_post E = Ok None →
      Outcome E w (Ok tt) (started w)
  | StateUnreadable post e :
      fetch_links_post E = Ok (Some post) →
      loaded_state w = Raise e →
      Outcome E w (Raise e) (started w)
  | Skipped post st :
      fetch_links_post E = Ok (Some post) →
      loaded_state w = Ok st →
      has_guid (episode_id E) st = true →
      Outcome E w (Ok tt) (started w)
  | NoChaptersAbort post st :
      fetch_links_post E = Ok (Some post) →
      loaded_state w = Ok st →
      has_guid (episode_id E) st = false →
      kept_chapters E 1 (post_articles post) = [] →
      Outcome E w (Ok tt) (without_tmp (processed E post w))
  | AssemblyFailure post st e p :
      fetch_links_post E = Ok (Some post) →
      loaded_state w = Ok st →
      has_guid (episode_id E) st = false →
      p ∈ kept_paths E post →
      undecodable (processed E post w) p →
      Outcome E w (Raise e)
        (mkWorld (files (processed E post w)) (dirs (processed E post w))
                 (trace (processed E post w)
                  ++ [EvAssemble (kept_paths E post) (episode_path E)]))
  | FeedFailure post st segs e :
      fetch_links_post E = Ok (Some post) →
      loaded_state w = Ok st →
      has_guid (episode_id E) st = false →
      kept_paths E post ≠ [] →
      Forall2 (decodes_to (processed E post w)) (kept_paths E post) segs →
      let combined :=
        chapters_with_gaps (AudioSegment_silent SILENCE_BETWEEN_CHAPTERS_MS)
                           segs in
      let st' := append_episode st (episode_record_of E post combined) in
      generate_rss (rfc2822_of_iso E) (episodes st') = Raise e →
      Outcome E w (Raise e) (committed E post st combined w)
  | Done post st segs doc :
      fetch_links_post E = Ok (Some post) →
      loaded_state w = Ok st →
      has_guid (episode_id E) st = false →
      kept_paths E post ≠ [] →
      Forall2 (decodes_to (processed E post w)) (kept_paths E post) segs →
      let combined :=
        chapters_with_gaps (AudioSegment_silent SILENCE_BETWEEN_CHAPTERS_MS)
                           segs in
      let st' := append_episode st (episode_record_of E post combined) in
      generate_rss (rfc2822_of_iso E) (episodes st') = Ok doc →
      let w7 := committed E post st combined w in
      Outcome E w (Ok tt)
        (mkWorld (<[RSS_FILE := Text doc]> (files w7)) (dirs w7) (trace w7)).

(** How many episodes of the state kept in a world carry a guid. *)
Definition episodes_with_guid (id : str) (w : World) : nat :=
  match files w !! STATE_FILE with
  | Some (JsonState st) => guid_count id st
  | _ => 0
  end.

(** [save_state] as the specification has it: whoever looks at the state
    file while [save_state st] runs, or after a crash in it, loads the
    state saved before or the new one. *)
Definition save_is_atomic (st : FeedState) (w : World) : Prop :=
  ∀ w_mid, w_mid ∈ save_state_stages st w →
           loaded_state w_mid = loaded_state w ∨ loaded_state w_mid = Ok st.

(** The assembler as the specification has it: it raises on an empty
    chapter list. *)
Definition assembler_rejects_empty (out : Path) (w : World) : Prop :=
  ∃ e w', assemble_episode [] out w = (Raise e, w').

(** ** Sample data for the worked instances *)


Definition rfc_fixed : str -> option str :=
  fun _ => Some (lit "Fri, 21 Feb 2025 12:00:00 +0000").


Definition episode_of_day (d : nat) : Episode :=
  {| guid := lit "nc-links-2025-01-" ++ fmt_02d (Z.of_nat d);
     title := lit "Links"; description := []; audio_url := [];
     file_size := 0; duration := lit "00:00:00"; pub_date := [] |}.

Definition thirty_days : FeedState := mkFeedState (map episode_of_day (seq 1 30)).


(** A run on three scraped articles; the second cannot be fetched. *)
Definition sample_body : str :=
  lit "The first paragraph of the article says what happened and where."
  ++ nl ++ nl
  ++ lit "The second paragraph, after a blank line, adds the reactions, "
  ++ lit "the numbers and a long-winded quote from an unnamed official, "
  ++ lit "so that the text is well over the two hundred characters that "
  ++ lit "the extractor asks for.".

Definition sample_articles : list Article :=
  [ mkArticle (lit "https://example.org/a") (lit "Fed holds rates")
              (lit "Fed holds rates, as expected. Reuters");
    mkArticle (lit "https://example.org/b") (lit "Port strike ends")
              (lit "Port strike ends");
    mkArticle (lit "https://example.org/c") (lit "Bird flu update") [] ].

Definition sample_env : Env :=
  {| fetch_links_post :=
       Ok (Some (mkPost (lit "Links 2/21/2025")
                        (lit "https://www.nakedcapitalism.com/2025/02/links.html")
                        sample_articles));
     utc_today := lit "2025-02-21";
     utc_now_iso := lit "2025-02-21T12:00:00+00:00";
     session_get := fun url =>
       if bool_decide (url = lit "https://example.org/b") then None
       else Some (lit "<html>" ++ url ++ lit "</html>");
     trafilatura_extract := fun _ => Some sample_body;
     edge_tts_save := fun text _ _ =>
       TtsSaved (Mp3 (repeat 1%Z (length text)) []);
     st_size := fun data =>
       match data with
       | Mp3 a _ => Z.of_nat (length a) * 8
       | _ => 0
       end%Z;
     rfc2822_of_iso := rfc_fixed;
     uni_isalnum := fun _ => false;
     uni_isdecimal := fun _ => false |}.

Definition empty_world : World := mkWorld ∅ ∅ [].

Definition sample_article : Article :=
  mkArticle (lit "https://example.org/a") (lit "Fed holds rates")
            (lit "Fed holds rates, as expected. Reuters").

(** Three chapter files waiting in the temporary directory. *)
Definition three_chapters : list Path :=
  [chapter_path 1; chapter_path 3; chapter_path 4].

Definition three_segments : list AudioSegment :=
  [[5; 6; 7]%Z; [8; 9]%Z; [1; 2; 3; 4]%Z].

Definition world_with_chapters : World :=
  mkWorld (<[chapter_path 1 := Mp3 [5; 6; 7]%Z []]>
             (<[chapter_path 3 := Mp3 [8; 9]%Z []]>
                (<[chapter_path 4 := Mp3 [1; 2; 3; 4]%Z []]> ∅)))
          {[ TMP_DIR ]} [].

(** The same with the audio directory made, as [run_pipeline] makes it
    before anything else. *)
Definition world_ready_to_assemble : World :=
  mkWorld (files world_with_chapters)
          (dirs world_with_chapters ∪ list_to_set (ancestors_and_self AUDIO_DIR))
          [].

(** A fresh repository in which the audio directory has been made. *)
Definition world_with_audio_dir : World :=
  mkWorld ∅ (list_to_set (ancestors_and_self AUDIO_DIR)) [].

Definition sample_episode_path : Path :=
  AUDIO_DIR ++ [lit "nc-links-2025-02-21.mp3"].

(** A world whose state already has the episode of 2025-02-21. *)
Definition episode_of_today : Episode :=
  {| guid := lit "nc-links-2025-02-21";
     title := lit "Links 2/21/2025"; description := lit "Daily Links";
     audio_url := GITHUB_PAGES_URL ++ lit "/audio/nc-links-2025-02-21.mp3";
     file_size := 4096; duration := lit "00:10:00";
     pub_date := lit "2025-02-21T06:00:00+00:00" |}.

Definition world_done_today : World :=
  mkWorld (<[STATE_FILE := JsonState (mkFeedState [episode_of_today])]> ∅)
          ∅ [].

(** A day on which no article can be fetched, in a world that has an
    older episode, its feed and a stale chapter left in the temporary
    directory. *)
Definition offline_env : Env :=
  {| fetch_links_post := fetch_links_post sample_env;
     utc_today := lit "2025-02-22";
     utc_now_iso := lit "2025-02-22T12:00:00+00:00";
     session_get := fun _ => None;
     trafilatura_extract := trafilatura_extract sample_env;
     edge_tts_save := edge_tts_save sample_env;
     st_size := st_size sample_env;
     rfc2822_of_iso := rfc_fixed;
     uni_isalnum := fun _ => false;
     uni_isdecimal := fun _ => false |}.

Definition world_with_history : World :=
  mkWorld (<[STATE_FILE := JsonState (mkFeedState [episode_of_today])]>
             (<[RSS_FILE := Text (lit "<rss/>")]>
                (<[chapter_path 7 := Raw (lit "stale")]> ∅)))
          {[ TMP_DIR ]} [].

(** A day on which the speech service answers, but with something that is
    not audio. *)
Definition garbled_env : Env :=
  {| fetch_links_post := fetch_links_post sample_env;
     utc_today := utc_today sample_env;
     utc_now_iso := utc_now_iso sample_env;
     session_get := session_get sample_env;
     trafilatura_extract := trafilatura_extract sample_env;
     edge_tts_save := fun _ _ _ => TtsSaved (Raw (lit "<html>503</html>"));
     st_size := st_size sample_env;
     rfc2822_of_iso := rfc_fixed;
     uni_isalnum := fun _ => false;
     uni_isdecimal := fun _ => false |}.

(** The state of the day after, to be saved over the one of today. *)
Definition state_of_tomorrow : FeedState :=
  append_episode (mkFeedState [episode_of_today]) (episode_of_day 22).

(** What the speech service is sent for [sample_article] and
    [sample_body]: one line, single spaces. *)
Definition sample_spoken : str :=
  lit "Chapter 1. Fed holds rates. Fed holds rates, as expected. Reuters "
  ++ lit "The first paragraph of the article says what happened and where. "
  ++ lit "The second paragraph, after a blank line, adds the reactions, "
  ++ lit "the numbers and a long-winded quote from an unnamed official, "
  ++ lit "so that the text is well over the two hundred characters that "
  ++ lit "the extractor asks for.".

(** ** Further notions *)

(** The article made from an anchor that passes the filters of
    [_parse_links_post]. *)
Definition link_of (a : Anchor) (art : Article) : Prop :=
  art_url art = strip (a_href a)
  ∧ starts_with (lit "http") (art_url art) = true
  ∧ existsb (fun x => contains x (art_url art)) SKIPPED_LINKS = false
  ∧ art_title art = (if bool_decide (a_text a = [])
                     then art_url art else a_text a)
  ∧ art_blurb art = default [] (a_parent_text a).

(** The anchors of a small post: a link with surrounding white space, a
    link back to the site, the first link again, a relative link, and a
    link without text or paragraph. *)
Definition sample_anchors : list Anchor :=
  [ mkAnchor (lit " https://example.org/a ") (lit "Fed holds rates")
             (Some (lit "Fed holds rates, as expected. Reuters"));
    mkAnchor (lit "https://www.nakedcapitalism.com/about") (lit "About") None;
    mkAnchor (lit "https://example.org/a") (lit "again") None;
    mkAnchor (lit "/2025/02/links.html") (lit "permalink") None;
    mkAnchor (lit "https://example.org/c") [] None ].

Definition sample_bare_link : Article :=
  mkArticle (lit "https://example.org/c") (lit "https://example.org/c") [].

(** A feed of two episodes, the older one first. *)
Definition two_episodes : list Episode := [episode_of_day 1; episode_of_day 2].

Definition item_of_day (d : nat) : str :=
  match rss_item rfc_fixed (episode_of_day d) with
  | Ok item => item
  | Raise _ => []
  end.

(** Reading the four entities of [_xml] back; [fuel] bounds the length of
    the text. *)
Fixpoint unescape_fuel (fuel : nat) (s : str) : str :=
  match fuel with
  | 0 => []
  | S fuel' =>
      match s with
      | [] => []
      | c :: t =>
          if (c =? AMP)%N
          then if starts_with (lit "amp;") t
               then AMP :: unescape_fuel fuel' (drop 4 t)
               else if starts_with (lit "lt;") t
               then LT :: unescape_fuel fuel' (drop 3 t)
               else if starts_with (lit "gt;") t
               then GT :: unescape_fuel fuel' (drop 3 t)
               else if starts_with (lit "quot;") t
               then QUOT :: unescape_fuel fuel' (drop 5 t)
               else c :: unescape_fuel fuel' t
          else c :: unescape_fuel fuel' t
      end
  end.

Definition xml_unescape (s : str) : str := unescape_fuel (length s) s.

(** A character that [_xml] replaces. *)
Definition reserved (c : N) : Prop := c = AMP ∨ c = LT ∨ c = GT ∨ c = QUOT.

(** The page requests and the synthesis calls of a trace, in order. *)
Definition requested (t : list Event) : list str :=
  omap (fun ev => match ev with EvGet url => Some url | _ => None end) t.

Definition synthesized (t : list Event) : list Path :=
  omap (fun ev => match ev with EvTts _ p => Some p | _ => None end) t.

(** The articles whose text is sent to the speech service, with their
    positions. *)
Definition spoken_chapters (E : Env) (start : nat) (articles : list Article)
  : list (nat * Article) :=
  filter (fun ia => is_Some (spoken_text E ia)) (enumerate_from start articles).

(** The guids of a state, oldest first. *)
Definition guids (st : FeedState) : list str := map guid (episodes st).

(** A day on which the site cannot be reached. *)
Definition unreachable_env : Env :=
  {| fetch_links_post := Raise HTTPError;
     utc_today := utc_today sample_env;
     utc_now_iso := utc_now_iso sample_env;
     session_get := session_get sample_env;
     trafilatura_extract := trafilatura_extract sample_env;
     edge_tts_save := edge_tts_save sample_env;
     st_size := st_size sample_env;
     rfc2822_of_iso := rfc_fixed;
     uni_isalnum := fun _ => false;
     uni_isdecimal := fun _ => false |}.

(** The first thing [json.loads] does with a text: it skips the blanks
    (space, tab, line feed, carriage return) and looks at the next
    character. When the text ends there, or goes on with a character that
    starts no JSON value (a string, an object, an array, a number, [true],
    [false], [null], [NaN], [Infinity]), it raises [JSONDecodeError];
    [not_json] says that this is the case. *)
Definition json_blank (c : N) : bool :=
  ((c =? 32) || (c =? 9) || (c =? 10) || (c =? 13))%N.

Fixpoint skip_json_blanks (s : str) : str :=
  match s with
  | c :: t => if json_blank c then skip_json_blanks t else s
  | [] => []
  end.

Definition json_value_start (c : N) : bool :=
  existsb (N.eqb c) (lit "{[-0123456789tfnNI") || (c =? QUOT)%N.

Definition not_json (s : str) : bool :=
  match skip_json_blanks s with
  | [] => true
  | c :: _ => negb (json_value_start c)
  end.

(** The dates of the worked instances as
    [format_datetime(datetime.fromisoformat(s))] renders them; [None] for
    the other strings of the instances, which are not ISO dates. *)
Definition rfc_table (s : str) : option str :=
  if str_eqb s (lit "2025-02-21T12:00:00+00:00")
  then Some (lit "Fri, 21 Feb 2025 12:00:00 +0000")
  else if str_eqb s (lit "2025-02-20T12:00:00+00:00")
  then Some (lit "Thu, 20 Feb 2025 12:00:00 +0000")
  else None.

(** [sample_env] with that rendering of the dates. *)
Definition dated_env : Env :=
  {| fetch_links_post := fetch_links_post sample_env;
     utc_today := utc_today sample_env;
     utc_now_iso := utc_now_iso sample_env;
     session_get := session_get sample_env;
     trafilatura_extract := trafilatura_extract sample_env;
     edge_tts_save := edge_tts_save sample_env;
     st_size := st_size sample_env;
     rfc2822_of_iso := rfc_table;
     uni_isalnum := fun _ => false;
     uni_isdecimal := fun _ => false |}.

(** The episode of the day before, and a repository that has published
    it. *)
Definition episode_of_yesterday : Episode :=
  {| guid := lit "nc-links-2025-02-20";
     title := lit "Links 2/20/2025"; description := lit "Daily Links";
     audio_url := GITHUB_PAGES_URL ++ lit "/audio/nc-links-2025-02-20.mp3";
     file_size := 4096; duration := lit "00:10:00";
     pub_date := lit "2025-02-20T12:00:00+00:00" |}.

Definition world_of_yesterday : World :=
  mkWorld (<[STATE_FILE := JsonState (mkFeedState [episode_of_yesterday])]>
             (<[RSS_FILE := Text (lit "<rss/>")]>
                (<[AUDIO_DIR ++ [lit "nc-links-2025-02-20.mp3"]
                   := Mp3 [1; 2]%Z (lit "nc-links-2025-02-20")]> ∅)))
          (list_to_set (ancestors_and_self AUDIO_DIR)) [].

(** The same after somebody has edited the date of that episode in the
    state file by hand. *)
Definition episode_with_bad_date : Episode :=
  {| guid := guid episode_of_yesterday;
     title := title episode_of_yesterday;
     description := description episode_of_yesterday;
     audio_url := audio_url episode_of_yesterday;
     file_size := file_size episode_of_yesterday;
     duration := duration episode_of_yesterday;
     pub_date := lit "20 Feb 2025" |}.

Definition world_with_bad_date : World :=
  mkWorld (<[STATE_FILE := JsonState (mkFeedState [episode_with_bad_date])]>
             (files world_of_yesterday))
          (dirs world_of_yesterday) [].

(** A repository whose state file was cut to nothing by a write that did
    not finish. *)
Definition world_with_cut_state : World :=
  mkWorld (<[STATE_FILE := Raw []]> (files world_of_yesterday))
          (dirs world_of_yesterday) [].

(** A file of the repository that the pipeline has no business with. *)
Definition readme : Path := [lit "README.md"].

Definition world_with_readme : World :=
  mkWorld (<[readme := Text (lit "# podcast")]>
             (<[AUDIO_DIR ++ [lit "nc-links-2025-02-20.mp3"] := Mp3 [1; 2]%Z []]> ∅))
          ∅ [].

(** The post of [sample_env]. *)
Definition sample_post : Post :=
  mkPost (lit "Links 2/21/2025")
         (lit "https://www.nakedcapitalism.com/2025/02/links.html")
         sample_articles.

(** The worlds after a first run in an empty repository: on an ordinary
    day, and on a day on which the speech service sends no audio. *)
Definition published_world : World := (run_pipeline sample_env empty_world).2.
Definition garbled_world : World := (run_pipeline garbled_env empty_world).2.

(** The error [AudioSegment.from_mp3] raises for a path that does not
    decode: the file is missing, or it is there and is not audio. *)
Definition decode_error (w : World) (p : Path) : exn :=
  match files w !! p with
  | None => FileNotFoundError p
  | Some _ => CouldntDecodeError p
  end.
(** ** Python string lemmas *)

#[global] Instance Ok_inj {A} : Inj (=) (=) (@Ok A).
Proof. intros a b H. by injection H. Qed.

Lemma replace_app old new a b :
  replace old new (a ++ b) = replace old new a ++ replace old new b.
Proof.
  induction a as [|c a IH]; simpl; [done|].
  by rewrite IH, app_assoc.
Qed.



Lemma last_n_length {A} n (l : list A) : length (last_n n l) = min n (length l).
Proof. unfold last_n. rewrite length_drop. lia. Qed.

Lemma last_n_short {A} n (l : list A) : length l ≤ n → last_n n l = l.
Proof.
  intros H. unfold last_n.
  replace (length l - n) with 0 by lia. done.
Qed.

Lemma starts_with_app p s t : starts_with p s = true → starts_with p (s ++ t) = true.
Proof.
  revert s. induction p as [|x p IH]; intros [|y s]; simpl; try done.
  intros [-> H]%andb_true_iff. by rewrite IH.
Qed.

Lemma starts_entity_app s t : starts_entity s = true → starts_entity (s ++ t) = true.
Proof.
  unfold starts_entity. rewrite !orb_true_iff.
  intros [[[H|H]|H]|H]; apply (starts_with_app _ _ t) in H; rewrite H; auto.
Qed.

(** ** The escaping of [_xml] *)

Lemma xml_app a b : _xml (a ++ b) = _xml a ++ _xml b.
Proof. unfold _xml. by rewrite !replace_app. Qed.

Lemma xml_single c : _xml [c] = xml_char c.
Proof.
  unfold _xml, xml_char. cbn [replace].
  destruct (N.eqb_spec c AMP) as [->|H1]; [done|].
  cbn [replace app].
  destruct (N.eqb_spec c LT) as [->|H2]; [done|].
  cbn [replace app].
  destruct (N.eqb_spec c GT) as [->|H3]; [done|].
  cbn [replace app].
  destruct (N.eqb_spec c QUOT) as [->|H4]; [done|].
  done.
Qed.

Lemma xml_cons c s : _xml (c :: s) = xml_char c ++ _xml s.
Proof. by rewrite <- xml_single, <- xml_app. Qed.


Lemma xml_char_cases c :
  (c = AMP ∧ xml_char c = lit "&amp;") ∨ (c = LT ∧ xml_char c = lit "&lt;")
  ∨ (c = GT ∧ xml_char c = lit "&gt;") ∨ (c = QUOT ∧ xml_char c = lit "&quot;")
  ∨ (c ≠ AMP ∧ c ≠ LT ∧ c ≠ GT ∧ c ≠ QUOT ∧ xml_char c = [c]).
Proof.
  unfold xml_char.
  destruct (N.eqb_spec c AMP) as [->|H1]; [by left|].
  destruct (N.eqb_spec c LT) as [->|H2]; [by right; left|].
  destruct (N.eqb_spec c GT) as [->|H3]; [by right; right; left|].
  destruct (N.eqb_spec c QUOT) as [->|H4]; [by right; right; right; left|].
  by right; right; right; right.
Qed.










(** ** The renderer keeps scraped text out of the markup *)

Section RendererFacts.

Variable rfc : str -> option str.




End RendererFacts.


Section ItemFacts.

Variable rfc : str -> option str.







End ItemFacts.

(** ** No ampersand of a scraped field is left bare *)

Lemma sealed_nil : sealed [].
Proof. intros b. done. Qed.















Section AmpersandFacts.

Variable rfc : str -> option str.






End AmpersandFacts.




(** ** Bounded retention *)

Lemma append_episode_suffix st rec :
  ∃ evicted,
    episodes st ++ [rec] = evicted ++ episodes (append_episode st rec)
    ∧ length evicted = length (episodes st) + 1 - 30
    ∧ evicted `prefix_of` episodes st.
Proof.
  unfold append_episode, last_n. cbn [episodes].
  rewrite length_app. cbn [length].
  exists (take (length (episodes st) + 1 - 30) (episodes st ++ [rec])).
  split; [by rewrite take_drop|]. split.
  - rewrite length_take, length_app. cbn [length]. lia.
  - rewrite take_app_le by lia. apply prefix_take.
Qed.

(** C9. Appending puts the episode at the end and keeps the last 30
    entries: the result never has more than 30 entries, it ends with the
    new episode, the entries dropped are the oldest ones (a prefix of the
    state, in append order), and a state of exactly 30 entries loses its
    first entry and nothing else. *)
Theorem append_episode_retention (st : FeedState) (rec : Episode) :
  length (episodes (append_episode st rec)) ≤ 30
  ∧ last (episodes (append_episode st rec)) = Some rec
  ∧ (∃ evicted,
       episodes st ++ [rec] = evicted ++ episodes (append_episode st rec)
       ∧ length evicted = length (episodes st) + 1 - 30
       ∧ evicted `prefix_of` episodes st)
  ∧ (length (episodes st) = 30 →
     episodes (append_episode st rec) = drop 1 (episodes st) ++ [rec]).
Proof.
  split; [|split; [|split]].
  - unfold append_episode. cbn [episodes]. rewrite last_n_length. lia.
  - unfold append_episode, last_n. cbn [episodes].
    rewrite length_app. cbn [length].
    destruct (decide (length (episodes st) + 1 - 30 ≤ length (episodes st)))
      as [Hle|Hgt]; [|lia].
    rewrite drop_app_le by done. by rewrite last_snoc.
  - apply append_episode_suffix.
  - intros H30. unfold append_episode, last_n. cbn [episodes].
    rewrite length_app. cbn [length]. rewrite H30.
    change (30 + 1 - 30) with 1. rewrite drop_app_le by lia. done.
Qed.

Lemma append_episode_retention_witness :
  length (episodes thirty_days) = 30
  ∧ episodes (append_episode thirty_days (episode_of_day 31))
    = map episode_of_day (seq 2 30).
Proof.
  split; [reflexivity|].
  destruct (append_episode_retention thirty_days (episode_of_day 31))
    as (_ & _ & _ & H).
  rewrite H by reflexivity. reflexivity.
Defined.

(** ** [textwrap.shorten]: collapsing white space *)

Section CollapseFacts.

Import Textwrap.

Lemma nospace_reverse w : nospace w → nospace (reverse w).
Proof. unfold nospace. by rewrite Forall_reverse. Qed.

Lemma reverse_cons_not_nil {A} (x : A) l : reverse (x :: l) ≠ [].
Proof. rewrite reverse_cons. by destruct (reverse l). Qed.

Lemma split_words_wordlike s : ∀ cur,
  nospace cur → Forall wordlike (split_words cur s).
Proof.
  induction s as [|c s IH]; intros cur Hcur; cbn [split_words].
  - destruct cur as [|x cur]; [constructor|].
    constructor; [|constructor].
    split; [apply reverse_cons_not_nil | by apply nospace_reverse].
  - destruct (isspace c) eqn:Hc.
    + destruct cur as [|x cur]; [apply IH; constructor|].
      constructor; [|apply IH; constructor].
      split; [apply reverse_cons_not_nil | by apply nospace_reverse].
    + apply IH. by constructor.
Qed.

Lemma split_wordlike s : Forall wordlike (split s).
Proof. apply split_words_wordlike. constructor. Qed.

Lemma join_cons2 sep (p q : str) rest :
  join sep (p :: q :: rest) = p ++ sep ++ join sep (q :: rest).
Proof. done. Qed.

Lemma join_wordlike_not_nil w ws :
  wordlike w → join [SPACE] (w :: ws) ≠ [].
Proof.
  intros [Hne _]. destruct ws; cbn [join]; [done|].
  by destruct w.
Qed.

Lemma tidy_app a b : tidy a → tidy b → tidy (a ++ b).
Proof. unfold tidy. intros. by apply Forall_app. Qed.

Lemma nospace_tidy w : nospace w → tidy w.
Proof.
  unfold nospace, tidy. intros H.
  eapply Forall_impl; [exact H|]. auto.
Qed.

Lemma join_tidy ws : Forall wordlike ws → tidy (join [SPACE] ws).
Proof.
  induction ws as [|w ws IH]; intros Hws; [constructor|].
  apply Forall_cons in Hws as [[_ Hw] Hws].
  destruct ws as [|w2 ws]; [by apply nospace_tidy|].
  rewrite join_cons2. apply tidy_app; [by apply nospace_tidy|].
  apply tidy_app; [|by apply IH].
  constructor; [by left | constructor].
Qed.

Lemma join_hd_nospace ws : Forall wordlike ws → hd_nospace (join [SPACE] ws).
Proof.
  intros Hws. destruct ws as [|w ws]; [done|].
  apply Forall_cons in Hws as [[Hne Hw] _].
  destruct w as [|c w]; [done|].
  apply Forall_cons in Hw as [Hc _].
  destruct ws; cbn [join]; exact Hc.
Qed.

Lemma last_nospace_app a b : b ≠ [] → last_nospace b → last_nospace (a ++ b).
Proof.
  intros Hb. unfold last_nospace.
  destruct b as [|x b] using rev_ind; [done|].
  by rewrite app_assoc, !last_snoc.
Qed.

Lemma nospace_last w : nospace w → last_nospace w.
Proof.
  unfold nospace, last_nospace. intros Hw.
  destruct w as [|x w _] using rev_ind; [done|].
  rewrite last_snoc. apply Forall_app in Hw as [_ Hx].
  by apply Forall_cons in Hx as [Hx _].
Qed.

Lemma join_last_nospace ws : Forall wordlike ws → last_nospace (join [SPACE] ws).
Proof.
  induction ws as [|w ws IH]; intros Hws; [done|].
  apply Forall_cons in Hws as [[_ Hw] Hws].
  destruct ws as [|w2 ws]; [by apply nospace_last|].
  rewrite join_cons2, app_assoc.
  apply last_nospace_app; [|by apply IH].
  apply Forall_cons in Hws as [Hw2 _]. by apply join_wordlike_not_nil.
Qed.

(** The collapsed text has single spaces as its only white space and
    neither starts nor ends with one. *)
Lemma collapse_tidy text : tidy (collapse text).
Proof. apply join_tidy, split_wordlike. Qed.

Lemma collapse_hd text : hd_nospace (collapse text).
Proof. apply join_hd_nospace, split_wordlike. Qed.

Lemma collapse_last text : last_nospace (collapse text).
Proof. apply join_last_nospace, split_wordlike. Qed.

Lemma is_ws_isspace c : is_ws c = true → isspace c = true.
Proof.
  unfold is_ws, isspace.
  rewrite orb_true_iff, andb_true_iff, N.eqb_eq.
  intros [[H1 H2]| ->]; [|done].
  by rewrite H1, H2.
Qed.

Lemma expandtabs_no_tab s : ∀ col,
  Forall (fun c => c ≠ 9%N) s → expandtabs col s = s.
Proof.
  induction s as [|c s IH]; intros col Hs; [done|].
  apply Forall_cons in Hs as [Hc Hs]. cbn [expandtabs].
  destruct (N.eqb_spec c 9) as [->|_]; [done|].
  by rewrite IH.
Qed.

(** On collapsed text [_munge_whitespace] changes nothing. *)
Lemma munge_tidy t : tidy t → munge_whitespace t = t.
Proof.
  intros Ht. unfold munge_whitespace.
  rewrite expandtabs_no_tab.
  - induction Ht as [|c t Hc Ht IH]; [done|].
    cbn [map]. rewrite IH. f_equal.
    destruct Hc as [Hc|Hc]; [by rewrite Hc|].
    destruct (is_ws c) eqn:Hws; [|done].
    apply is_ws_isspace in Hws. congruence.
  - eapply Forall_impl; [exact Ht|].
    intros c [Hc|Hc] Hc9; subst c; [done|]. by vm_compute in Hc.
Qed.

End CollapseFacts.

(** ** [textwrap.shorten]: the chunks tile the text *)

Section ChunkFacts.

Import Textwrap.

Variable uni_isalnum uni_isdecimal : N -> bool.

Lemma ws_run_le s : ws_run s ≤ length s.
Proof. induction s as [|c s IH]; cbn; [lia|]. destruct (is_ws c); cbn; lia. Qed.

Lemma hyphen_run_le s : hyphen_run s ≤ length s.
Proof.
  induction s as [|c s IH]; cbn; [lia|].
  destruct (c =? HYPHEN)%N; cbn; lia.
Qed.

Lemma word_more_le rest : ∀ before,
  word_more uni_isalnum uni_isdecimal before rest ≤ length rest.
Proof.
  induction rest as [|c r IH]; intros before; cbn [word_more length]; [lia|].
  repeat match goal with |- context [if ?b then _ else _] => destruct b end;
    try lia.
  specialize (IH (c :: before)). lia.
Qed.

Lemma chunk_len_bounds before c r :
  1 ≤ chunk_len uni_isalnum uni_isdecimal before c r ≤ S (length r).
Proof.
  unfold chunk_len.
  destruct (is_ws c) eqn:Hws.
  - cbn [ws_run]. rewrite Hws. pose proof (ws_run_le r). lia.
  - destruct (_ && emdash_ahead uni_isalnum (c :: r)) eqn:Hem.
    + apply andb_true_iff in Hem as [_ Hem].
      unfold emdash_ahead in Hem. apply andb_true_iff in Hem as [Hem _].
      apply Nat.leb_le in Hem.
      pose proof (hyphen_run_le (c :: r)). cbn [length] in *. lia.
    + pose proof (word_more_le r (c :: before)). lia.
Qed.

Lemma split_chunks_concat fuel : ∀ before rest,
  length rest ≤ fuel →
  concat (split_chunks uni_isalnum uni_isdecimal fuel before rest) = rest.
Proof.
  induction fuel as [|fuel IH]; intros before rest Hlen.
  - destruct rest; [done | cbn in Hlen; lia].
  - destruct rest as [|c r]; [done|].
    cbn [split_chunks concat].
    pose proof (chunk_len_bounds before c r) as [Hlo Hhi].
    rewrite IH; [by rewrite take_drop|].
    rewrite length_drop. cbn [length] in *. lia.
Qed.

Lemma concat_filter_nonempty (l : list str) :
  concat (filter (fun c => c ≠ []) l) = concat l.
Proof.
  induction l as [|c l IH]; [done|].
  rewrite filter_cons. destruct (decide (c ≠ [])) as [Hc|Hc].
  - cbn [concat]. by rewrite IH.
  - apply dec_stable in Hc. subst c. by rewrite IH.
Qed.

Lemma wordsep_split_concat t :
  concat (wordsep_split uni_isalnum uni_isdecimal t) = t.
Proof.
  unfold wordsep_split.
  rewrite concat_filter_nonempty. by apply split_chunks_concat.
Qed.

Lemma wordsep_split_nonempty t :
  Forall (fun c => c ≠ []) (wordsep_split uni_isalnum uni_isdecimal t).
Proof.
  unfold wordsep_split. apply Forall_forall.
  intros c Hc. by apply list_elem_of_filter in Hc as [Hc _].
Qed.

End ChunkFacts.

(** ** [textwrap.shorten]: one line, with or without the placeholder *)

Section WrapFacts.

Import Textwrap.

Variable width : nat.
Variable ph : str.

Lemma sum_len_cons x a : sum_len (x :: a) = length x + sum_len a.
Proof. done. Qed.

Lemma sum_len_app a b : sum_len (a ++ b) = sum_len a + sum_len b.
Proof.
  induction a as [|x a IH]; [done|].
  change ((x :: a) ++ b) with (x :: (a ++ b)).
  rewrite !sum_len_cons, IH. lia.
Qed.

Lemma sum_len_reverse l : sum_len (reverse l) = sum_len l.
Proof.
  induction l as [|x l IH]; [done|].
  rewrite reverse_cons, sum_len_app, IH, !sum_len_cons. cbn. lia.
Qed.

Lemma sum_len_concat l : length (concat l) = sum_len l.
Proof.
  induction l as [|x l IH]; [done|].
  cbn [concat]. by rewrite length_app, IH.
Qed.

Lemma blank_false_hd c : c ≠ [] → hd_nospace c → blank c = false.
Proof. destruct c as [|x c]; [done|]. cbn. by intros _ ->. Qed.

Lemma blank_false_last c : c ≠ [] → last_nospace c → blank c = false.
Proof.
  unfold last_nospace, blank.
  destruct c as [|x c _] using rev_ind; [done|].
  rewrite last_snoc, forallb_app. cbn. intros _ ->.
  by rewrite andb_false_r.
Qed.

Lemma hd_nospace_app_l a b : a ≠ [] → hd_nospace (a ++ b) → hd_nospace a.
Proof. by destruct a. Qed.

Lemma last_nospace_app_r a b : b ≠ [] → last_nospace (a ++ b) → last_nospace b.
Proof.
  unfold last_nospace.
  destruct b as [|x b _] using rev_ind; [done|].
  by rewrite app_assoc, !last_snoc.
Qed.

Lemma fill_line_spec chunks : ∀ cur_line cur_len,
  ∃ taken rest,
    chunks = taken ++ rest
    ∧ fill_line width chunks cur_line cur_len
      = (reverse taken ++ cur_line, cur_len + sum_len taken, rest)
    ∧ (cur_len ≤ width → cur_len + sum_len taken ≤ width)
    ∧ match rest with
      | [] => True
      | c :: _ => width < cur_len + sum_len taken + length c
      end.
Proof.
  induction chunks as [|c chunks IH]; intros cur_line cur_len.
  - exists [], []. split; [done|]. split; [cbn; f_equal; f_equal; lia|].
    split; [cbn; lia | done].
  - cbn [fill_line]. destruct (Nat.leb_spec (cur_len + length c) width) as [Hle|Hgt].
    + destruct (IH (c :: cur_line) (cur_len + length c))
        as (taken & rest & Heq & Hf & Hw & Hr).
      exists (c :: taken), rest. rewrite Hf, Heq.
      rewrite reverse_cons, <- app_assoc, sum_len_cons.
      split; [done|]. split; [|split].
      * cbn [app]. f_equal. f_equal. lia.
      * intros _. specialize (Hw Hle). lia.
      * destruct rest; [done|]. lia.
    + exists [], (c :: chunks). split; [done|].
      split; [cbn; f_equal; f_equal; lia|].
      split; cbn; lia.
Qed.

Lemma put_placeholder_spec cur_line :
  match put_placeholder width ph cur_line (sum_len cur_line) with
  | Some cl =>
      ∃ dropped kept,
        cur_line = dropped ++ kept ∧ cl = ph :: kept
        ∧ (∃ c rest, kept = c :: rest ∧ blank c = false)
        ∧ sum_len kept + length ph ≤ width
  | None => True
  end.
Proof.
  induction cur_line as [|last before IH]; [done|].
  cbn [put_placeholder].
  destruct (negb (blank last)
            && (sum_len (last :: before) + length ph <=? width)) eqn:Hc.
  - apply andb_true_iff in Hc as [Hb Hw].
    apply negb_true_iff in Hb. apply Nat.leb_le in Hw.
    exists [], (last :: before). repeat split; eauto.
  - replace (sum_len (last :: before) - length last) with (sum_len before)
      by (rewrite sum_len_cons; lia).
    destruct (put_placeholder width ph before (sum_len before)); [|done].
    destruct IH as (dropped & kept & -> & -> & Hk & Hw).
    exists (last :: dropped), kept. repeat split; eauto.
Qed.

Lemma wrap_loop_nil ml f lines : wrap_loop width ml ph f [] lines = lines.
Proof. by destruct f. Qed.

Lemma rfind_lt c s : ∀ stop i, rfind c s stop = Some i → i < stop.
Proof.
  induction s as [|x s IH]; intros [|stop] i; cbn [rfind]; try done.
  destruct (rfind c s stop) as [j|] eqn:Hj.
  - intros [= <-]. apply IH in Hj. lia.
  - destruct (x =? c)%N; [|done]. intros [= <-]. lia.
Qed.

Lemma handle_long_word_spec chunk rest cur_line cur_len :
  1 ≤ width → cur_len ≤ width → width < length chunk →
  ∃ e, handle_long_word width (chunk :: rest) cur_line cur_len
       = (take e chunk :: cur_line, drop e chunk :: rest)
       ∧ e ≤ width - cur_len ∧ (cur_len = 0 → 1 ≤ e).
Proof.
  intros Hw Hlen Hlong. unfold handle_long_word.
  replace (width <? 1) with false by (symmetry; apply Nat.ltb_ge; lia).
  replace (width - cur_len <? length chunk) with true
    by (symmetry; apply Nat.ltb_lt; lia).
  destruct (rfind HYPHEN chunk (width - cur_len)) as [h|] eqn:Hh.
  - apply rfind_lt in Hh.
    destruct ((0 <? h) && _); eexists; (split; [reflexivity|]); lia.
  - eexists; (split; [reflexivity|]); lia.
Qed.

Lemma blank_take_false e c :
  1 ≤ e → c ≠ [] → hd_nospace c → blank (take e c) = false.
Proof.
  intros He Hc Hhd. destruct c as [|x c]; [done|].
  destruct e as [|e]; [lia|]. cbn. by rewrite Hhd.
Qed.

(** What a round has after the inner loop and the long-word step. *)
Lemma round_state chunks :
  1 ≤ width → chunks ≠ [] → Forall (fun c => c ≠ []) chunks →
  hd_nospace (concat chunks) → last_nospace (concat chunks) →
  ∃ cl ch,
    long_word_step width (fill_line width chunks [] 0) = (cl, sum_len cl, ch)
    ∧ concat (reverse cl) ++ concat ch = concat chunks
    ∧ sum_len cl ≤ width
    ∧ (∃ up bottom, cl = up ++ [bottom] ∧ blank bottom = false
                    ∧ ∀ x l, chunks = x :: l → length bottom ≤ length x)
    ∧ ((ch = [] ∧ cl = reverse chunks)
       ∨ (width < sum_len chunks
          ∧ ∃ c1 rest1, ch = c1 :: rest1 ∧ (rest1 = [] → blank c1 = false))).
Proof.
  intros Hw Hnil Hne Hhd Hlast.
  destruct (fill_line_spec chunks [] 0) as (taken & rest & Heq & Hf & Hfit & Hr).
  rewrite Hf. clear Hf. rewrite app_nil_r. cbn [Nat.add] in *.
  specialize (Hfit ltac:(lia)).
  assert (Hfirst : ∀ x l, chunks = x :: l → blank x = false).
  { intros x l ->. apply Forall_cons in Hne as [Hx _].
    apply blank_false_hd; [done|]. cbn [concat] in Hhd.
    by apply hd_nospace_app_l in Hhd. }
  destruct rest as [|c rest'].
  - rewrite app_nil_r in Heq. subst taken.
    exists (reverse chunks), []. cbn [long_word_step].
    rewrite sum_len_reverse. split; [done|].
    split; [by rewrite reverse_involutive, app_nil_r|].
    split; [done|]. split; [|by left].
    destruct chunks as [|x l]; [done|].
    exists (reverse l), x. split; [by rewrite reverse_cons|].
    split; [by eapply Hfirst|]. by intros ? ? [= <- _].
  - assert (Hc : c ≠ []).
    { rewrite Heq in Hne. apply Forall_app in Hne as [_ Hne].
      by apply Forall_cons in Hne as [? _]. }
    assert (Hbig : width < sum_len chunks).
    { rewrite Heq, sum_len_app, sum_len_cons. lia. }
    assert (Hlastc : rest' = [] → last_nospace c).
    { intros ->. rewrite Heq, concat_app in Hlast. cbn [concat] in Hlast.
      rewrite app_nil_r in Hlast. by apply last_nospace_app_r in Hlast. }
    cbn [long_word_step].
    destruct (Nat.ltb_spec width (length c)) as [Hlong|Hshort].
    + destruct (handle_long_word_spec c rest' (reverse taken) (sum_len taken))
        as (e & -> & He & He1); [done..|].
      exists (take e c :: reverse taken), (drop e c :: rest').
      split; [done|]. split; [|split; [|split; [|right]]].
      * rewrite reverse_cons, reverse_involutive, concat_app. cbn [concat].
        rewrite app_nil_r, <- !app_assoc, (app_assoc (take e c)), take_drop.
        by rewrite Heq, concat_app.
      * rewrite sum_len_cons, sum_len_reverse, length_take. lia.
      * destruct taken as [|x l].
        -- exists [], (take e c). split; [done|]. split.
           ++ apply blank_take_false; [apply He1; done | done |].
              cbn [app] in Heq. rewrite Heq in Hhd. cbn [concat] in Hhd.
              by apply hd_nospace_app_l in Hhd.
           ++ intros x l' Hx. cbn [app] in Heq. rewrite Heq in Hx.
              injection Hx as <- _. rewrite length_take. lia.
        -- exists (take e c :: reverse l), x.
           split; [by rewrite reverse_cons|]. split; [by eapply Hfirst|].
           intros x' l' Hx. rewrite Heq in Hx. by injection Hx as <- _.
      * split; [done|]. exists (drop e c), rest'. split; [done|].
        intros Hr'. apply blank_false_last.
        -- intros Hd. apply (f_equal length) in Hd.
           rewrite length_drop in Hd. cbn in Hd. lia.
        -- specialize (Hlastc Hr').
           rewrite <- (take_drop e c) in Hlastc.
           apply last_nospace_app_r in Hlastc; [done|].
           intros Hd. apply (f_equal length) in Hd.
           rewrite length_drop in Hd. cbn in Hd. lia.
    + exists (reverse taken), (c :: rest').
      split; [by rewrite sum_len_reverse|].
      split; [by rewrite reverse_involutive, Heq, concat_app|].
      split; [by rewrite sum_len_reverse|]. split; [|right].
      * destruct taken as [|x l]; [cbn in Hr; lia|].
        exists (reverse l), x. split; [by rewrite reverse_cons|].
        split; [by eapply Hfirst|].
        intros x' l' Hx. rewrite Heq in Hx. by injection Hx as <- _.
      * split; [done|]. exists c, rest'. split; [done|].
        intros Hr'. apply blank_false_last; auto.
Qed.

Lemma drop_blank_end_spec cl up bottom :
  cl = up ++ [bottom] → blank bottom = false →
  ∃ dropped cl' up',
    drop_blank_end cl (sum_len cl) = (cl', sum_len cl')
    ∧ cl = dropped ++ cl' ∧ cl' = up' ++ [bottom]
    ∧ (∀ x l, cl = x :: l → blank x = false → cl' = cl).
Proof.
  intros -> Hb.
  destruct up as [|x up]; cbn [app drop_blank_end].
  - rewrite Hb. exists [], [bottom], []. done.
  - destruct (blank x) eqn:Hx.
    + exists [x], (up ++ [bottom]), up.
      split; [f_equal; rewrite sum_len_cons; lia|].
      split; [done|]. split; [done|].
      intros ? ? [= <- _]. congruence.
    + exists [], (x :: up ++ [bottom]), (x :: up). done.
Qed.

Lemma put_placeholder_some up : ∀ bottom,
  blank bottom = false → length bottom + length ph ≤ width →
  put_placeholder width ph (up ++ [bottom]) (sum_len (up ++ [bottom])) ≠ None.
Proof.
  induction up as [|x up IH]; intros bottom Hb Hfit; cbn [app put_placeholder].
  - rewrite Hb. cbn [negb andb].
    replace (sum_len [bottom] + length ph <=? width) with true; [done|].
    symmetry. apply Nat.leb_le. cbn. lia.
  - destruct (negb (blank x) && _); [done|].
    replace (sum_len (x :: up ++ [bottom]) - length x)
      with (sum_len (up ++ [bottom])) by (rewrite sum_len_cons; lia).
    by apply IH.
Qed.

(** The first round of the loop, on no lines yet. *)
Lemma wrap_loop_first ml f chunks :
  chunks ≠ [] →
  wrap_loop width ml ph (S f) chunks []
  = let '(cur_line, cur_len, ch) :=
      long_word_step width (fill_line width chunks [] 0) in
    let '(cl, len) := drop_blank_end cur_line cur_len in
    match cl with
    | [] => wrap_loop width ml ph f ch []
    | _ :: _ =>
        if line_is_kept width ml ch len []
        then wrap_loop width ml ph f ch ([] ++ [concat (reverse cl)])
        else last_line width ph cl len []
    end.
Proof.
  destruct chunks as [|first others]; [done|]. intros _.
  cbn [wrap_loop]. by rewrite andb_false_r.
Qed.

(** The text fits: the line is the text. *)
Lemma wrap_loop_fits f chunks :
  1 ≤ width →
  Forall (fun c => c ≠ []) chunks →
  hd_nospace (concat chunks) → last_nospace (concat chunks) →
  sum_len chunks ≤ width →
  join nl (wrap_loop width (Some 1) ph (S f) chunks []) = concat chunks.
Proof.
  intros Hw Hne Hhd Hlast Hfit.
  destruct (decide (chunks = [])) as [->|Hchunks]; [done|].
  rewrite wrap_loop_first by done.
  destruct (round_state chunks) as (cl & ch & -> & Hcat & Hlen & Hbot & Hch);
    [done..|].
  destruct Hch as [[-> ->]|[Hbig _]]; [|lia].
  destruct (reverse chunks) as [|lastc before] eqn:Hrev.
  { apply (f_equal reverse) in Hrev. by rewrite reverse_involutive in Hrev. }
  assert (chunks = reverse before ++ [lastc]) as Hsplit.
  { apply (f_equal reverse) in Hrev.
    by rewrite reverse_involutive, reverse_cons in Hrev. }
  assert (blank lastc = false) as Hblank.
  { rewrite Hsplit in Hne. apply Forall_app in Hne as [_ Hne].
    apply Forall_cons in Hne as [Hne _].
    apply blank_false_last; [done|].
    rewrite Hsplit, concat_app in Hlast. cbn [concat] in Hlast.
    rewrite app_nil_r in Hlast. by apply last_nospace_app_r in Hlast. }
  cbn [drop_blank_end]. rewrite Hblank.
  unfold line_is_kept.
  replace (sum_len (lastc :: before) <=? width) with true
    by (symmetry; apply Nat.leb_le; lia).
  cbn [length Nat.add Nat.ltb Nat.leb orb andb app].
  rewrite wrap_loop_nil. cbn [join].
  rewrite <- Hrev. by rewrite reverse_involutive.
Qed.

(** The text does not fit: the line is the placeholder alone, or a proper
    start of the text followed by the placeholder, within the width. *)
Lemma wrap_loop_cuts f chunks :
  1 ≤ width →
  Forall (fun c => c ≠ []) chunks →
  hd_nospace (concat chunks) → last_nospace (concat chunks) →
  width < sum_len chunks →
  ∃ line,
    wrap_loop width (Some 1) ph (S f) chunks [] = [line]
    ∧ ((line = lstrip ph
        ∧ ∀ x l, chunks = x :: l → width < length x + length ph)
       ∨ ∃ pre, line = pre ++ ph ∧ pre ≠ []
                ∧ pre `prefix_of` concat chunks
                ∧ length line ≤ width).
Proof.
  intros Hw Hne Hhd Hlast Hbig.
  destruct (decide (chunks = [])) as [->|Hchunks]; [cbn in Hbig; lia|].
  rewrite wrap_loop_first by done.
  destruct (round_state chunks) as (cl & ch & -> & Hcat & Hlen & Hbot & Hch);
    [done..|].
  destruct Hch as [[-> ->]|[_ (c1 & rest1 & -> & Hc1)]].
  { rewrite sum_len_reverse in Hlen. lia. }
  destruct Hbot as (up & bottom & Hup & Hblank & Hbottom).
  destruct (drop_blank_end_spec cl up bottom Hup Hblank)
    as (dropped & cl' & up' & -> & Hcl & Hcl' & _).
  destruct cl' as [|top cl'']; [by destruct up'|].
  assert (line_is_kept width (Some 1) (c1 :: rest1) (sum_len (top :: cl'')) []
          = false) as ->.
  { unfold line_is_kept. cbn [length Nat.add Nat.ltb Nat.leb orb].
    destruct rest1; [by rewrite Hc1|done]. }
  unfold last_line.
  pose proof (put_placeholder_spec (top :: cl'')) as Hput.
  destruct (put_placeholder width ph (top :: cl'') (sum_len (top :: cl'')))
    as [out|] eqn:Hsome.
  - destruct Hput as (dropped2 & kept & Hkept & -> & (c & rest & -> & Hcb) & Hfit).
    eexists. split; [reflexivity|]. right.
    exists (concat (reverse (c :: rest))).
    split; [|split; [|split]].
    + rewrite (reverse_cons _ ph), concat_app. cbn [concat].
      by rewrite app_nil_r.
    + rewrite reverse_cons, concat_app. cbn [concat]. rewrite app_nil_r.
      destruct c; [done|]. by destruct (concat (reverse rest)).
    + rewrite <- Hcat, Hcl, Hkept, !reverse_app, !concat_app, <- !app_assoc.
      by apply prefix_app_r.
    + rewrite (reverse_cons _ ph), concat_app. cbn [concat].
      rewrite app_nil_r, length_app, sum_len_concat, sum_len_reverse. lia.
  - eexists. split; [reflexivity|]. left. split; [done|].
    intros x l Hx. specialize (Hbottom x l Hx).
    destruct (decide (length bottom + length ph ≤ width)) as [Hfit|]; [|lia].
    exfalso. rewrite Hcl' in Hsome.
    by eapply put_placeholder_some.
Qed.

End WrapFacts.

(** ** [textwrap.shorten]: the two cases *)

Section ShortenFacts.

Import Textwrap.

Variable uni_isalnum uni_isdecimal : N -> bool.

Lemma tidy_prefix a b : a `prefix_of` b → tidy b → tidy a.
Proof.
  intros [k ->]. unfold tidy. rewrite Forall_app. tauto.
Qed.

Lemma lstrip_suffix s : ∃ k, s = k ++ lstrip s.
Proof.
  induction s as [|c s [k IH]]; [by exists []|].
  cbn [lstrip]. destruct (isspace c); [|by exists []].
  exists (c :: k). cbn [app]. by f_equal.
Qed.

Lemma tidy_lstrip s : tidy s → tidy (lstrip s).
Proof.
  destruct (lstrip_suffix s) as [k Hk]. intros H. rewrite Hk in H.
  unfold tidy in *. rewrite Forall_app in H. tauto.
Qed.

Lemma wrap_chunks_ok width ph chunks :
  1 ≤ width → length (lstrip ph) ≤ width →
  wrap_chunks width (Some 1) ph chunks
  = Ok (wrap_loop width (Some 1) ph (S (sum_len chunks)) chunks []).
Proof.
  intros Hw Hph. unfold wrap_chunks.
  replace (width <=? 0) with false by (symmetry; apply Nat.leb_gt; lia).
  replace (width <? length (lstrip ph)) with false
    by (symmetry; apply Nat.ltb_ge; lia).
  done.
Qed.

(** [shorten] never raises when the placeholder fits the width; if the
    collapsed text fits it is the result. *)
Lemma shorten_fits text width ph :
  1 ≤ width → length (lstrip ph) ≤ width →
  length (collapse text) ≤ width →
  shorten uni_isalnum uni_isdecimal text width ph = Ok (collapse text).
Proof.
  intros Hw Hph Hfit. unfold shorten, fill.
  rewrite munge_tidy by apply collapse_tidy.
  rewrite wrap_chunks_ok by done.
  cbn [mbind Result_bind mret Result_ret]. f_equal.
  set (chunks := wordsep_split uni_isalnum uni_isdecimal (collapse text)).
  assert (Hcat : concat chunks = collapse text) by apply wordsep_split_concat.
  transitivity (concat chunks); [|done]. apply wrap_loop_fits.
  - done.
  - apply wordsep_split_nonempty.
  - rewrite Hcat. apply collapse_hd.
  - rewrite Hcat. apply collapse_last.
  - by rewrite <- sum_len_concat, Hcat.
Qed.

(** Otherwise the result is within the width and ends with the
    placeholder, which follows a proper start of the collapsed text or
    stands alone, stripped. *)
Lemma shorten_cuts text width ph :
  1 ≤ width → length (lstrip ph) ≤ width →
  width < length (collapse text) →
  ∃ line,
    shorten uni_isalnum uni_isdecimal text width ph = Ok line
    ∧ length line ≤ width
    ∧ ((line = lstrip ph
        ∧ ∀ x l, wordsep_split uni_isalnum uni_isdecimal (collapse text) = x :: l →
                 width < length x + length ph)
       ∨ ∃ pre, line = pre ++ ph ∧ pre ≠ [] ∧ pre `prefix_of` collapse text).
Proof.
  intros Hw Hph Hbig. unfold shorten, fill.
  rewrite munge_tidy by apply collapse_tidy.
  rewrite wrap_chunks_ok by done.
  set (chunks := wordsep_split uni_isalnum uni_isdecimal (collapse text)).
  assert (Hcat : concat chunks = collapse text) by apply wordsep_split_concat.
  destruct (wrap_loop_cuts width ph (sum_len chunks) chunks)
    as (line & Hline & Hshape).
  - done.
  - apply wordsep_split_nonempty.
  - rewrite Hcat. apply collapse_hd.
  - rewrite Hcat. apply collapse_last.
  - by rewrite <- sum_len_concat, Hcat.
  - exists line. cbn [mbind Result_bind mret Result_ret]. rewrite Hline.
    split; [done|]. rewrite Hcat in Hshape.
    destruct Hshape as [[-> Hx]|(pre & -> & Hpre & Hpref & Hlen)].
    + split; [done | by left].
    + split; [done|]. right. by exists pre.
Qed.

(** In both cases the result has single spaces as its only white space,
    if the placeholder has. *)
Lemma shorten_tidy text width ph line :
  1 ≤ width → length (lstrip ph) ≤ width → tidy ph →
  shorten uni_isalnum uni_isdecimal text width ph = Ok line → tidy line.
Proof.
  intros Hw Hph Htidy Hline.
  destruct (decide (length (collapse text) ≤ width)) as [Hfit|Hbig].
  - rewrite shorten_fits in Hline by done.
    apply (inj Ok) in Hline. subst line. apply collapse_tidy.
  - destruct (shorten_cuts text width ph) as (line' & Hl & _ & Hshape);
      [done | done | lia |].
    rewrite Hl in Hline. apply (inj Ok) in Hline. subst line'.
    destruct Hshape as [[-> _]|(pre & -> & _ & Hpref)].
    + by apply tidy_lstrip.
    + apply tidy_app; [|done]. eapply tidy_prefix; [done|]. apply collapse_tidy.
Qed.

End ShortenFacts.

(** ** Collapsing is joining the words with single spaces *)

Section SplitFacts.

Import Textwrap.

Lemma split_words_spaces k : ∀ cur,
  Forall (fun c => isspace c = true) k →
  split_words cur k = split_words cur [].
Proof.
  induction k as [|c k IH]; intros cur Hk; [done|].
  apply Forall_cons in Hk as [Hc Hk]. cbn [split_words]. rewrite Hc.
  destruct cur; rewrite IH by done; done.
Qed.

Lemma split_words_app_spaces a k : ∀ cur,
  Forall (fun c => isspace c = true) k →
  split_words cur (a ++ k) = split_words cur a.
Proof.
  induction a as [|c a IH]; intros cur Hk.
  - by apply split_words_spaces.
  - cbn [app split_words]. destruct (isspace c), cur; by rewrite IH.
Qed.

Lemma split_words_app_space a w b : ∀ cur,
  isspace w = true →
  split_words cur (a ++ w :: b) = split_words cur a ++ split_words [] b.
Proof.
  induction a as [|c a IH]; intros cur Hw.
  - cbn [app split_words]. rewrite Hw. by destruct cur.
  - cbn [app split_words]. destruct (isspace c), cur; by rewrite IH.
Qed.

Lemma lstrip_spaces s :
  ∃ k, s = k ++ lstrip s ∧ Forall (fun c => isspace c = true) k.
Proof.
  induction s as [|c s (k & IH & Hk)]; [by exists []|].
  cbn [lstrip]. destruct (isspace c) eqn:Hc; [|by exists []].
  exists (c :: k). split; [cbn [app]; by f_equal | by constructor].
Qed.

Lemma split_lstrip s : split (lstrip s) = split s.
Proof.
  unfold split. induction s as [|c s IH]; [done|].
  cbn [lstrip split_words].
  destruct (isspace c) eqn:Hc; [done|].
  cbn [split_words]. by rewrite Hc.
Qed.

Lemma split_rstrip s : split (rstrip s) = split s.
Proof.
  unfold rstrip.
  destruct (lstrip_spaces (reverse s)) as (k & Hk & Hsp).
  apply (f_equal reverse) in Hk.
  rewrite reverse_involutive, reverse_app in Hk.
  rewrite Hk at 2. unfold split.
  rewrite split_words_app_spaces; [done|]. by apply Forall_reverse.
Qed.

Lemma split_strip s : split (strip s) = split s.
Proof. unfold strip. by rewrite split_rstrip, split_lstrip. Qed.

(** [' '.join(text.strip().split())] is [' '.join(text.split())]. *)
Lemma collapse_join text : collapse text = join [SPACE] (split text).
Proof. unfold collapse. by rewrite split_strip. Qed.

(** A blank line between two texts leaves no trace among the words. *)
Lemma split_blank_line a b : split (a ++ nl ++ nl ++ b) = split a ++ split b.
Proof.
  unfold split, nl. cbn [app].
  rewrite split_words_app_space by done.
  cbn [split_words]. done.
Qed.

End SplitFacts.

(** ** The text handed to the speech service *)

Section ChapterTextFacts.

Import Textwrap.

Variable E : Env.

Lemma width_300_ok : 1 ≤ 300 ∧ length (lstrip ELLIPSIS) ≤ 300.
Proof. cbn. lia. Qed.

Lemma width_8000_ok : 1 ≤ 8000 ∧ length (lstrip END_MARKER) ≤ 8000.
Proof. split; apply Nat.leb_le; vm_compute; reflexivity. Qed.

Lemma tidy_ELLIPSIS : tidy ELLIPSIS.
Proof. constructor; [by right | constructor]. Qed.

Lemma tidy_END_MARKER : tidy END_MARKER.
Proof.
  unfold tidy. apply Forall_forall. intros c Hc.
  destruct (decide (c = SPACE)) as [|Hne]; [by left|right].
  vm_compute in Hc.
  repeat (apply elem_of_cons in Hc as [->|Hc]; [by vm_compute|]).
  by apply elem_of_nil in Hc.
Qed.

Lemma make_chapter_intro_spec i title blurb :
  ∃ intro,
    make_chapter_intro E i title blurb = Ok intro
    ∧ if bool_decide (blurb = [] ∨ blurb = title)
      then intro = chapter_head i title
      else ∃ short,
             intro = chapter_head i title ++ lit " " ++ short
             ∧ length short ≤ 300 ∧ tidy short
             ∧ (length (collapse blurb) ≤ 300 → short = collapse blurb)
             ∧ (300 < length (collapse blurb) →
                ∃ pre, short = pre ++ ELLIPSIS
                       ∧ pre `prefix_of` collapse blurb).
Proof.
  destruct width_300_ok as [Hw Hph].
  unfold make_chapter_intro, str_eqb.
  fold (chapter_head i title).
  destruct (decide (blurb = [])) as [->|Hne].
  { exists (chapter_head i title). by rewrite !bool_decide_eq_true_2 by auto. }
  destruct (decide (blurb = title)) as [->|Hneq].
  { exists (chapter_head i title).
    rewrite (bool_decide_eq_true_2 (title = title)) by done.
    rewrite (bool_decide_eq_true_2 (_ ∨ _)) by auto.
    by rewrite andb_false_r. }
  rewrite (bool_decide_eq_false_2 (blurb = [])) by done.
  rewrite (bool_decide_eq_false_2 (blurb = title)) by done.
  rewrite (bool_decide_eq_false_2 (_ ∨ _)) by tauto.
  cbn [negb andb]. unfold textwrap_shorten.
  destruct (decide (length (collapse blurb) ≤ 300)) as [Hfit|Hbig].
  - rewrite shorten_fits by done. eexists. split; [reflexivity|].
    exists (collapse blurb). repeat split; try done; [apply collapse_tidy | lia].
  - destruct (shorten_cuts (uni_isalnum E) (uni_isdecimal E) blurb 300 ELLIPSIS)
      as (line & Hline & Hlen & Hshape); [done | done | lia |].
    rewrite Hline. eexists. split; [reflexivity|].
    exists line. split; [done|]. split; [done|]. split; [|split; [lia|]].
    + eapply shorten_tidy; [exact Hw | exact Hph | apply tidy_ELLIPSIS | done].
    + intros _. destruct Hshape as [[-> _]|(pre & -> & _ & Hpre)].
      * exists []. split; [done|]. apply prefix_nil.
      * by exists pre.
Qed.

(** The collapsed chapter text starts with the word Chapter, which is the
    first chunk of the wrapper. *)
Lemma collapse_Chapter rest :
  ∃ tail, collapse (lit "Chapter " ++ rest) = lit "Chapter" ++ tail
          ∧ (tail = [] ∨ ∃ t, tail = SPACE :: t).
Proof.
  rewrite collapse_join.
  change (lit "Chapter " ++ rest) with (lit "Chapter" ++ SPACE :: rest).
  unfold split. rewrite split_words_app_space by done.
  change (split_words [] (lit "Chapter")) with [lit "Chapter"].
  destruct (split_words [] rest) as [|w ws].
  - exists []. split; [done | by left].
  - exists (SPACE :: join [SPACE] (w :: ws)). split; [done|]. right. eauto.
Qed.

Lemma first_chunk_Chapter tail :
  tail = [] ∨ (∃ t, tail = SPACE :: t) →
  ∃ l, wordsep_split (uni_isalnum E) (uni_isdecimal E) (lit "Chapter" ++ tail)
       = lit "Chapter" :: l.
Proof.
  intros Htail. unfold wordsep_split.
  change (lit "Chapter" ++ tail)
    with (67 :: 104 :: 97 :: 112 :: 116 :: 101 :: 114 :: tail)%N.
  cbn [length split_chunks].
  assert (chunk_len (uni_isalnum E) (uni_isdecimal E) []
            67%N (104 :: 97 :: 112 :: 116 :: 101 :: 114 :: tail)%N = 7) as ->.
  { unfold chunk_len. destruct Htail as [->|[t ->]]; reflexivity. }
  cbn [take]. rewrite filter_cons_True by done. eauto.
Qed.

Lemma intro_starts_with_Chapter i title blurb intro :
  make_chapter_intro E i title blurb = Ok intro →
  ∃ r, intro = lit "Chapter " ++ r.
Proof.
  intros Hintro.
  destruct (make_chapter_intro_spec i title blurb) as (intro' & H' & Hshape).
  rewrite H' in Hintro. apply (inj Ok) in Hintro. subst intro'.
  destruct (bool_decide _).
  - subst intro. unfold chapter_head. eauto.
  - destruct Hshape as (short & -> & _). unfold chapter_head.
    rewrite <- !app_assoc. eauto.
Qed.

Lemma chapter_text_spec i article body_text intro :
  make_chapter_intro E i (art_title article) (art_blurb article) = Ok intro →
  ∃ text,
    chapter_text E i article body_text = Ok text
    ∧ length text ≤ 8000 ∧ tidy text
    ∧ let full := join [SPACE] (split intro ++ split body_text) in
      (length full ≤ 8000 → text = full)
      ∧ (8000 < length full →
         ∃ pre, text = pre ++ END_MARKER ∧ pre ≠ [] ∧ pre `prefix_of` full).
Proof.
  intros Hintro. destruct width_8000_ok as [Hw Hph].
  unfold chapter_text. rewrite Hintro.
  cbn [mbind Result_bind]. unfold textwrap_shorten.
  set (raw := intro ++ nl ++ nl ++ body_text).
  assert (Hfull : collapse raw = join [SPACE] (split intro ++ split body_text)).
  { unfold raw. by rewrite collapse_join, split_blank_line. }
  rewrite <- Hfull. cbn zeta.
  destruct (decide (length (collapse raw) ≤ 8000)) as [Hfit|Hbig].
  - rewrite shorten_fits by done. eexists. split; [reflexivity|].
    split; [done|]. split; [apply collapse_tidy|]. split; [done | lia].
  - destruct (shorten_cuts (uni_isalnum E) (uni_isdecimal E) raw 8000 END_MARKER)
      as (line & Hline & Hlen & Hshape); [done | done | lia |].
    rewrite Hline. exists line. split; [done|]. split; [done|]. split.
    { eapply shorten_tidy; [exact Hw | exact Hph | apply tidy_END_MARKER | done]. }
    split; [lia|]. intros _.
    destruct Hshape as [[_ Hfirst]|(pre & -> & Hpre & Hpref)]; [|by exists pre].
    exfalso.
    destruct (intro_starts_with_Chapter _ _ _ _ Hintro) as [r Hr].
    destruct (collapse_Chapter (r ++ nl ++ nl ++ body_text))
      as (tail & Htail & Hshape).
    assert (collapse raw = lit "Chapter" ++ tail) as Hraw.
    { unfold raw. rewrite Hr, <- app_assoc. exact Htail. }
    destruct (first_chunk_Chapter tail Hshape) as [l Hl].
    rewrite Hraw in Hfirst. specialize (Hfirst _ _ Hl).
    revert Hfirst. apply Nat.nlt_ge, Nat.leb_le. vm_compute. reflexivity.
Qed.

Lemma chapter_text_is_shortened_aux i article body_text :
  ∃ text, chapter_text E i article body_text = Ok text.
Proof.
  destruct (make_chapter_intro_spec i (art_title article) (art_blurb article))
    as (intro & Hintro & _).
  destruct (chapter_text_spec i article body_text intro Hintro) as (text & H & _).
  eauto.
Qed.

End ChapterTextFacts.

(** What the code hands to speech synthesis, for every article: the
    result of [textwrap.shorten] on the intro, a blank line and the
    extracted body, and [shorten] collapses white space before it cuts.
    The intro is "Chapter n. title." followed, when the blurb is non-empty
    and differs from the title, by a space and the blurb collapsed and cut
    to at most 300 characters with the ellipsis at its end when cut. The
    text handed over is never longer than 8000 characters and has single
    spaces as its only white space: the blank line and the line breaks of
    the body do not reach the synthesizer. It is the words of the intro
    and of the body joined by single spaces when that is within 8000
    characters, and otherwise a non-empty start of it followed by the end
    marker. *)
Lemma chapter_text_is_collapsed_and_cut
    (E : Env) (i : nat) (article : Article) (body_text : str) :
  ∃ intro text,
    make_chapter_intro E i (art_title article) (art_blurb article) = Ok intro
    ∧ chapter_text E i article body_text = Ok text
    ∧ (if bool_decide (art_blurb article = []
                       ∨ art_blurb article = art_title article)
       then intro = chapter_head i (art_title article)
       else ∃ short,
              intro = chapter_head i (art_title article) ++ lit " " ++ short
              ∧ length short ≤ 300 ∧ tidy short
              ∧ (length (Textwrap.collapse (art_blurb article)) ≤ 300 →
                 short = Textwrap.collapse (art_blurb article))
              ∧ (300 < length (Textwrap.collapse (art_blurb article)) →
                 ∃ pre, short = pre ++ ELLIPSIS
                        ∧ pre `prefix_of` Textwrap.collapse (art_blurb article)))
    ∧ length text ≤ 8000 ∧ tidy text
    ∧ let full := join [Textwrap.SPACE]
                    (split intro ++ split body_text) in
      (length full ≤ 8000 → text = full)
      ∧ (8000 < length full →
         ∃ pre, text = pre ++ END_MARKER ∧ pre ≠ [] ∧ pre `prefix_of` full).
Proof.
  destruct (make_chapter_intro_spec E i (art_title article) (art_blurb article))
    as (intro & Hintro & Hshape).
  destruct (chapter_text_spec E i article body_text intro Hintro)
    as (text & Htext & Hrest).
  exists intro, text. split; [done|]. split; [done|]. split; done.
Qed.

(** C10: the code at a failing input. The pipeline builds the intro, a
    blank line and the body, and then shortens the whole: for
    [sample_article] and [sample_body], well under 8000 characters, the
    text handed to the synthesizer is [sample_spoken], in which the blank
    line after the intro and the one inside the body have become single
    spaces; it is not the text the claim describes. *)
Theorem chapter_text_loses_blank_line :
  chapter_text sample_env 1 sample_article sample_body = Ok sample_spoken
  ∧ count 10%N (chapter_head 1 (art_title sample_article)
                ++ lit " " ++ art_blurb sample_article
                ++ nl ++ nl ++ sample_body) = 4
  ∧ count 10%N sample_spoken = 0
  ∧ ¬ chapter_text_as_claimed sample_env 1 sample_article sample_body
        sample_spoken.
Proof.
  split; [vm_compute; reflexivity|].
  split; [vm_compute; reflexivity|].
  split; [vm_compute; reflexivity|].
  intros (intro & Hintro & Hclaim).
  vm_compute in Hintro. apply (inj Ok) in Hintro. subst intro.
  match type of Hclaim with
  | ?P → _ =>
      assert (HP : P) by (apply Nat.leb_le; vm_compute; reflexivity);
      specialize (Hclaim HP)
  end.
  apply (f_equal (count 10%N)) in Hclaim.
  vm_compute in Hclaim. discriminate.
Qed.

(** ** The episode assembler *)

(** Unfolding of the monad's operations. *)
Ltac unfold_M :=
  cbv beta iota delta
    [mbind mret M_bind M_ret raise lift read_file write_file emit get_world].

Lemma from_mp3_decodes w p seg :
  decodes_to w p seg → from_mp3 p w = (Ok seg, w).
Proof. intros [tag H]. unfold from_mp3. unfold_M. by rewrite H. Qed.

Lemma from_mp3_undecodable w p :
  undecodable w p → ∃ e, from_mp3 p w = (Raise e, w).
Proof.
  intros H. unfold from_mp3. unfold_M.
  destruct (files w !! p) as [[| |a t|]|] eqn:Hp; eauto.
  by destruct (H a t).
Qed.

Lemma from_mp3_world w p r w' : from_mp3 p w = (r, w') → w' = w.
Proof.
  unfold from_mp3. unfold_M.
  destruct (files w !! p) as [[| |a t|]|]; by intros [= _ <-].
Qed.

Lemma chapters_with_gaps_cons2 gap seg seg2 segs :
  chapters_with_gaps gap (seg :: seg2 :: segs)
  = seg ++ gap ++ chapters_with_gaps gap (seg2 :: segs).
Proof. done. Qed.

Lemma assemble_loop_world paths : ∀ n i combined w r w',
  assemble_loop n i paths combined w = (r, w') → w' = w.
Proof.
  induction paths as [|p paths IH]; intros n i combined w r w'.
  - by intros [= _ <-].
  - cbn [assemble_loop]. unfold mbind, M_bind at 1.
    destruct (from_mp3 p w) as [[seg|e] w1] eqn:Hp.
    + apply from_mp3_world in Hp as ->. apply IH.
    + apply from_mp3_world in Hp as ->. by intros [= _ <-].
Qed.

(** The loop makes the chapters with gaps, after what was combined. *)
Lemma assemble_loop_ok paths : ∀ segs n i combined w,
  Forall2 (decodes_to w) paths segs →
  n = (i + Z.of_nat (length paths))%Z →
  assemble_loop n i paths combined w
  = (Ok (combined
         ++ chapters_with_gaps
              (AudioSegment_silent SILENCE_BETWEEN_CHAPTERS_MS) segs), w).
Proof.
  induction paths as [|p paths IH]; intros segs n i combined w Hdec Hn.
  - apply Forall2_nil_inv_l in Hdec as ->. cbn. by rewrite app_nil_r.
  - apply Forall2_cons_inv_l in Hdec as (seg & segs' & Hp & Hrest & ->).
    cbn [assemble_loop]. unfold mbind, M_bind at 1.
    rewrite (from_mp3_decodes _ _ _ Hp).
    destruct paths as [|p2 paths'].
    + apply Forall2_nil_inv_l in Hrest as ->.
      replace (i <? n - 1)%Z with false
        by (symmetry; apply Z.ltb_ge; cbn [length] in Hn; lia).
      cbn [assemble_loop chapters_with_gaps]. done.
    + replace (i <? n - 1)%Z with true
        by (symmetry; apply Z.ltb_lt; cbn [length] in Hn; lia).
      rewrite (IH segs' n (i + 1)%Z); [|done|cbn [length] in *; lia].
      destruct segs' as [|seg2 segs'']; [by apply Forall2_nil_inv_r in Hrest|].
      rewrite chapters_with_gaps_cons2. by rewrite <- !app_assoc.
Qed.

(** A chapter that does not decode stops the loop with an exception. *)
Lemma assemble_loop_fails paths : ∀ n i combined w p,
  p ∈ paths → undecodable w p →
  ∃ e, assemble_loop n i paths combined w = (Raise e, w).
Proof.
  induction paths as [|q paths IH]; intros n i combined w p Hin Hbad.
  - by apply elem_of_nil in Hin.
  - cbn [assemble_loop]. unfold mbind, M_bind at 1.
    destruct (from_mp3 q w) as [[seg|e] w1] eqn:Hq.
    + pose proof (from_mp3_world _ _ _ _ Hq) as ->.
      apply elem_of_cons in Hin as [->|Hin]; [|by eapply IH].
      destruct (from_mp3_undecodable w q Hbad) as [e He]. congruence.
    + pose proof (from_mp3_world _ _ _ _ Hq) as ->. eauto.
Qed.

Lemma chapters_with_gaps_length gap segs :
  segs ≠ [] →
  length (chapters_with_gaps gap segs)
  = total_ms segs + length gap * (length segs - 1).
Proof.
  induction segs as [|seg segs IH]; [done|]. intros _.
  destruct segs as [|seg2 segs].
  - cbn. lia.
  - rewrite chapters_with_gaps_cons2, !length_app, IH by done.
    cbn [total_ms foldr length]. lia.
Qed.

Lemma chapters_with_gaps_prefix gap seg segs :
  seg `prefix_of` chapters_with_gaps gap (seg :: segs).
Proof.
  destruct segs; [done|].
  rewrite chapters_with_gaps_cons2. by apply prefix_app_r.
Qed.

Lemma chapters_with_gaps_suffix gap segs seg :
  seg `suffix_of` chapters_with_gaps gap (segs ++ [seg]).
Proof.
  induction segs as [|s segs IH]; [done|].
  cbn [app].
  destruct (segs ++ [seg]) as [|x l] eqn:Hl; [by destruct segs|].
  rewrite chapters_with_gaps_cons2, app_assoc. by apply suffix_app_r.
Qed.

Lemma assemble_episode_ok paths segs out w :
  Forall2 (decodes_to w) paths segs →
  dir_exists w (removelast out) →
  assemble_episode paths out w
  = (Ok tt,
     exported w paths out
       (chapters_with_gaps
          (AudioSegment_silent SILENCE_BETWEEN_CHAPTERS_MS) segs)).
Proof.
  intros Hdec Hdir. unfold assemble_episode, emit.
  unfold mbind, M_bind.
  rewrite (assemble_loop_ok paths segs); [ | | lia].
  - unfold export. cbn [dirs]. by rewrite decide_True.
  - eapply Forall2_impl; [exact Hdec|]. intros p seg [tag H]. by exists tag.
Qed.

(** Without the directory of the output file the chapters are decoded
    and the export raises; no file is written. *)
Lemma assemble_episode_no_dir paths segs out w :
  Forall2 (decodes_to w) paths segs →
  ¬ dir_exists w (removelast out) →
  assemble_episode paths out w
  = (Raise (FileNotFoundError out),
     mkWorld (files w) (dirs w) (trace w ++ [EvAssemble paths out])).
Proof.
  intros Hdec Hdir. unfold assemble_episode, emit.
  unfold mbind, M_bind.
  rewrite (assemble_loop_ok paths segs); [ | | lia].
  - unfold export. cbn [dirs]. by rewrite decide_False.
  - eapply Forall2_impl; [exact Hdec|]. intros p seg [tag H]. by exists tag.
Qed.

Lemma assemble_episode_fails paths out w p :
  p ∈ paths → undecodable w p →
  ∃ e, assemble_episode paths out w
       = (Raise e, mkWorld (files w) (dirs w)
                           (trace w ++ [EvAssemble paths out])).
Proof.
  intros Hin Hbad. unfold assemble_episode, emit.
  unfold mbind, M_bind.
  edestruct (assemble_loop_fails paths) as [e ->]; [exact Hin| |by eauto].
  intros seg tag. apply Hbad.
Qed.

(** C5. For a non-empty list of K chapter files that decode, and an
    output file whose directory exists, the assembler exports the chapters
    in list order with the 2000 ms silence strictly between consecutive
    chapters: the file written at the output path holds
    [chapters_with_gaps silence chapters], whose length is that of the
    chapters plus 2000 ms times K-1, which starts with the first chapter
    and ends with the last one, and which for K = 1 is the chapter itself.
    (When the directory of the output file is missing, the chapters are
    decoded and the export raises [FileNotFoundError]: there is no
    episode.) *)
Theorem assemble_episode_silence
    (paths : list Path) (segs : list AudioSegment) (out : Path) (w : World) :
  paths ≠ [] →
  Forall2 (decodes_to w) paths segs →
  dir_exists w (removelast out) →
  let gap := AudioSegment_silent SILENCE_BETWEEN_CHAPTERS_MS in
  let combined := chapters_with_gaps gap segs in
  assemble_episode paths out w = (Ok tt, exported w paths out combined)
  ∧ files (exported w paths out combined) !! out
    = Some (Mp3 combined (stem (path_name out)))
  ∧ length gap = 2000
  ∧ length combined = total_ms segs + 2000 * (length paths - 1)
  ∧ (∀ seg, segs = [seg] → combined = seg)
  ∧ (∀ seg rest, segs = seg :: rest → seg `prefix_of` combined)
  ∧ (∀ rest seg, segs = rest ++ [seg] → seg `suffix_of` combined).
Proof.
  intros Hne Hdec Hdir gap combined.
  assert (Hgap : length gap = 2000) by (vm_compute; reflexivity).
  split; [by apply assemble_episode_ok|].
  split; [unfold exported; cbn [files]; apply lookup_insert_eq|].
  split; [done|].
  split; [|split; [|split]].
  - unfold combined. rewrite chapters_with_gaps_length, Hgap.
    + by rewrite (Forall2_length _ _ _ Hdec).
    + intros ->. apply Forall2_nil_inv_r in Hdec. done.
  - by intros seg ->.
  - intros seg rest ->. apply chapters_with_gaps_prefix.
  - intros rest seg ->. apply chapters_with_gaps_suffix.
Qed.

Lemma assemble_episode_silence_witness :
  three_chapters ≠ []
  ∧ Forall2 (decodes_to world_ready_to_assemble) three_chapters three_segments
  ∧ dir_exists world_ready_to_assemble (removelast sample_episode_path)
  ∧ assemble_episode three_chapters sample_episode_path world_ready_to_assemble
    = (Ok tt,
       exported world_ready_to_assemble three_chapters sample_episode_path
         ([5; 6; 7]%Z ++ repeat 0%Z 2000 ++ [8; 9]%Z ++ repeat 0%Z 2000
          ++ [1; 2; 3; 4]%Z)).
Proof.
  assert (Hne : three_chapters ≠ []) by done.
  assert (Hdec : Forall2 (decodes_to world_ready_to_assemble)
                   three_chapters three_segments).
  { repeat constructor; exists []; vm_compute; reflexivity. }
  assert (Hdir : dir_exists world_ready_to_assemble
                            (removelast sample_episode_path)).
  { right. refine (bool_decide_unpack _ _). vm_compute. exact I. }
  split; [exact Hne|]. split; [exact Hdec|]. split; [exact Hdir|].
  exact (proj1 (assemble_episode_silence three_chapters three_segments
                  sample_episode_path world_ready_to_assemble Hne Hdec Hdir)).
Defined.

(** ** The loop over the articles *)

Section LoopFacts.

Variable E : Env.

Lemma fetch_article_text_spec url w :
  fetch_article_text E url w
  = (Ok (extracted_text E url),
     mkWorld (files w) (dirs w) (trace w ++ [EvGet url])).
Proof.
  unfold fetch_article_text, extracted_text. unfold_M.
  destruct (session_get E url) as [html|]; [|done].
  destruct (trafilatura_extract E html) as [text|]; [|done].
  by destruct (negb (bool_decide (text = [])) && (MIN_TEXT_LENGTH <=? len text)%Z).
Qed.

Lemma chapter_text_ok i article body :
  ∃ text, chapter_text E i article body = Ok text.
Proof.
  destruct (chapter_text_is_shortened_aux E i article body) as (text & H).
  eauto.
Qed.

Lemma process_article_spec i article acc w :
  process_article E i article acc w
  = (Ok (if survives E (i, article)
         then (acc.1 ++ [chapter_path i], acc.2 ++ [art_title article])
         else acc),
     article_world E w (i, article)).
Proof.
  unfold process_article. unfold mbind at 1. unfold M_bind.
  rewrite fetch_article_text_spec.
  unfold article_world, survives, article_file, article_events, tts_outcome,
    spoken_text.
  cbn [fst snd].
  destruct (extracted_text E (art_url article)) as [body|].
  2:{ unfold_M. done. }
  destruct (bool_decide (body = [])).
  { unfold_M. done. }
  destruct (chapter_text_ok i article body) as [text Htext].
  rewrite Htext.
  unfold try_except, text_to_speech. unfold_M. cbn [files dirs trace].
  destruct (edge_tts_save E text TTS_VOICE TTS_RATE) as [data|[data|]];
    cbn [files dirs trace]; by rewrite <- app_assoc.
Qed.

Lemma enumerate_from_cons {A} i (x : A) l :
  enumerate_from i (x :: l) = (i, x) :: enumerate_from (S i) l.
Proof. done. Qed.

Lemma kept_chapters_cons i a rest :
  kept_chapters E i (a :: rest)
  = (if survives E (i, a) then [(i, a)] else []) ++ kept_chapters E (S i) rest.
Proof.
  unfold kept_chapters. rewrite enumerate_from_cons, filter_cons.
  destruct (survives E (i, a)) eqn:Hs.
  - rewrite decide_True by done. reflexivity.
  - rewrite decide_False by (cbn; tauto). reflexivity.
Qed.

Lemma process_articles_spec articles : ∀ i acc w,
  process_articles E i articles acc w
  = (Ok (acc.1 ++ map (fun ia => chapter_path ia.1) (kept_chapters E i articles),
         acc.2 ++ map (fun ia => art_title ia.2) (kept_chapters E i articles)),
     foldl (article_world E) w (enumerate_from i articles)).
Proof.
  induction articles as [|a rest IH]; intros i acc w.
  - cbn. rewrite !app_nil_r. by destruct acc.
  - cbn [process_articles]. unfold mbind at 1. unfold M_bind.
    rewrite process_article_spec, IH.
    rewrite kept_chapters_cons, enumerate_from_cons. cbn [foldl].
    f_equal. f_equal.
    destruct (survives E (i, a)); cbn [fst snd app map];
      by rewrite <- ?app_assoc.
Qed.

End LoopFacts.

(** ** The stages of a run *)

Section StageFacts.

Variable E : Env.

Lemma chapter_path_under i : under TMP_DIR (chapter_path i).
Proof. unfold under, chapter_path. by apply prefix_app_r. Qed.

Lemma not_under_tmp_docs name rest : ¬ under TMP_DIR (lit "docs" :: name :: rest).
Proof. intros [k Hk]. vm_compute in Hk. discriminate. Qed.

Lemma episode_path_not_under : ¬ under TMP_DIR (episode_path E).
Proof. apply not_under_tmp_docs. Qed.

Lemma state_file_not_under : ¬ under TMP_DIR STATE_FILE.
Proof. intros [k Hk]. vm_compute in Hk. discriminate. Qed.

Lemma rss_file_not_under : ¬ under TMP_DIR RSS_FILE.
Proof. apply not_under_tmp_docs. Qed.

Lemma article_world_dirs w ia : dirs (article_world E w ia) = dirs w.
Proof. done. Qed.

Lemma article_world_frame w ia p :
  ¬ under TMP_DIR p → files (article_world E w ia) !! p = files w !! p.
Proof.
  intros Hp. unfold article_world. cbn [files].
  destruct (article_file E ia); [|done].
  apply lookup_insert_ne. intros <-. apply Hp, chapter_path_under.
Qed.

Lemma articles_world_dirs l : ∀ w, dirs (foldl (article_world E) w l) = dirs w.
Proof. induction l as [|ia l IH]; intros w; [done|]. cbn [foldl]. by rewrite IH. Qed.

Lemma articles_world_frame l p : ∀ w,
  ¬ under TMP_DIR p → files (foldl (article_world E) w l) !! p = files w !! p.
Proof.
  induction l as [|ia l IH]; intros w Hp; [done|].
  cbn [foldl]. rewrite IH by done. by apply article_world_frame.
Qed.

Lemma articles_world_trace l : ∀ w,
  trace (foldl (article_world E) w l)
  = trace w ++ concat (map (article_events E) l).
Proof.
  induction l as [|ia l IH]; intros w.
  - cbn. by rewrite app_nil_r.
  - cbn [foldl map concat]. rewrite IH. cbn [article_world trace].
    by rewrite <- app_assoc.
Qed.

Lemma processed_dirs post w :
  dirs (processed E post w) = dirs (started w) ∪ {[ TMP_DIR ]}.
Proof. unfold processed. by rewrite articles_world_dirs. Qed.

Lemma processed_frame post w p :
  ¬ under TMP_DIR p → files (processed E post w) !! p = files w !! p.
Proof. intros Hp. unfold processed. by rewrite articles_world_frame. Qed.

Lemma processed_trace post w :
  trace (processed E post w)
  = trace w
    ++ concat (map (article_events E) (enumerate_from 1 (post_articles post))).
Proof. unfold processed. by rewrite articles_world_trace. Qed.

Lemma tmp_in_processed post w : TMP_DIR ∈ dirs (processed E post w).
Proof. rewrite processed_dirs. set_solver. Qed.

Lemma audio_dir_in_processed post w :
  dir_exists (processed E post w) (removelast (episode_path E)).
Proof.
  right. rewrite processed_dirs. unfold started. cbn [dirs].
  apply elem_of_union. left. apply elem_of_union. right.
  apply elem_of_list_to_set. right. left.
Qed.

Lemma rmtree_tmp w :
  TMP_DIR ∈ dirs w → rmtree TMP_DIR w = (Ok tt, without_tmp w).
Proof. intros H. unfold rmtree. by rewrite decide_True. Qed.

Lemma load_state_spec w : load_state w = (loaded_state w, w).
Proof.
  unfold load_state, loaded_state. unfold_M.
  by destruct (files w !! STATE_FILE) as [[| | |]|].
Qed.

Lemma decodable_or_not w paths :
  (∃ segs, Forall2 (decodes_to w) paths segs)
  ∨ (∃ p, p ∈ paths ∧ undecodable w p).
Proof.
  induction paths as [|p paths [[segs IH]|(q & Hq & Hbad)]].
  - left. exists []. constructor.
  - destruct (files w !! p) as [[| |a t|]|] eqn:Hp.
    3:{ left. exists (a :: segs). constructor; [by exists t | done]. }
    all: right; exists p; split; [by left|]; intros a' t'; by rewrite Hp.
  - right. exists q. split; [by right | done].
Qed.

End StageFacts.

(** ** Every run ends in one of the outcomes *)

Lemma kept_paths_nil E post :
  kept_paths E post = [] ↔ kept_chapters E 1 (post_articles post) = [].
Proof. unfold kept_paths. split; [apply map_eq_nil | by intros ->]. Qed.

Ltac outcome_reached :=
  let Heq := fresh "Heq" in
  intros Heq; apply pair_equal_spec in Heq as [<- <-].

Lemma run_pipeline_outcome (E : Env) (w : World) r w' :
  run_pipeline E w = (r, w') → Outcome E w r w'.
Proof.
  unfold run_pipeline. unfold mbind at 1. unfold M_bind.
  change (mkdir_parents AUDIO_DIR w) with (Ok (), started w).
  cbv beta iota. unfold mbind at 1. unfold M_bind. unfold lift at 1.
  destruct (fetch_links_post E) as [[post|]|e] eqn:Hfetch.
  2:{ outcome_reached. by apply SourceNotFound. }
  2:{ outcome_reached. by apply SourceError. }
  unfold mbind at 1. unfold M_bind. rewrite load_state_spec.
  change (loaded_state (started w)) with (loaded_state w).
  destruct (loaded_state w) as [st|e] eqn:Hload.
  2:{ outcome_reached. by eapply StateUnreadable. }
  destruct (has_guid (episode_id E) st) eqn:Hguid.
  { outcome_reached. by eapply Skipped. }
  unfold mbind at 1. unfold M_bind.
  change (mkdir_exist_ok TMP_DIR (started w))
    with (Ok (), mkWorld (files w) (dirs (started w) ∪ {[ TMP_DIR ]}) (trace w)).
  cbv beta iota. unfold mbind at 1. unfold M_bind.
  rewrite process_articles_spec. cbn [fst snd app].
  fold (processed E post w). fold (kept_paths E post) (kept_titles E post).
  destruct (kept_paths E post) as [|p1 ps] eqn:Hkept.
  { rewrite rmtree_tmp by apply tmp_in_processed. outcome_reached.
    eapply NoChaptersAbort; [done..|]. by apply kept_paths_nil. }
  rewrite <- Hkept.
  assert (Hne : kept_paths E post ≠ []) by (by rewrite Hkept).
  clear Hkept p1 ps.
  unfold mbind at 1. unfold M_bind.
  fold (episode_filename E). fold (episode_path E).
  destruct (decodable_or_not (processed E post w) (kept_paths E post))
    as [[segs Hdec]|(p & Hp & Hbad)].
  2:{ destruct (assemble_episode_fails (kept_paths E post) (episode_path E)
                  (processed E post w) p Hp Hbad) as [e ->].
      outcome_reached. by eapply AssemblyFailure. }
  rewrite (assemble_episode_ok _ segs) by (done || apply audio_dir_in_processed).
  set (combined := chapters_with_gaps _ segs).
  unfold mbind at 1. unfold M_bind.
  rewrite rmtree_tmp by (cbn [exported dirs]; apply tmp_in_processed).
  set (w5 := without_tmp _).
  assert (Hfile : files w5 !! episode_path E
                  = Some (Mp3 combined (stem (episode_filename E)))).
  { unfold w5, without_tmp, exported. cbn [files].
    apply map_lookup_filter_Some. split; [apply lookup_insert_eq|].
    apply episode_path_not_under. }
  unfold mbind at 1. unfold M_bind. unfold read_file at 1. rewrite Hfile.
  unfold mbind at 1. unfold M_bind.
  rewrite (from_mp3_decodes w5 (episode_path E) combined) by (by eexists).
  unfold mbind at 1. unfold M_bind.
  unfold save_state, write_file at 1.
  unfold mbind at 1. unfold M_bind. unfold mkdir_parents at 1. cbn [files dirs trace].
  unfold mbind at 1. unfold M_bind. unfold lift at 1.
  fold (episode_record_of E post combined).
  destruct (generate_rss _ _) as [doc|e] eqn:Hrss.
  - outcome_reached. by eapply Done.
  - outcome_reached. by eapply (FeedFailure E w post st segs).
Qed.

(** ** One episode per day *)

Lemma has_guid_false_count id st : has_guid id st = false → guid_count id st = 0.
Proof.
  unfold has_guid, guid_count. destruct st as [eps]. cbn [episodes].
  induction eps as [|ep eps IH]; [done|].
  cbn [existsb]. intros [Hep Hrest]%orb_false_iff.
  unfold str_eqb in Hep. apply bool_decide_eq_false in Hep.
  rewrite filter_cons, decide_False by done. by apply IH.
Qed.

Lemma has_guid_true_count id st : has_guid id st = true → 1 ≤ guid_count id st.
Proof.
  unfold has_guid, guid_count. destruct st as [eps]. cbn [episodes].
  induction eps as [|ep eps IH]; [done|].
  cbn [existsb]. rewrite filter_cons.
  destruct (decide (guid ep = id)) as [Heq|Hne]; [cbn; lia|].
  unfold str_eqb. rewrite bool_decide_eq_false_2 by done. apply IH.
Qed.

Lemma filter_drop_length {A} (P : A → Prop) `{∀ x, Decision (P x)} n (l : list A) :
  length (filter P (drop n l)) ≤ length (filter P l).
Proof.
  rewrite <- (take_drop n l) at 2. rewrite filter_app, length_app. lia.
Qed.

Lemma guid_count_append id st rec :
  guid_count id st = 0 → guid_count id (append_episode st rec) ≤ 1.
Proof.
  unfold guid_count, append_episode, last_n. cbn [episodes]. intros H0.
  etransitivity; [apply filter_drop_length|].
  rewrite filter_app, length_app, H0. rewrite filter_cons.
  destruct (decide (guid rec = id)); cbn; lia.
Qed.

(** A run leaves the state file as it was or appends today's episode to a
    state that did not have it. *)
Lemma run_pipeline_state_file E w r w' :
  run_pipeline E w = (r, w') →
  files w' !! STATE_FILE = files w !! STATE_FILE
  ∨ ∃ st rec,
      loaded_state w = Ok st ∧ has_guid (episode_id E) st = false
      ∧ guid rec = episode_id E
      ∧ files w' !! STATE_FILE = Some (JsonState (append_episode st rec)).
Proof.
  intros Hrun. apply run_pipeline_outcome in Hrun.
  destruct Hrun; try (by left).
  - left. unfold without_tmp. cbn [files].
    destruct (files w !! STATE_FILE) as [x|] eqn:Hx.
    + apply map_lookup_filter_Some. split; [|apply state_file_not_under].
      rewrite processed_frame; [done | apply state_file_not_under].
    + apply map_lookup_filter_None. left.
      rewrite processed_frame; [done | apply state_file_not_under].
  - left. cbn [files]. apply processed_frame, state_file_not_under.
  - right. eexists st, _. split; [done|]. split; [done|]. split; [|apply lookup_insert_eq].
    done.
  - right. eexists st, _. split; [done|]. split; [done|]. split.
    2:{ cbn [files]. rewrite lookup_insert_ne by done. apply lookup_insert_eq. }
    done.
Qed.

Lemma run_pipeline_at_most_one E w r w' :
  run_pipeline E w = (r, w') →
  episodes_with_guid (episode_id E) w ≤ 1 →
  episodes_with_guid (episode_id E) w' ≤ 1.
Proof.
  intros Hrun Hone. unfold episodes_with_guid in *.
  destruct (run_pipeline_state_file E w r w' Hrun)
    as [->|(st & rec & Hload & Hguid & Hrec & ->)]; [done|].
  by apply guid_count_append, has_guid_false_count.
Qed.

Lemma episode_id_same_day E1 E2 :
  utc_today E1 = utc_today E2 → episode_id E1 = episode_id E2.
Proof. unfold episode_id. by intros ->. Qed.

(** C1. When the loaded state already has today's guid
    ("nc-links-" followed by the UTC date), a run does nothing beyond the
    dedup check: it ends in the world it started in but for the audio
    directory it made sure exists; no file is written, no call leaves the
    process (no fetch of an article, no synthesis, no assembly), the state
    and the feed are as before, and it returns normally once the post was
    found. So of two runs on the same date the second finds the guid the
    first may have appended: a state with at most one episode of that guid
    has at most one after both. *)
Theorem dedup_run_is_noop (E : Env) (w : World) (st : FeedState) :
  loaded_state w = Ok st →
  has_guid (episode_id E) st = true →
  episode_id E = lit "nc-links-" ++ utc_today E
  ∧ (∃ r, run_pipeline E w = (r, started w)
          ∧ (∀ post, fetch_links_post E = Ok (Some post) → r = Ok tt))
  ∧ files (started w) = files w
  ∧ trace (started w) = trace w
  ∧ loaded_state (started w) = Ok st
  ∧ (∀ E1 E2 w0 r1 w1 r2 w2,
       utc_today E1 = utc_today E → utc_today E2 = utc_today E →
       run_pipeline E1 w0 = (r1, w1) → run_pipeline E2 w1 = (r2, w2) →
       episodes_with_guid (episode_id E) w0 ≤ 1 →
       episodes_with_guid (episode_id E) w2 ≤ 1).
Proof.
  intros Hload Hguid. split; [done|]. split; [|split; [done|split; [done|split]]].
  - destruct (run_pipeline E w) as [r w'] eqn:Hrun.
    pose proof (run_pipeline_outcome E w r w' Hrun) as Hout.
    destruct Hout; try congruence; eexists; (split; [reflexivity|]);
      intros; congruence.
  - done.
  - intros E1 E2 w0 r1 w1 r2 w2 H1 H2 Hrun1 Hrun2 Hone.
    rewrite <- (episode_id_same_day E2 E H2).
    eapply run_pipeline_at_most_one; [exact Hrun2|].
    rewrite (episode_id_same_day E2 E1) by congruence.
    eapply run_pipeline_at_most_one; [exact Hrun1|].
    by rewrite (episode_id_same_day E1 E H1).
Qed.

Lemma dedup_run_is_noop_witness :
  loaded_state world_done_today = Ok (mkFeedState [episode_of_today])
  ∧ has_guid (episode_id sample_env) (mkFeedState [episode_of_today]) = true
  ∧ run_pipeline sample_env world_done_today = (Ok tt, started world_done_today).
Proof.
  assert (H1 : loaded_state world_done_today = Ok (mkFeedState [episode_of_today]))
    by (vm_compute; reflexivity).
  assert (H2 : has_guid (episode_id sample_env) (mkFeedState [episode_of_today])
               = true) by (vm_compute; reflexivity).
  split; [exact H1|]. split; [exact H2|].
  destruct (dedup_run_is_noop sample_env world_done_today _ H1 H2)
    as (_ & (r & Hrun & Hr) & _).
  rewrite Hrun. f_equal. eapply Hr. reflexivity.
Defined.

(** ** A day without chapters *)

Lemma without_tmp_under w p :
  under TMP_DIR p →
  files (without_tmp w) !! p = None ∧ (p ∉ dirs (without_tmp w)).
Proof.
  intros Hp. unfold without_tmp. cbn [files dirs]. split.
  - apply map_lookup_filter_None. right. intros x _ Hn. by apply Hn.
  - intros [Hn _]%elem_of_filter. by apply Hn.
Qed.

Lemma without_tmp_frame w p :
  ¬ under TMP_DIR p → files (without_tmp w) !! p = files w !! p.
Proof.
  intros Hp. unfold without_tmp. cbn [files].
  destruct (files w !! p) as [x|] eqn:Hx.
  - by apply map_lookup_filter_Some.
  - apply map_lookup_filter_None. by left.
Qed.

Lemma article_events_no_assemble E l paths out :
  EvAssemble paths out ∉ concat (map (article_events E) l).
Proof.
  induction l as [|ia l IH]; [apply not_elem_of_nil|].
  cbn [map concat]. rewrite elem_of_app. intros [Hin|Hin]; [|done].
  unfold article_events in Hin.
  apply elem_of_cons in Hin as [?|Hin]; [done|].
  destruct (spoken_text E ia).
  - apply elem_of_cons in Hin as [?|Hin]; [done|]. by apply elem_of_nil in Hin.
  - by apply elem_of_nil in Hin.
Qed.

(** C6. If no article yields a chapter, the run removes the temporary
    chapter directory with all that is in it and returns without touching
    the feed state store or the feed renderer: outside the temporary
    directory every file is what it was, so the state file, the feed
    document and the public audio directory are unchanged, no episode is
    appended, and the assembler is not called. *)
Theorem zero_chapters_abort
    (E : Env) (w : World) (post : Post) (st : FeedState) :
  fetch_links_post E = Ok (Some post) →
  loaded_state w = Ok st →
  has_guid (episode_id E) st = false →
  kept_chapters E 1 (post_articles post) = [] →
  ∃ w',
    run_pipeline E w = (Ok tt, w')
    ∧ (TMP_DIR ∉ dirs w')
    ∧ (∀ p, under TMP_DIR p → files w' !! p = None ∧ (p ∉ dirs w'))
    ∧ (∀ p, ¬ under TMP_DIR p → files w' !! p = files w !! p)
    ∧ files w' !! STATE_FILE = files w !! STATE_FILE
    ∧ loaded_state w' = Ok st
    ∧ files w' !! RSS_FILE = files w !! RSS_FILE
    ∧ (∀ name, files w' !! (AUDIO_DIR ++ [name]) = files w !! (AUDIO_DIR ++ [name]))
    ∧ (∀ paths out, EvAssemble paths out ∈ trace w' →
                    EvAssemble paths out ∈ trace w).
Proof.
  intros Hfetch Hload Hguid Hkept.
  destruct (run_pipeline E w) as [r w'] eqn:Hrun.
  pose proof (run_pipeline_outcome E w r w' Hrun) as Hout.
  assert (Hnil : kept_paths E post = []) by by apply kept_paths_nil.
  destruct Hout as [ | | | |post' st' Hf' Hl' Hg' Hk'
                   |post' st' e p Hf' Hl' Hg' Hp
                   |post' st' segs e Hf' Hl' Hg' Hne
                   |post' st' segs doc Hf' Hl' Hg' Hne];
    try congruence;
    assert (post' = post) as -> by congruence.
  2:{ rewrite Hnil in Hp. by apply elem_of_nil in Hp. }
  assert (Hframe : ∀ p, ¬ under TMP_DIR p →
            files (without_tmp (processed E post w)) !! p = files w !! p).
  { intros p Hp. rewrite without_tmp_frame by done. by apply processed_frame. }
  eexists. split; [reflexivity|].
  split; [apply without_tmp_under; done|].
  split; [apply without_tmp_under|].
  split; [exact Hframe|].
  split; [apply Hframe, state_file_not_under|].
  split.
  { unfold loaded_state. rewrite Hframe by apply state_file_not_under.
    exact Hload. }
  split; [apply Hframe, rss_file_not_under|].
  split; [intros name; apply Hframe, not_under_tmp_docs|].
  intros paths out. cbn [without_tmp trace]. rewrite processed_trace.
  rewrite elem_of_app. intros [?|Hin]; [done|].
  by apply article_events_no_assemble in Hin.
Qed.

Lemma zero_chapters_abort_witness :
  fetch_links_post offline_env
  = Ok (Some (mkPost (lit "Links 2/21/2025")
                (lit "https://www.nakedcapitalism.com/2025/02/links.html")
                sample_articles))
  ∧ loaded_state world_with_history = Ok (mkFeedState [episode_of_today])
  ∧ has_guid (episode_id offline_env) (mkFeedState [episode_of_today]) = false
  ∧ kept_chapters offline_env 1 sample_articles = []
  ∧ ∃ w', run_pipeline offline_env world_with_history = (Ok tt, w')
          ∧ files w' !! chapter_path 7 = None
          ∧ files w' !! RSS_FILE = Some (Text (lit "<rss/>")).
Proof.
  assert (H1 : fetch_links_post offline_env
    = Ok (Some (mkPost (lit "Links 2/21/2025")
                  (lit "https://www.nakedcapitalism.com/2025/02/links.html")
                  sample_articles))) by reflexivity.
  assert (H2 : loaded_state world_with_history
               = Ok (mkFeedState [episode_of_today]))
    by (vm_compute; reflexivity).
  assert (H3 : has_guid (episode_id offline_env) (mkFeedState [episode_of_today])
               = false) by (vm_compute; reflexivity).
  assert (H4 : kept_chapters offline_env 1 sample_articles = [])
    by (vm_compute; reflexivity).
  split; [exact H1|]. split; [exact H2|]. split; [exact H3|]. split; [exact H4|].
  destruct (zero_chapters_abort offline_env world_with_history _ _ H1 H2 H3 H4)
    as (w' & Hrun & _ & Htmp & _ & _ & _ & Hrss & _).
  exists w'. split; [exact Hrun|]. split.
  - apply Htmp, chapter_path_under.
  - rewrite Hrss. vm_compute. reflexivity.
Defined.

(** ** The scraper returns at most 20 articles, with distinct addresses *)

Lemma collect_links_cap anchors : ∀ seen articles,
  length articles < MAX_ARTICLES →
  length (collect_links anchors seen articles) ≤ MAX_ARTICLES.
Proof.
  induction anchors as [|a rest IH]; intros seen articles Hlen;
    cbn [collect_links]; [lia|].
  destruct (existsb _ SKIPPED_LINKS); [by apply IH|].
  destruct (negb _); [by apply IH|].
  destruct (bool_decide (strip (a_href a) ∈ seen)); [by apply IH|].
  destruct (Nat.leb_spec MAX_ARTICLES
              (length (articles ++ [mkArticle (strip (a_href a))
                 (if bool_decide (a_text a = []) then strip (a_href a)
                  else a_text a)
                 (default [] (a_parent_text a))]))) as [Hfull|Hroom].
  - rewrite length_app. cbn [length]. lia.
  - by apply IH.
Qed.

Lemma collect_links_distinct anchors : ∀ (seen : gset str) articles,
  NoDup (map art_url articles) →
  (∀ a, a ∈ articles → art_url a ∈ seen) →
  NoDup (map art_url (collect_links anchors seen articles)).
Proof.
  induction anchors as [|a rest IH]; intros seen articles Hnd Hseen;
    cbn [collect_links]; [done|].
  destruct (existsb _ SKIPPED_LINKS); [by apply IH|].
  destruct (negb _); [by apply IH|].
  destruct (bool_decide (strip (a_href a) ∈ seen)) eqn:Hin; [by apply IH|].
  apply bool_decide_eq_false in Hin.
  assert (Hnd' : NoDup (map art_url
            (articles ++ [mkArticle (strip (a_href a))
               (if bool_decide (a_text a = []) then strip (a_href a) else a_text a)
               (default [] (a_parent_text a))]))).
  { rewrite map_app. cbn [map art_url]. apply NoDup_app. split; [done|].
    split; [|apply NoDup_singleton].
    intros url Hurl Hnew. apply list_elem_of_singleton in Hnew. subst url.
    apply list_elem_of_fmap in Hurl as (b & Hb & Hbin).
    apply Hin. rewrite Hb. by apply Hseen. }
  destruct (MAX_ARTICLES <=? _); [done|].
  apply IH; [done|].
  intros b Hb. apply elem_of_app in Hb as [Hb|Hb].
  - apply elem_of_union. left. by apply Hseen.
  - apply list_elem_of_singleton in Hb. subst b.
    apply elem_of_union. right. by apply elem_of_singleton.
Qed.

(** Whatever the page holds, [_parse_links_post] returns at most
    [MAX_ARTICLES] = 20 articles. *)
Lemma parse_links_post_cap url title anchors :
  length (post_articles (_parse_links_post url title anchors)) ≤ MAX_ARTICLES.
Proof. apply collect_links_cap. unfold MAX_ARTICLES. cbn [length]. lia. Qed.

(** No address occurs twice among the articles of a post: a link seen
    before is skipped. *)
Lemma parse_links_post_distinct url title anchors :
  NoDup (map art_url (post_articles (_parse_links_post url title anchors))).
Proof.
  apply collect_links_distinct; [constructor|].
  intros a Ha. by apply elem_of_nil in Ha.
Qed.

(** ** Skips never reorder the survivors *)

(** Chapter files are named after positions: [chapter_NN.mp3] with the
    position in decimal, padded to two digits. Different positions have
    different names. *)

Lemma lit_inj s1 s2 : lit s1 = lit s2 → s1 = s2.
Proof.
  unfold lit. intros H.
  assert (Hback : ∀ l, map ascii_of_N (map N_of_ascii l) = l).
  { induction l as [|a l IH]; [done|].
    cbn [map]. by rewrite ascii_N_embedding, IH. }
  apply (f_equal (map ascii_of_N)) in H. rewrite !Hback in H.
  rewrite <- (string_of_list_ascii_of_string s1),
          <- (string_of_list_ascii_of_string s2).
  by rewrite H.
Qed.

(** The decimal digits of a position, padded: the string of a digit
    sequence that is not empty and has the position as its value. *)
Lemma fmt_02d_digits (n : nat) :
  ∃ u, u ≠ Decimal.Nil
       ∧ fmt_02d (Z.of_nat n) = lit (NilZero.string_of_uint u)
       ∧ Z.of_uint u = Z.of_nat n.
Proof.
  assert (Hu : ∃ u, Z.to_int (Z.of_nat n) = Decimal.Pos u ∧ u ≠ Decimal.Nil).
  { destruct (Z.of_nat n) as [|p|p] eqn:Hn; [| |lia].
    - eexists. split; [reflexivity | discriminate].
    - eexists. split; [reflexivity | apply DecimalPos.Unsigned.to_uint_nonnil]. }
  destruct Hu as (u & Hu & Hnil).
  pose proof (DecimalZ.of_to (Z.of_nat n)) as Hval. rewrite Hu in Hval.
  unfold fmt_02d, str_of_Z. rewrite Hu.
  cbn [NilZero.string_of_int]. cbn [Z.of_int] in Hval.
  destruct (length _ <? 2).
  - exists (Decimal.D0 u). split; [discriminate|]. split; [|exact Hval].
    destruct u; [done|reflexivity..].
  - exists u. done.
Qed.

Lemma fmt_02d_inj (i j : nat) :
  fmt_02d (Z.of_nat i) = fmt_02d (Z.of_nat j) → i = j.
Proof.
  intros Heq.
  destruct (fmt_02d_digits i) as (u & Hu & Hi & Hvi).
  destruct (fmt_02d_digits j) as (v & Hv & Hj & Hvj).
  rewrite Hi, Hj in Heq. apply lit_inj in Heq.
  pose proof (NilZero.usu u Hu) as H1. pose proof (NilZero.usu v Hv) as H2.
  rewrite Heq in H1. assert (u = v) as -> by congruence. lia.
Qed.

Lemma chapter_path_inj (i j : nat) : chapter_path i = chapter_path j → i = j.
Proof.
  unfold chapter_path. intros Heq.
  apply app_inv_head in Heq. apply (inj (fun x => [x])) in Heq.
  apply app_inv_head in Heq. apply app_inv_tail in Heq.
  by apply fmt_02d_inj.
Qed.


Lemma enumerate_from_fst {A} s (l : list A) :
  (enumerate_from s l).*1 = seq s (length l).
Proof. unfold enumerate_from. apply fst_zip. by rewrite length_seq. Qed.

Lemma enumerate_from_snd {A} s (l : list A) : (enumerate_from s l).*2 = l.
Proof. unfold enumerate_from. apply snd_zip. by rewrite length_seq. Qed.

Lemma elem_of_enumerate_from {A} s (l : list A) i a :
  (i, a) ∈ enumerate_from s l ↔ s ≤ i ∧ l !! (i - s) = Some a.
Proof.
  unfold enumerate_from. rewrite list_elem_of_lookup. split.
  - intros [k Hk]. apply lookup_zip_Some in Hk as [Hi Ha].
    apply lookup_seq in Hi as [-> Hlt].
    split; [lia|]. by replace (s + k - s) with k by lia.
  - intros [Hle Ha]. exists (i - s). apply lookup_zip_Some. split; [|done].
    apply lookup_seq. split; [lia|]. by apply lookup_lt_Some in Ha.
Qed.

(** C8. For every ordered list of articles (of whatever length, so for
    the at most 20 the scraper returns), with whatever subset skipped by
    an extraction or a synthesis failure, the loop ends normally with the
    chapters of exactly the articles that survive, in the order of the
    articles: the kept (position, article) pairs are the enumeration from
    1 filtered by survival, their articles are a sublist of the article
    list and their positions a sublist of 1..N, each chapter file is named
    after the position of its article in the list ([chapter_path i]), and
    a failure leaves a gap in the numbers, not a renumbering. The file
    name carries the position: different positions give different chapter
    files, so the chapter paths of a run are pairwise distinct and the
    position of the article can be read back from each of them. *)
Theorem chapters_keep_article_order
    (E : Env) (articles : list Article) (w : World) :
  let kept := kept_chapters E 1 articles in
  process_articles E 1 articles ([], []) w
  = (Ok (map (fun ia => chapter_path ia.1) kept,
         map (fun ia => art_title ia.2) kept),
     foldl (article_world E) w (enumerate_from 1 articles))
  ∧ kept = filter (fun ia => Is_true (survives E ia)) (enumerate_from 1 articles)
  ∧ kept.*2 `sublist_of` articles
  ∧ kept.*1 `sublist_of` seq 1 (length articles)
  ∧ (∀ i a, (i, a) ∈ kept ↔
            1 ≤ i ∧ articles !! (i - 1) = Some a ∧ survives E (i, a) = true)
  ∧ (∀ i j, chapter_path i = chapter_path j → i = j)
  ∧ NoDup (map (fun ia => chapter_path ia.1) kept)
  ∧ (∀ i a j b, (i, a) ∈ kept → (j, b) ∈ kept →
                chapter_path i = chapter_path j → i = j ∧ a = b).
Proof.
  intros kept.
  assert (Hsub1 : kept.*1 `sublist_of` seq 1 (length articles)).
  { pose proof (sublist_filter (fun ia => Is_true (survives E ia))
                  (enumerate_from 1 articles)) as H.
    apply (fmap_sublist fst) in H. by rewrite enumerate_from_fst in H. }
  assert (Hnd1 : NoDup kept.*1).
  { eapply sublist_NoDup; [apply NoDup_seq | exact Hsub1]. }
  assert (Hmem : ∀ i a, (i, a) ∈ kept ↔
            1 ≤ i ∧ articles !! (i - 1) = Some a ∧ survives E (i, a) = true).
  { intros i a. unfold kept, kept_chapters.
    rewrite list_elem_of_filter, elem_of_enumerate_from, Is_true_true.
    tauto. }
  split; [|split; [done|split; [|split; [exact Hsub1|split; [exact Hmem|]]]]].
  3:{ split; [apply chapter_path_inj|]. split.
      - change (map (fun ia : nat * Article => chapter_path ia.1) kept)
          with ((chapter_path ∘ fst) <$> kept).
        rewrite list_fmap_compose.
        apply NoDup_fmap_2_strong; [|exact Hnd1].
        intros i j _ _. apply chapter_path_inj.
      - intros i a j b Hi Hj Heq. apply chapter_path_inj in Heq. subst j.
        split; [done|].
        apply Hmem in Hi as (_ & Hi & _). apply Hmem in Hj as (_ & Hj & _).
        congruence. }
  - by rewrite process_articles_spec.
  - pose proof (sublist_filter (fun ia => Is_true (survives E ia))
                  (enumerate_from 1 articles)) as H.
    apply (fmap_sublist snd) in H. by rewrite enumerate_from_snd in H.
Qed.

(** Three articles, the second of which cannot be fetched: chapters 1 and
    3, in that order, and a description that cites the two titles. *)
Example second_article_skipped :
  kept_paths sample_env
    (mkPost (lit "Links 2/21/2025") [] sample_articles)
  = [chapter_path 1; chapter_path 3]
  ∧ chapter_path 3 = [lit "tmp_chapters"; lit "chapter_03.mp3"]
  ∧ episode_description [chapter_path 1; chapter_path 3]
      [lit "Fed holds rates"; lit "Bird flu update"]
    = lit "Daily Links from Naked Capitalism. 2 articles: "
      ++ lit "Fed holds rates; Bird flu update".
Proof. repeat split; vm_compute; reflexivity. Qed.

Example duration_3725 : duration_str 3725 = lit "01:02:05".
Proof. vm_compute. reflexivity. Qed.

(** ** The assembler on bad input *)

Lemma run_pipeline_assembles_nonempty E w r w' paths out :
  run_pipeline E w = (r, w') →
  EvAssemble paths out ∈ trace w' →
  EvAssemble paths out ∈ trace w ∨ paths ≠ [].
Proof.
  intros Hrun Hin. apply run_pipeline_outcome in Hrun.
  assert (Hloop : ∀ post, EvAssemble paths out ∈ trace (processed E post w) →
                          EvAssemble paths out ∈ trace w).
  { intros post. rewrite processed_trace, elem_of_app.
    intros [?|Hin']; [done|]. by apply article_events_no_assemble in Hin'. }
  assert (Hcall : ∀ post,
            kept_paths E post ≠ [] →
            EvAssemble paths out
            ∈ trace (processed E post w)
              ++ [EvAssemble (kept_paths E post) (episode_path E)] →
            EvAssemble paths out ∈ trace w ∨ paths ≠ []).
  { intros post Hne. rewrite elem_of_app. intros [Hin'|Hin'].
    - left. by eapply Hloop.
    - apply list_elem_of_singleton in Hin'. injection Hin' as -> ->. by right. }
  destruct Hrun as [ | | | |post st Hf Hl Hg Hk
                   |post st e p Hf Hl Hg Hp Hbad
                   |post st segs e Hf Hl Hg Hne Hdec
                   |post st segs doc Hf Hl Hg Hne Hdec].
  - by left.
  - by left.
  - by left.
  - by left.
  - left. exact (Hloop post Hin).
  - apply (Hcall post); [|exact Hin].
    intros Hnil. rewrite Hnil in Hp. by apply elem_of_nil in Hp.
  - exact (Hcall post Hne Hin).
  - exact (Hcall post Hne Hin).
Qed.

(** C4 (as amended). The assembler raises when a chapter file is missing
    or is not valid audio, and then writes no episode file. It has no
    check of its own for an empty chapter list: called with no chapters
    and an output file whose directory exists (as it does in a run, which
    makes the audio directory first) it returns normally and exports an
    empty episode. It is the orchestrator that keeps zero chapters away
    from it: every call of the assembler in a run has a non-empty chapter
    list. *)
Theorem assemble_episode_on_bad_input
    (paths : list Path) (out : Path) (w : World) :
  (∀ p, p ∈ paths → undecodable w p →
        ∃ e, assemble_episode paths out w
             = (Raise e, mkWorld (files w) (dirs w)
                                 (trace w ++ [EvAssemble paths out])))
  ∧ (dir_exists w (removelast out) →
     assemble_episode [] out w = (Ok tt, exported w [] out [])
     ∧ files (exported w [] out []) !! out
       = Some (Mp3 [] (stem (path_name out))))
  ∧ (∀ E w0 r w1 ps o,
       run_pipeline E w0 = (r, w1) →
       EvAssemble ps o ∈ trace w1 →
       EvAssemble ps o ∈ trace w0 ∨ ps ≠ []).
Proof.
  split; [|split].
  - intros p Hin Hbad. by eapply assemble_episode_fails.
  - intros Hdir. split.
    + apply (assemble_episode_ok [] [] out w); [constructor | exact Hdir].
    + unfold exported. cbn [files]. apply lookup_insert_eq.
  - intros E w0 r w1 ps o. apply run_pipeline_assembles_nonempty.
Qed.

Lemma assemble_episode_on_bad_input_witness :
  chapter_path 2 ∈ [chapter_path 1; chapter_path 2]
  ∧ undecodable world_ready_to_assemble (chapter_path 2)
  ∧ dir_exists world_ready_to_assemble (removelast sample_episode_path)
  ∧ (∃ e, assemble_episode [chapter_path 1; chapter_path 2]
            sample_episode_path world_ready_to_assemble
          = (Raise e,
             mkWorld (files world_ready_to_assemble)
               (dirs world_ready_to_assemble)
               [EvAssemble [chapter_path 1; chapter_path 2]
                           sample_episode_path]))
  ∧ assemble_episode [] sample_episode_path world_ready_to_assemble
    = (Ok tt, exported world_ready_to_assemble [] sample_episode_path []).
Proof.
  assert (H1 : chapter_path 2 ∈ [chapter_path 1; chapter_path 2])
    by (right; left).
  assert (H2 : undecodable world_ready_to_assemble (chapter_path 2)).
  { intros seg tag. vm_compute. discriminate. }
  assert (H3 : dir_exists world_ready_to_assemble
                          (removelast sample_episode_path)).
  { right. refine (bool_decide_unpack _ _). vm_compute. exact I. }
  split; [exact H1|]. split; [exact H2|]. split; [exact H3|].
  split.
  - exact (proj1 (assemble_episode_on_bad_input [chapter_path 1; chapter_path 2]
                    sample_episode_path world_ready_to_assemble) _ H1 H2).
  - exact (proj1 (proj1 (proj2 (assemble_episode_on_bad_input []
                    sample_episode_path world_ready_to_assemble)) H3)).
Defined.

(** C4, as stated, fails: with the audio directory in place, as in every
    run, the assembler called on an empty chapter list does not raise; it
    writes an episode file made from zero chapters. *)
Lemma assemble_episode_accepts_empty_list :
  dir_exists world_with_audio_dir (removelast sample_episode_path)
  ∧ ¬ assembler_rejects_empty sample_episode_path world_with_audio_dir
  ∧ files (assemble_episode [] sample_episode_path world_with_audio_dir).2
      !! sample_episode_path
    = Some (Mp3 [] (lit "nc-links-2025-02-21")).
Proof.
  split; [|split].
  - right. refine (bool_decide_unpack _ _). vm_compute. exact I.
  - intros (e & w' & H). vm_compute in H. discriminate.
  - vm_compute. reflexivity.
Qed.

(** ** An assembly failure keeps the temporary chapters *)

(** C7: the run at the failing input. The speech service answers every
    article with a file that is not audio; [text_to_speech] returns
    normally, the assembler raises on the first chapter, and the run ends
    with the temporary directory and the chapter files still there: the
    [rmtree] after [assemble_episode] is not reached. *)
Theorem assembly_failure_leaves_tmp_chapters :
  (run_pipeline garbled_env empty_world).1
  = Raise (CouldntDecodeError (chapter_path 1))
  ∧ TMP_DIR ∈ dirs (run_pipeline garbled_env empty_world).2
  ∧ files (run_pipeline garbled_env empty_world).2 !! chapter_path 1
    = Some (Raw (lit "<html>503</html>"))
  ∧ files (run_pipeline garbled_env empty_world).2 !! chapter_path 3
    = Some (Raw (lit "<html>503</html>")).
Proof.
  split; [vm_compute; reflexivity|].
  split; [refine (bool_decide_unpack _ _); vm_compute; exact I|].
  split; vm_compute; reflexivity.
Qed.

Lemma decodes_not_undecodable w paths segs p :
  Forall2 (decodes_to w) paths segs → p ∈ paths → ¬ undecodable w p.
Proof.
  intros Hdec Hin Hbad.
  apply list_elem_of_lookup in Hin as [k Hk].
  destruct (Forall2_lookup_l _ _ _ _ _ Hdec Hk) as (seg & _ & [tag Hseg]).
  by apply (Hbad seg tag).
Qed.

(** Whenever a chapter that the loop has kept does not decode (the
    speech service returned normally but what it wrote is not audio), the
    run raises out of the assembler and ends with the temporary directory
    in place and every file as the loop left it: the chapter files are
    not removed, and no episode, state or feed is written. *)
Lemma failed_assembly_keeps_tmp_dir E w post st p :
  fetch_links_post E = Ok (Some post) →
  loaded_state w = Ok st →
  has_guid (episode_id E) st = false →
  p ∈ kept_paths E post →
  undecodable (processed E post w) p →
  ∃ e w', run_pipeline E w = (Raise e, w')
          ∧ TMP_DIR ∈ dirs w'
          ∧ files w' = files (processed E post w).
Proof.
  intros Hfetch Hload Hguid Hp Hbad.
  destruct (run_pipeline E w) as [r w'] eqn:Hrun.
  pose proof (run_pipeline_outcome E w r w' Hrun) as Hout.
  destruct Hout as [ | | | |post' st' Hf Hl Hg Hk
                   |post' st' e p' Hf Hl Hg Hp' Hbad'
                   |post' st' segs e Hf Hl Hg Hne Hdec
                   |post' st' segs doc Hf Hl Hg Hne Hdec];
    try congruence;
    assert (post' = post) as -> by congruence.
  - apply kept_paths_nil in Hk. rewrite Hk in Hp. by apply elem_of_nil in Hp.
  - exists e. eexists. split; [reflexivity|]. split; [|done].
    cbn [dirs]. apply tmp_in_processed.
  - by destruct (decodes_not_undecodable _ _ _ _ Hdec Hp).
  - by destruct (decodes_not_undecodable _ _ _ _ Hdec Hp).
Qed.

(** The call of the assembler is the only place where a run can leave
    the temporary directory behind: a run that starts without the
    directory and ends with it has raised, its last step was the call of
    the assembler on the chapters it had kept, and it has committed
    nothing: the state file and the feed are as before. Every other run,
    normal or failed, removes the directory or never makes it. *)
Lemma tmp_dir_left_only_by_assembly_failure E w r w' :
  run_pipeline E w = (r, w') →
  TMP_DIR ∉ dirs w →
  TMP_DIR ∈ dirs w' →
  ∃ e post,
    r = Raise e
    ∧ fetch_links_post E = Ok (Some post)
    ∧ kept_paths E post ≠ []
    ∧ last (trace w') = Some (EvAssemble (kept_paths E post) (episode_path E))
    ∧ files w' !! STATE_FILE = files w !! STATE_FILE
    ∧ files w' !! RSS_FILE = files w !! RSS_FILE.
Proof.
  intros Hrun Hfresh Hin. apply run_pipeline_outcome in Hrun.
  assert (Hdocs : ∀ l : list Path,
            l = ancestors_and_self AUDIO_DIR
            ∨ l = ancestors_and_self (removelast RSS_FILE) →
            TMP_DIR ∉ (list_to_set l : gset Path)).
  { intros l [->| ->] H; pose proof (bool_decide_pack _ H) as H';
      by vm_compute in H'. }
  assert (Hstart : TMP_DIR ∉ dirs (started w)).
  { unfold started. cbn [dirs]. rewrite elem_of_union.
    intros [?|H]; [done|]. eapply Hdocs; [|exact H]. by left. }
  assert (Hgone : ∀ w0, TMP_DIR ∉ dirs (without_tmp w0)).
  { intros w0. by apply without_tmp_under. }
  assert (Hcommit : ∀ post st combined,
            TMP_DIR ∉ dirs (committed E post st combined w)).
  { intros post st combined. unfold committed. cbn [dirs].
    rewrite elem_of_union. intros [?%Hgone|H]; [done|].
    eapply Hdocs; [|exact H]. by right. }
  destruct Hrun as [ | | | |post st Hf Hl Hg Hk
                   |post st e p Hf Hl Hg Hp Hbad
                   |post st segs e Hf Hl Hg Hne Hdec
                   |post st segs doc Hf Hl Hg Hne Hdec];
    try done.
  - by apply Hgone in Hin.
  - exists e, post. split; [done|]. split; [done|].
    split; [intros Hnil; rewrite Hnil in Hp; by apply elem_of_nil in Hp|].
    cbn [trace files]. split; [apply last_snoc|].
    split; apply processed_frame;
      [apply state_file_not_under | apply rss_file_not_under].
  - by apply Hcommit in Hin.
  - cbn [dirs] in Hin. by apply Hcommit in Hin.
Qed.

(** ** Saving the state *)

Lemma loaded_state_saved st w : loaded_state (save_state st w).2 = Ok st.
Proof.
  unfold loaded_state, save_state, write_file. cbn [snd files].
  by rewrite lookup_insert_eq.
Qed.

(** C3 (as amended). [save_state state] writes the full state over the
    state file, in place: when the call has returned the file holds the
    new state (a later [load_state] returns it) and no other file has
    changed; between two calls the file keeps the state saved last. The
    write is not atomic: while the call runs, and after a crash in it, the
    file is the old one, an empty one that does not load, or the new
    one. *)
Theorem save_state_overwrites_in_place (st : FeedState) (w : World) :
  (∃ w', save_state st w = (Ok tt, w')
         ∧ loaded_state w' = Ok st
         ∧ load_state w' = (Ok st, w')
         ∧ (∀ p, p ≠ STATE_FILE → files w' !! p = files w !! p)
         ∧ last (save_state_stages st w) = Some w')
  ∧ (∀ w_mid, w_mid ∈ save_state_stages st w →
       (files w_mid !! STATE_FILE = files w !! STATE_FILE
        ∨ files w_mid !! STATE_FILE = Some (Raw [])
        ∨ files w_mid !! STATE_FILE = Some (JsonState st))
       ∧ (∀ p, p ≠ STATE_FILE → files w_mid !! p = files w !! p))
  ∧ (∃ w_cut, w_cut ∈ save_state_stages st w
              ∧ files w_cut !! STATE_FILE = Some (Raw [])
              ∧ loaded_state w_cut = Raise JSONDecodeError).
Proof.
  split; [|split].
  - eexists. split; [reflexivity|].
    split; [apply (loaded_state_saved st w)|].
    split; [rewrite load_state_spec; f_equal; apply (loaded_state_saved st w)|].
    split; [|done].
    intros p Hp. cbn [files]. by apply lookup_insert_ne.
  - intros w_mid Hin. unfold save_state_stages in Hin.
    rewrite !elem_of_cons in Hin.
    destruct Hin as [->|[->|[->|Hin]]]; [| | |by apply elem_of_nil in Hin].
    + split; [by left|done].
    + split; [right; left; apply lookup_insert_eq|].
      intros p Hp. by apply lookup_insert_ne.
    + split; [right; right; apply lookup_insert_eq|].
      intros p Hp. by apply lookup_insert_ne.
  - eexists. split; [right; left|].
    unfold loaded_state, write_file. cbn [snd files].
    by rewrite lookup_insert_eq.
Qed.

(** C3, as stated, fails: while the state of the day after is saved over
    the state of today, the file can be found holding neither. *)
Lemma save_state_is_not_atomic :
  ¬ save_is_atomic state_of_tomorrow world_done_today.
Proof.
  intros Hatomic.
  destruct (Hatomic (write_file STATE_FILE (Raw []) world_done_today).2)
    as [H|H].
  - right. left.
  - vm_compute in H. discriminate.
  - vm_compute in H. discriminate.
Qed.

(** ** More on the article links of the post *)

(** Every article of the post comes from an anchor: its address is the
    stripped [href], which starts with http and has none of the skipped
    substrings; its title is the link text, or the address when the link
    has no text; its blurb is the text of the enclosing paragraph or list
    item, empty without one. *)
Lemma collect_links_from_anchor anchors : ∀ (seen : gset str) articles art,
  art ∈ collect_links anchors seen articles →
  art ∈ articles ∨ ∃ a, a ∈ anchors ∧ link_of a art.
Proof.
  induction anchors as [|a rest IH]; intros seen articles art;
    cbn [collect_links]; [by left|].
  assert (Hrest : ∀ seen' articles',
            art ∈ collect_links rest seen' articles' →
            (art ∈ articles' →
             art ∈ articles ∨ ∃ a0, a0 ∈ a :: rest ∧ link_of a0 art) →
            art ∈ articles ∨ ∃ a0, a0 ∈ a :: rest ∧ link_of a0 art).
  { intros seen' articles' Hin Hold.
    destruct (IH seen' articles' art Hin) as [Hin'|(a0 & Ha0 & Hprops)];
      [by apply Hold|].
    right. exists a0. split; [by right | done]. }
  destruct (existsb (fun x => contains x (strip (a_href a))) SKIPPED_LINKS)
    eqn:Hskip; [intros Hin; eapply Hrest; [exact Hin | by left]|].
  destruct (negb (starts_with (lit "http") (strip (a_href a)))) eqn:Hhttp;
    [intros Hin; eapply Hrest; [exact Hin | by left]|].
  apply negb_false_iff in Hhttp.
  destruct (bool_decide (strip (a_href a) ∈ seen));
    [intros Hin; eapply Hrest; [exact Hin | by left]|].
  set (new := mkArticle _ _ _).
  assert (Hnew : art ∈ articles ++ [new] →
            art ∈ articles ∨ ∃ a0, a0 ∈ a :: rest ∧ link_of a0 art).
  { intros Hin. apply elem_of_app in Hin as [Hin|Hin]; [by left|].
    apply list_elem_of_singleton in Hin. subst art. right.
    exists a. split; [by left|]. unfold link_of, new.
    cbn [art_url art_title art_blurb]. done. }
  destruct (MAX_ARTICLES <=? length (articles ++ [new])); [apply Hnew|].
  intros Hin. eapply Hrest; [exact Hin | apply Hnew].
Qed.

Lemma starts_with_http_not_nil s : starts_with (lit "http") s = true → s ≠ [].
Proof. by intros H ->. Qed.

(** Every article [_parse_links_post] returns has an address that starts
    with http and holds none of the skipped substrings (the site itself,
    anchors, social media, mailto, javascript), and a title that is not
    empty: the link text, or the address for a link without text. Its
    address, title and blurb are those of one of the anchors. *)
Theorem parse_links_post_articles url title anchors art :
  art ∈ post_articles (_parse_links_post url title anchors) →
  starts_with (lit "http") (art_url art) = true
  ∧ (∀ x, x ∈ SKIPPED_LINKS → contains x (art_url art) = false)
  ∧ art_title art ≠ []
  ∧ ∃ a, a ∈ anchors
         ∧ art_url art = strip (a_href a)
         ∧ art_title art = (if bool_decide (a_text a = [])
                            then art_url art else a_text a)
         ∧ art_blurb art = default [] (a_parent_text a).
Proof.
  intros Hin. cbn [_parse_links_post post_articles] in Hin.
  apply collect_links_from_anchor in Hin
    as [Hin|(a & Ha & Hurl & Hhttp & Hskip & Htitle & Hblurb)];
    [by apply elem_of_nil in Hin|].
  split; [done|]. split; [|split].
  - intros x Hx. destruct (contains x (art_url art)) eqn:Hc; [|done].
    assert (existsb (fun x => contains x (art_url art)) SKIPPED_LINKS = true);
      [|congruence].
    apply existsb_exists. exists x. split; [|done].
    by apply list_elem_of_In.
  - rewrite Htitle. case_bool_decide; [|done].
    by apply starts_with_http_not_nil.
  - exists a. done.
Qed.

Lemma collect_links_order anchors : ∀ (seen : gset str) articles,
  ∃ more,
    collect_links anchors seen articles = articles ++ more
    ∧ map art_url more `sublist_of` map (fun a => strip (a_href a)) anchors.
Proof.
  induction anchors as [|a rest IH]; intros seen articles; cbn [collect_links].
  { exists []. by rewrite app_nil_r. }
  assert (Hskip : ∀ seen',
            ∃ more, collect_links rest seen' articles = articles ++ more
              ∧ map art_url more
                `sublist_of` map (fun a => strip (a_href a)) (a :: rest)).
  { intros seen'. destruct (IH seen' articles) as (more & -> & Hsub).
    exists more. split; [done|]. cbn [map]. by apply sublist_cons. }
  destruct (existsb (fun x => contains x (strip (a_href a))) SKIPPED_LINKS);
    [apply Hskip|].
  destruct (negb (starts_with (lit "http") (strip (a_href a))));
    [apply Hskip|].
  destruct (bool_decide (strip (a_href a) ∈ seen)); [apply Hskip|].
  set (new := mkArticle _ _ _).
  destruct (MAX_ARTICLES <=? length (articles ++ [new])).
  - exists [new]. split; [done|]. cbn [map art_url new].
    apply sublist_skip, sublist_nil_l.
  - destruct (IH (seen ∪ {[strip (a_href a)]}) (articles ++ [new]))
      as (more & -> & Hsub).
    exists (new :: more). split; [by rewrite <- app_assoc|].
    cbn [map art_url new]. by apply sublist_skip.
Qed.

(** [_parse_links_post] keeps the order of the page: the addresses of the
    articles are a sublist of the stripped [href]s of the anchors. The
    title and the address of the post are passed through. *)
Theorem parse_links_post_order url title anchors :
  map art_url (post_articles (_parse_links_post url title anchors))
  `sublist_of` map (fun a => strip (a_href a)) anchors
  ∧ post_title (_parse_links_post url title anchors) = title
  ∧ post_url (_parse_links_post url title anchors) = url.
Proof.
  split; [|done]. cbn [_parse_links_post post_articles].
  destruct (collect_links_order anchors ∅ []) as (more & -> & Hsub). done.
Qed.

Lemma parse_links_post_articles_witness :
  sample_bare_link
  ∈ post_articles (_parse_links_post (lit "u") (lit "Links") sample_anchors)
  ∧ post_articles (_parse_links_post (lit "u") (lit "Links") sample_anchors)
    = [mkArticle (lit "https://example.org/a") (lit "Fed holds rates")
                 (lit "Fed holds rates, as expected. Reuters");
       sample_bare_link]
  ∧ art_title sample_bare_link ≠ [].
Proof.
  assert (Heq : post_articles
                  (_parse_links_post (lit "u") (lit "Links") sample_anchors)
                = [mkArticle (lit "https://example.org/a") (lit "Fed holds rates")
                     (lit "Fed holds rates, as expected. Reuters");
                   sample_bare_link]) by (vm_compute; reflexivity).
  assert (Hin : sample_bare_link
                ∈ post_articles
                    (_parse_links_post (lit "u") (lit "Links") sample_anchors)).
  { rewrite Heq. right. left. }
  split; [exact Hin|]. split; [exact Heq|].
  exact (proj1 (proj2 (proj2 (parse_links_post_articles _ _ _ _ Hin)))).
Defined.

(** ** More on the text extraction *)

(** [fetch_article_text] never raises and touches no file: a failed
    request or extraction gives [None]. A text it returns is the
    extractor's output for the page fetched, and has at least
    [MIN_TEXT_LENGTH] = 200 characters; shorter texts are dropped. *)
Theorem fetch_article_text_min_length (E : Env) (url : str) (w : World) :
  ∃ r,
    fetch_article_text E url w
    = (Ok r, mkWorld (files w) (dirs w) (trace w ++ [EvGet url]))
    ∧ (∀ text, r = Some text →
         (200 ≤ len text)%Z
         ∧ ∃ html, session_get E url = Some html
                   ∧ trafilatura_extract E html = Some text)
    ∧ (r = None ↔
       session_get E url = None
       ∨ ∃ html, session_get E url = Some html
           ∧ (trafilatura_extract E html = None
              ∨ ∃ text, trafilatura_extract E html = Some text
                        ∧ (len text < 200)%Z)).
Proof.
  exists (extracted_text E url). split; [apply fetch_article_text_spec|].
  unfold extracted_text.
  destruct (session_get E url) as [html|] eqn:Hget.
  2:{ split; [done|]. split; [by left | done]. }
  destruct (trafilatura_extract E html) as [text|] eqn:Hex.
  2:{ split; [done|]. split; [|done]. intros _. right. exists html. auto. }
  destruct (bool_decide (text = [])) eqn:Hnil; cbn [negb andb].
  { apply bool_decide_eq_true in Hnil. subst text.
    split; [done|]. split; [|done]. intros _. right. exists html.
    split; [done|]. right. exists []. split; [done|]. unfold len. cbn. lia. }
  unfold MIN_TEXT_LENGTH.
  destruct (Z.leb_spec 200 (len text)) as [Hlong|Hshort].
  - split.
    + intros t [= <-]. split; [done|]. by exists html.
    + split; [done|]. intros [?|(html' & [= <-] & [?|(t & Ht & Hlt)])];
        [done|congruence|]. assert (t = text) as -> by congruence. lia.
  - split; [done|]. split; [|done]. intros _. right. exists html.
    split; [done|]. right. by exists text.
Qed.

(** ** More on the feed renderer *)

Lemma rss_item_ok_iff rfc ep :
  (∃ item, rss_item rfc ep = Ok item) ↔ rfc (pub_date ep) ≠ None.
Proof.
  unfold rss_item. destruct (rfc (pub_date ep)); split; try done; eauto.
  by intros [item ?].
Qed.

Lemma rss_items_spec rfc eps : ∀ acc,
  match rss_items rfc acc eps with
  | Ok r =>
      ∃ items,
        Forall2 (fun ep item => rss_item rfc ep = Ok item) eps items
        ∧ r = acc ++ concat items
  | Raise e =>
      ∃ ep, ep ∈ eps ∧ rfc (pub_date ep) = None ∧ e = ValueError (pub_date ep)
  end.
Proof.
  induction eps as [|ep eps IH]; intros acc; cbn [rss_items].
  - exists []. split; [constructor | by rewrite app_nil_r].
  - destruct (rss_item rfc ep) as [item|e] eqn:Hitem.
    + change (Ok item ≫= (fun item0 => rss_items rfc (acc ++ item0) eps))
        with (rss_items rfc (acc ++ item) eps).
      specialize (IH (acc ++ item)).
      destruct (rss_items rfc (acc ++ item) eps) as [r|e].
      * destruct IH as (items & Hitems & ->).
        exists (item :: items). split; [by constructor|].
        cbn [concat]. by rewrite <- app_assoc.
      * destruct IH as (ep' & Hin & Hbad & ->).
        exists ep'. split; [by right | done].
    + change (Raise e ≫= (fun item0 => rss_items rfc (acc ++ item0) eps))
        with (@Raise str e).
      unfold rss_item in Hitem.
      destruct (rfc (pub_date ep)) eqn:Hd; [done|].
      injection Hitem as <-. exists ep. split; [by left | done].
Qed.

(** The feed lists the episodes newest first: the document is the channel
    header, then one item for each episode in the reverse of the storage
    order, then the footer. *)
Theorem generate_rss_newest_first
    (rfc : str -> option str) (eps : list Episode) (doc : str) :
  generate_rss rfc eps = Ok doc →
  ∃ items,
    Forall2 (fun ep item => rss_item rfc ep = Ok item) (reverse eps) items
    ∧ length items = length eps
    ∧ doc = rss_head ++ concat items ++ rss_tail.
Proof.
  unfold generate_rss. intros Hdoc.
  pose proof (rss_items_spec rfc (reverse eps) []) as Hspec.
  destruct (rss_items rfc [] (reverse eps)) as [r|e]; [|done].
  destruct Hspec as (items & Hitems & ->).
  unfold mbind, Result_bind, mret, Result_ret in Hdoc.
  apply (inj Ok) in Hdoc. subst doc.
  exists items. split; [done|]. split; [|done].
  by rewrite <- (Forall2_length _ _ _ Hitems), length_reverse.
Qed.

Lemma generate_rss_newest_first_witness :
  generate_rss rfc_fixed two_episodes
  = Ok (rss_head ++ (item_of_day 2 ++ item_of_day 1) ++ rss_tail)
  ∧ ∃ items,
      Forall2 (fun ep item => rss_item rfc_fixed ep = Ok item)
              [episode_of_day 2; episode_of_day 1] items
      ∧ length items = 2.
Proof.
  assert (H : generate_rss rfc_fixed two_episodes
              = Ok (rss_head ++ (item_of_day 2 ++ item_of_day 1) ++ rss_tail))
    by (vm_compute; reflexivity).
  split; [exact H|].
  destruct (generate_rss_newest_first rfc_fixed two_episodes _ H)
    as (items & Hitems & Hlen & _).
  exists items. split; [exact Hitems | exact Hlen].
Defined.

(** The renderer raises exactly when the publication date of some
    episode is not an ISO date-time, and then the error is a [ValueError]
    carrying such a date; no document is produced. *)
Theorem generate_rss_raises_on_bad_date
    (rfc : str -> option str) (eps : list Episode) :
  ((∃ e, generate_rss rfc eps = Raise e)
   ↔ ∃ ep, ep ∈ eps ∧ rfc (pub_date ep) = None)
  ∧ (∀ e, generate_rss rfc eps = Raise e →
       ∃ ep, ep ∈ eps ∧ rfc (pub_date ep) = None
             ∧ e = ValueError (pub_date ep)).
Proof.
  unfold generate_rss.
  pose proof (rss_items_spec rfc (reverse eps) []) as Hspec.
  destruct (rss_items rfc [] (reverse eps)) as [r|e];
    unfold mbind, Result_bind, mret, Result_ret.
  - destruct Hspec as (items & Hitems & _).
    split; [|intros e He; discriminate He].
    split; [intros [e He]; discriminate He|].
    intros (ep & Hin & Hbad). exfalso.
    rewrite <- elem_of_reverse in Hin.
    apply list_elem_of_lookup in Hin as [k Hk].
    destruct (Forall2_lookup_l _ _ _ _ _ Hitems Hk) as (item & _ & Hitem).
    unfold rss_item in Hitem. by rewrite Hbad in Hitem.
  - destruct Hspec as (ep & Hin & Hbad & ->).
    rewrite elem_of_reverse in Hin.
    split.
    + split; [intros _; exists ep; by split | intros _; eauto].
    + intros e' [= <-]. exists ep. by repeat split.
Qed.

(** ** [_xml] loses nothing *)

Lemma unescape_fuel_xml s : ∀ n,
  length (_xml s) ≤ n → unescape_fuel n (_xml s) = s.
Proof.
  induction s as [|c s IH]; intros n Hn.
  - by destruct n.
  - rewrite xml_cons in *.
    destruct (xml_char_cases c)
      as [[-> Hc]|[[-> Hc]|[[-> Hc]|[[-> Hc]|(H1 & H2 & H3 & H4 & Hc)]]]];
      rewrite Hc in *; rewrite length_app in Hn;
      (destruct n as [|n]; [cbn in Hn; lia|]).
    + change (lit "&amp;" ++ _xml s) with (AMP :: lit "amp;" ++ _xml s).
      cbn [unescape_fuel]. rewrite N.eqb_refl.
      change (starts_with (lit "amp;") (lit "amp;" ++ _xml s)) with true.
      cbv iota. change (drop 4 (lit "amp;" ++ _xml s)) with (_xml s).
      rewrite IH; [done | cbn in Hn; lia].
    + change (lit "&lt;" ++ _xml s) with (AMP :: lit "lt;" ++ _xml s).
      cbn [unescape_fuel]. rewrite N.eqb_refl.
      change (starts_with (lit "amp;") (lit "lt;" ++ _xml s)) with false.
      change (starts_with (lit "lt;") (lit "lt;" ++ _xml s)) with true.
      cbv iota. change (drop 3 (lit "lt;" ++ _xml s)) with (_xml s).
      rewrite IH; [done | cbn in Hn; lia].
    + change (lit "&gt;" ++ _xml s) with (AMP :: lit "gt;" ++ _xml s).
      cbn [unescape_fuel]. rewrite N.eqb_refl.
      change (starts_with (lit "amp;") (lit "gt;" ++ _xml s)) with false.
      change (starts_with (lit "lt;") (lit "gt;" ++ _xml s)) with false.
      change (starts_with (lit "gt;") (lit "gt;" ++ _xml s)) with true.
      cbv iota. change (drop 3 (lit "gt;" ++ _xml s)) with (_xml s).
      rewrite IH; [done | cbn in Hn; lia].
    + change (lit "&quot;" ++ _xml s) with (AMP :: lit "quot;" ++ _xml s).
      cbn [unescape_fuel]. rewrite N.eqb_refl.
      change (starts_with (lit "amp;") (lit "quot;" ++ _xml s)) with false.
      change (starts_with (lit "lt;") (lit "quot;" ++ _xml s)) with false.
      change (starts_with (lit "gt;") (lit "quot;" ++ _xml s)) with false.
      change (starts_with (lit "quot;") (lit "quot;" ++ _xml s)) with true.
      cbv iota. change (drop 5 (lit "quot;" ++ _xml s)) with (_xml s).
      rewrite IH; [done | cbn in Hn; lia].
    + cbn [app unescape_fuel].
      replace (c =? AMP)%N with false by (symmetry; by apply N.eqb_neq).
      rewrite IH; [done | cbn in Hn; lia].
Qed.

Lemma xml_length s : length s ≤ length (_xml s).
Proof.
  induction s as [|c s IH]; [done|].
  rewrite xml_cons, length_app. cbn [length].
  destruct (xml_char_cases c)
    as [[_ ->]|[[_ ->]|[[_ ->]|[[_ ->]|(_ & _ & _ & _ & ->)]]]]; cbn; lia.
Qed.

Lemma xml_fixed_iff s : _xml s = s ↔ Forall (fun c => ¬ reserved c) s.
Proof.
  split.
  - induction s as [|c s IH]; [constructor|].
    rewrite xml_cons. intros Heq.
    pose proof (xml_length s) as Hlen.
    destruct (xml_char_cases c)
      as [[-> Hc]|[[-> Hc]|[[-> Hc]|[[-> Hc]|(H1 & H2 & H3 & H4 & Hc)]]]];
      rewrite Hc in Heq;
      try (apply (f_equal length) in Heq; rewrite length_app in Heq;
           cbn in Heq; lia).
    injection Heq as Heq. constructor; [|by apply IH].
    unfold reserved. tauto.
  - induction 1 as [|c s Hc _ IH]; [done|].
    rewrite xml_cons, IH.
    destruct (xml_char_cases c)
      as [[-> _]|[[-> _]|[[-> _]|[[-> _]|(_ & _ & _ & _ & ->)]]]];
      try done; exfalso; apply Hc; unfold reserved; auto.
Qed.

(** [_xml] loses nothing: the text can be read back from the escaped
    text, so different texts are escaped differently; the escaped text is
    never shorter, and it is the text itself exactly when the text has
    none of the four characters [&], [<], [>] and the double quote. *)
Theorem xml_is_lossless (s : str) :
  xml_unescape (_xml s) = s
  ∧ (∀ s', _xml s = _xml s' → s = s')
  ∧ length s ≤ length (_xml s)
  ∧ (_xml s = s ↔ Forall (fun c => ¬ reserved c) s).
Proof.
  assert (Hback : ∀ t, xml_unescape (_xml t) = t).
  { intros t. unfold xml_unescape. by apply unescape_fuel_xml. }
  split; [apply Hback|]. split; [|split].
  - intros s' Heq. rewrite <- (Hback s), <- (Hback s'). by rewrite Heq.
  - apply xml_length.
  - apply xml_fixed_iff.
Qed.

(** ** What a run asks of the network *)

Lemma requested_article_events E l :
  requested (concat (map (article_events E) l)) = map (fun ia => art_url ia.2) l.
Proof.
  induction l as [|ia l IH]; [done|].
  cbn [map concat]. unfold requested in *. rewrite omap_app, IH.
  unfold article_events. by destruct (spoken_text E ia).
Qed.

Lemma synthesized_article_events E l :
  synthesized (concat (map (article_events E) l))
  = map (fun ia => chapter_path ia.1)
        (filter (fun ia => is_Some (spoken_text E ia)) l).
Proof.
  induction l as [|ia l IH]; [done|].
  cbn [map concat]. unfold synthesized in *. rewrite omap_app, IH.
  rewrite filter_cons. unfold article_events.
  destruct (spoken_text E ia) as [text|] eqn:Hs.
  - rewrite decide_True by (by eexists). done.
  - rewrite decide_False by apply is_Some_None. done.
Qed.

Lemma enumerate_from_length {A} s (l : list A) :
  length (enumerate_from s l) = length l.
Proof. unfold enumerate_from. rewrite length_zip, length_seq. lia. Qed.

(** A run that gets past the check for today's episode requests the page
    of every article of the post exactly once, in the order of the post,
    whether or not the article later yields a chapter; it calls the speech
    service once for each article whose text was extracted, never twice
    for an article, with the chapter file of the article's position.
    (The trace holds the calls of the loop and of the assembler; the two
    requests of the scraper itself come before it.) *)
Theorem run_pipeline_requests_each_article_once
    (E : Env) (w : World) (post : Post) (st : FeedState) r w' :
  fetch_links_post E = Ok (Some post) →
  loaded_state w = Ok st →
  has_guid (episode_id E) st = false →
  run_pipeline E w = (r, w') →
  ∃ evs,
    trace w' = trace w ++ evs
    ∧ requested evs = map art_url (post_articles post)
    ∧ synthesized evs
      = map (fun ia => chapter_path ia.1)
            (spoken_chapters E 1 (post_articles post))
    ∧ length (synthesized evs) ≤ length (post_articles post).
Proof.
  intros Hfetch Hload Hguid Hrun.
  set (loop := concat (map (article_events E)
                           (enumerate_from 1 (post_articles post)))).
  assert (Hevs : ∀ extra,
            requested extra = [] → synthesized extra = [] →
            requested (loop ++ extra) = map art_url (post_articles post)
            ∧ synthesized (loop ++ extra)
              = map (fun ia => chapter_path ia.1)
                    (spoken_chapters E 1 (post_articles post))
            ∧ length (synthesized (loop ++ extra)) ≤ length (post_articles post)).
  { intros extra Hr Hs.
    assert (Hsyn : synthesized (loop ++ extra)
              = map (fun ia => chapter_path ia.1)
                    (spoken_chapters E 1 (post_articles post))).
    { unfold synthesized. rewrite omap_app. fold (synthesized extra).
      rewrite Hs, app_nil_r. apply synthesized_article_events. }
    split; [|split; [exact Hsyn|]].
    - unfold requested. rewrite omap_app. fold (requested extra).
      rewrite Hr, app_nil_r.
      transitivity (map (fun ia : nat * Article => art_url ia.2)
                        (enumerate_from 1 (post_articles post))).
      + apply requested_article_events.
      + rewrite <- (enumerate_from_snd 1 (post_articles post)) at 2.
        by rewrite <- list_fmap_compose.
    - rewrite Hsyn, length_map. unfold spoken_chapters.
      etransitivity; [apply length_filter|].
      by rewrite enumerate_from_length. }
  apply run_pipeline_outcome in Hrun.
  destruct Hrun as [ | | | |post' st' Hf Hl Hg Hk
                   |post' st' e p Hf Hl Hg Hp Hbad
                   |post' st' segs e Hf Hl Hg Hne Hdec
                   |post' st' segs doc Hf Hl Hg Hne Hdec];
    try congruence;
    assert (post' = post) as -> by congruence.
  - exists (loop ++ []). split; [|by apply Hevs].
    cbn [without_tmp trace]. by rewrite processed_trace, app_nil_r.
  - exists (loop ++ [EvAssemble (kept_paths E post) (episode_path E)]).
    split; [|by apply Hevs].
    cbn [trace]. by rewrite processed_trace, <- app_assoc.
  - exists (loop ++ [EvAssemble (kept_paths E post) (episode_path E)]).
    split; [|by apply Hevs].
    cbn [committed without_tmp exported trace].
    by rewrite processed_trace, <- app_assoc.
  - exists (loop ++ [EvAssemble (kept_paths E post) (episode_path E)]).
    split; [|by apply Hevs].
    repeat match goal with x := _ |- _ => subst x end.
    cbn [committed without_tmp exported trace].
    by rewrite processed_trace, <- app_assoc.
Qed.

(** ** The state over the runs *)

Lemma has_guid_false_iff id st : has_guid id st = false ↔ id ∉ guids st.
Proof.
  unfold has_guid, guids. destruct st as [eps]. cbn [episodes].
  induction eps as [|ep eps IH]; cbn [existsb map].
  - split; [intros _; apply not_elem_of_nil | done].
  - rewrite orb_false_iff, IH, not_elem_of_cons. unfold str_eqb.
    rewrite bool_decide_eq_false.
    split; intros [H1 H2]; (split; [intros ?; by apply H1 | done]).
Qed.

Lemma append_episode_drop st rec :
  episodes (append_episode st rec)
  = drop (length (episodes st) + 1 - 30) (episodes st) ++ [rec].
Proof.
  unfold append_episode, last_n. cbn [episodes].
  rewrite length_app. cbn [length]. by rewrite drop_app_le by lia.
Qed.

Lemma has_guid_append st rec : has_guid (guid rec) (append_episode st rec) = true.
Proof.
  unfold has_guid. rewrite append_episode_drop.
  rewrite existsb_app. cbn [existsb]. unfold str_eqb.
  rewrite bool_decide_eq_true_2 by done. by rewrite orb_true_r.
Qed.

Lemma guids_append st rec :
  guids (append_episode st rec)
  = drop (length (episodes st) + 1 - 30) (guids st) ++ [guid rec].
Proof.
  unfold guids. rewrite append_episode_drop, map_app. cbn [map].
  by rewrite skipn_map.
Qed.

Lemma NoDup_guids_append st rec :
  NoDup (guids st) → guid rec ∉ guids st → NoDup (guids (append_episode st rec)).
Proof.
  intros Hnd Hnew. rewrite guids_append.
  set (k := length (episodes st) + 1 - 30).
  rewrite <- (take_drop k (guids st)) in Hnd, Hnew.
  apply NoDup_app in Hnd as (_ & _ & Hnd).
  apply NoDup_app. split; [done|]. split; [|apply NoDup_singleton].
  intros x Hx ->%list_elem_of_singleton. apply Hnew, elem_of_app. by right.
Qed.

(** A run that returns normally keeps the state in order: a readable
    state with pairwise distinct guids is readable after the run and has
    distinct guids, it is the state loaded before the run or that one with
    a record for today's guid appended, a guid it did not have; and a
    state of at most 30 episodes stays one. *)
Theorem run_pipeline_keeps_guids_distinct
    (E : Env) (w : World) (st : FeedState) (w' : World) :
  loaded_state w = Ok st →
  NoDup (guids st) →
  run_pipeline E w = (Ok tt, w') →
  ∃ st',
    loaded_state w' = Ok st'
    ∧ NoDup (guids st')
    ∧ (st' = st
       ∨ ∃ rec, guid rec = episode_id E ∧ (episode_id E ∉ guids st)
                ∧ st' = append_episode st rec)
    ∧ (length (episodes st) ≤ 30 → length (episodes st') ≤ 30).
Proof.
  intros Hload Hnd Hrun.
  destruct (run_pipeline_state_file E w (Ok tt) w' Hrun)
    as [Hsame|(st0 & rec & Hload0 & Hguid & Hrec & Hnew)].
  - exists st. split; [|split; [done|split; [by left | done]]].
    unfold loaded_state in *. by rewrite Hsame.
  - assert (st0 = st) as -> by congruence.
    apply has_guid_false_iff in Hguid.
    exists (append_episode st rec).
    split; [unfold loaded_state; by rewrite Hnew|].
    split; [apply NoDup_guids_append; [done | by rewrite Hrec]|].
    split; [right; by exists rec|].
    intros _. unfold append_episode. cbn [episodes]. rewrite last_n_length. lia.
Qed.

(** ** Runs that fail before any work *)

(** When the scraper raises, or the post is found but the state file
    holds a text that [json.loads] rejects at its first character (an
    empty file, such as a cut write leaves, or a text that starts no JSON
    value), the run raises that error at once: no file is written (the
    state file is not reset or repaired), no article is requested and
    nothing is synthesized. *)
Theorem run_pipeline_fails_before_any_work (E : Env) (w : World) (e : exn) :
  fetch_links_post E = Raise e
  ∨ (∃ post text,
       fetch_links_post E = Ok (Some post)
       ∧ files w !! STATE_FILE = Some (Raw text)
       ∧ not_json text = true
       ∧ e = JSONDecodeError) →
  ∃ w',
    run_pipeline E w = (Raise e, w')
    ∧ files w' = files w
    ∧ trace w' = trace w
    ∧ loaded_state w' = loaded_state w.
Proof.
  intros Hfail.
  assert (Hfail' : fetch_links_post E = Raise e
            ∨ (∃ post, fetch_links_post E = Ok (Some post)
                       ∧ loaded_state w = Raise e)).
  { destruct Hfail as [?|(post & text & Hf & Hfile & _ & ->)]; [by left|].
    right. exists post. split; [done|]. unfold loaded_state. by rewrite Hfile. }
  clear Hfail.
  destruct (run_pipeline E w) as [r w'] eqn:Hrun.
  apply run_pipeline_outcome in Hrun.
  destruct Hrun as [e' Hf|Hf|post' e' Hf Hl|post' st' Hf Hl Hg
                   |post' st' Hf Hl Hg Hk
                   |post' st' e' p Hf Hl Hg Hp Hbad
                   |post' st' segs e' Hf Hl Hg Hne Hdec
                   |post' st' segs doc Hf Hl Hg Hne Hdec];
    destruct Hfail' as [Hfail|(post & Hfail & Hbadst)]; try congruence.
  - assert (e' = e) as -> by congruence. by exists (started w).
  - assert (e' = e) as -> by congruence. by exists (started w).
Qed.

(** ** What a run leaves alone *)

Lemma stem_mp3 (x : str) : x ≠ [] → stem (x ++ lit ".mp3") = x.
Proof.
  intros Hx. unfold stem.
  assert (Hfind : Textwrap.rfind (ord ".") (x ++ lit ".mp3")
                    (length (x ++ lit ".mp3")) = Some (length x)).
  { clear Hx. induction x as [|c x IH]; [by vm_compute|].
    cbn [app length Textwrap.rfind]. by rewrite IH. }
  rewrite Hfind, length_app.
  replace (0 <? length x) with true
    by (symmetry; apply Nat.ltb_lt; destruct x; [done | cbn; lia]).
  replace (length x <? length x + length (lit ".mp3") - 1) with true
    by (symmetry; apply Nat.ltb_lt; cbn; lia).
  cbn [andb]. by rewrite take_app_length.
Qed.

Lemma episode_id_not_nil E : episode_id E ≠ [].
Proof. unfold episode_id. discriminate. Qed.

Lemma episode_title_tag E : stem (episode_filename E) = episode_id E.
Proof. apply stem_mp3, episode_id_not_nil. Qed.

Lemma audio_path_neq name :
  AUDIO_DIR ++ [name] ≠ STATE_FILE ∧ AUDIO_DIR ++ [name] ≠ RSS_FILE.
Proof. split; discriminate. Qed.

Lemma exported_frame E post w combined p :
  ¬ under TMP_DIR p → p ≠ episode_path E →
  files (without_tmp (exported (processed E post w) (kept_paths E post)
                               (episode_path E) combined)) !! p
  = files w !! p.
Proof.
  intros Htmp Hep. rewrite without_tmp_frame by done.
  unfold exported. cbn [files]. rewrite lookup_insert_ne by done.
  by apply processed_frame.
Qed.

Lemma exported_episode E post w combined :
  files (without_tmp (exported (processed E post w) (kept_paths E post)
                               (episode_path E) combined)) !! episode_path E
  = Some (Mp3 combined (episode_id E)).
Proof.
  rewrite without_tmp_frame by apply episode_path_not_under.
  unfold exported. cbn [files]. rewrite lookup_insert_eq.
  do 2 f_equal. apply episode_title_tag.
Qed.

Lemma committed_frame E post st combined w p :
  ¬ under TMP_DIR p → p ≠ STATE_FILE → p ≠ episode_path E →
  files (committed E post st combined w) !! p = files w !! p.
Proof.
  intros Htmp Hst Hep. unfold committed. cbn [files].
  rewrite lookup_insert_ne by done. by apply exported_frame.
Qed.

Lemma committed_episode E post st combined w :
  files (committed E post st combined w) !! episode_path E
  = Some (Mp3 combined (episode_id E)).
Proof.
  unfold committed. cbn [files].
  rewrite lookup_insert_ne by (symmetry; apply audio_path_neq).
  apply exported_episode.
Qed.

Lemma committed_state E post st combined w :
  loaded_state (committed E post st combined w)
  = Ok (append_episode st (episode_record_of E post combined)).
Proof. unfold loaded_state, committed. cbn [files]. by rewrite lookup_insert_eq. Qed.

Lemma committed_no_tmp E post st combined w p :
  under TMP_DIR p →
  files (committed E post st combined w) !! p = None
  ∧ (p ∉ dirs (committed E post st combined w)).
Proof.
  intros Hp. unfold committed. cbn [files dirs]. split.
  - rewrite lookup_insert_ne by (intros <-; by apply state_file_not_under in Hp).
    by apply without_tmp_under.
  - rewrite elem_of_union. intros [Hin|Hin].
    + by apply (without_tmp_under _ p Hp) in Hin.
    + apply elem_of_list_to_set in Hin.
      assert (Hmk : ancestors_and_self (removelast RSS_FILE) = [[lit "docs"]])
        by reflexivity.
      rewrite Hmk in Hin. apply list_elem_of_singleton in Hin. subst p.
      destruct Hp as [k Hk]. vm_compute in Hk. discriminate.
Qed.

Lemma started_dirs w d : d ∈ dirs w → d ∈ dirs (started w).
Proof. unfold started. cbn [dirs]. set_solver. Qed.

Lemma without_tmp_dirs w d :
  d ∈ dirs w → ¬ under TMP_DIR d → d ∈ dirs (without_tmp w).
Proof. intros Hd Hn. unfold without_tmp. cbn [dirs]. by apply elem_of_filter. Qed.

(** A run writes the state file, the feed and today's episode file, and
    works in the temporary directory; every other file is after the run
    what it was before, whatever way the run ends. So the audio of every
    other day stays in place, also that of the episodes that the
    30-episode retention has dropped from the state and the feed; and no
    directory outside the temporary one is removed. *)
Theorem run_pipeline_touches_only_its_files (E : Env) (w : World) r w' :
  run_pipeline E w = (r, w') →
  (∀ p, ¬ under TMP_DIR p → p ≠ STATE_FILE → p ≠ RSS_FILE →
        p ≠ episode_path E →
        files w' !! p = files w !! p)
  ∧ (∀ name, name ≠ episode_id E →
       files w' !! (AUDIO_DIR ++ [name ++ lit ".mp3"])
       = files w !! (AUDIO_DIR ++ [name ++ lit ".mp3"]))
  ∧ (∀ d, d ∈ dirs w → ¬ under TMP_DIR d → d ∈ dirs w').
Proof.
  intros Hrun.
  assert (Hfiles : ∀ p, ¬ under TMP_DIR p → p ≠ STATE_FILE → p ≠ RSS_FILE →
                        p ≠ episode_path E → files w' !! p = files w !! p).
  { intros p Htmp Hst Hrss Hep. apply run_pipeline_outcome in Hrun.
    destruct Hrun as [ | | | |post st Hf Hl Hg Hk
                     |post st e q Hf Hl Hg Hq Hbad
                     |post st segs e Hf Hl Hg Hne Hdec
                     |post st segs doc Hf Hl Hg Hne Hdec]; try done.
    - rewrite without_tmp_frame by done. by apply processed_frame.
    - cbn [files]. by apply processed_frame.
    - by apply committed_frame.
    - cbn [files]. rewrite lookup_insert_ne by done. by apply committed_frame. }
  split; [exact Hfiles|]. split.
  - intros name Hname. apply Hfiles.
    + apply not_under_tmp_docs.
    + apply audio_path_neq.
    + apply audio_path_neq.
    + unfold episode_path, episode_filename. intros Heq.
      apply app_inj_tail in Heq as [_ Heq].
      by apply app_inv_tail in Heq.
  - intros d Hd Hn. apply run_pipeline_outcome in Hrun.
    assert (Hproc : ∀ post, d ∈ dirs (processed E post w)).
    { intros post. rewrite processed_dirs. apply elem_of_union. left.
      by apply started_dirs. }
    assert (Hcommit : ∀ post st combined,
              d ∈ dirs (committed E post st combined w)).
    { intros post st combined. unfold committed. cbn [dirs].
      apply elem_of_union. left. apply without_tmp_dirs; [|done].
      cbn [exported dirs]. apply Hproc. }
    destruct Hrun as [ | | | |post st Hf Hl Hg Hk
                     |post st e q Hf Hl Hg Hq Hbad
                     |post st segs e Hf Hl Hg Hne Hdec
                     |post st segs doc Hf Hl Hg Hne Hdec];
      try (by apply started_dirs).
    + apply without_tmp_dirs; [apply Hproc | done].
    + cbn [dirs]. apply Hproc.
    + apply Hcommit.
    + cbn [dirs]. apply Hcommit.
Qed.

(** ** A run that publishes, and the runs after it *)

Lemma generate_rss_raise_inv rfc eps e :
  generate_rss rfc eps = Raise e →
  ∃ ep, ep ∈ eps ∧ rfc (pub_date ep) = None ∧ e = ValueError (pub_date ep).
Proof.
  unfold generate_rss. intros Hdoc.
  pose proof (rss_items_spec rfc (reverse eps) []) as Hspec.
  destruct (rss_items rfc [] (reverse eps)) as [r|e'];
    unfold mbind, Result_bind, mret, Result_ret in Hdoc; [discriminate Hdoc|].
  destruct Hspec as (ep & Hin & Hbad & ->).
  rewrite elem_of_reverse in Hin. injection Hdoc as <-.
  exists ep. by repeat split.
Qed.

Lemma generate_rss_ok_dates rfc eps doc :
  generate_rss rfc eps = Ok doc →
  ∀ ep, ep ∈ eps → rfc (pub_date ep) = None → False.
Proof.
  unfold generate_rss. intros Hdoc ep Hin Hbad.
  pose proof (rss_items_spec rfc (reverse eps) []) as Hspec.
  destruct (rss_items rfc [] (reverse eps)) as [r|e'];
    unfold mbind, Result_bind, mret, Result_ret in Hdoc; [|discriminate Hdoc].
  destruct Hspec as (items & Hitems & _).
  rewrite <- elem_of_reverse in Hin.
  apply list_elem_of_lookup in Hin as [k Hk].
  destruct (Forall2_lookup_l _ _ _ _ _ Hitems Hk) as (item & _ & Hitem).
  unfold rss_item in Hitem. by rewrite Hbad in Hitem.
Qed.

(** A run that returns normally has either written nothing outside the
    temporary directory (no post, today's episode already there, or no
    chapter), or it has published today's episode, and then the three
    stores agree: the episode file holds the chapters that were
    synthesized, joined with the gaps, and is tagged with the guid; the
    state file holds the loaded state with the record of that file
    appended, whose size is the size of the file; the feed file is the
    document rendered from that very state; and the temporary directory
    is gone with all that was in it. *)
Theorem normal_run_skips_or_publishes (E : Env) (w w' : World) :
  run_pipeline E w = (Ok tt, w') →
  (∀ p, ¬ under TMP_DIR p → files w' !! p = files w !! p)
  ∨ ∃ post st segs doc,
      let combined :=
        chapters_with_gaps (AudioSegment_silent SILENCE_BETWEEN_CHAPTERS_MS)
                           segs in
      let rec := episode_record_of E post combined in
      fetch_links_post E = Ok (Some post)
      ∧ loaded_state w = Ok st
      ∧ has_guid (episode_id E) st = false
      ∧ kept_paths E post ≠ []
      ∧ Forall2 (decodes_to (processed E post w)) (kept_paths E post) segs
      ∧ files w' !! episode_path E = Some (Mp3 combined (episode_id E))
      ∧ guid rec = episode_id E
      ∧ file_size rec = st_size E (Mp3 combined (episode_id E))
      ∧ loaded_state w' = Ok (append_episode st rec)
      ∧ generate_rss (rfc2822_of_iso E) (episodes (append_episode st rec))
        = Ok doc
      ∧ files w' !! RSS_FILE = Some (Text doc)
      ∧ (∀ p, under TMP_DIR p → files w' !! p = None ∧ (p ∉ dirs w')).
Proof.
  intros Hrun. apply run_pipeline_outcome in Hrun.
  inversion Hrun as [ | | |post st Hf Hl Hg
                    |post st Hf Hl Hg Hk
                    |
                    |
                    |post st segs doc Hf Hl Hg Hne Hdec combined st' Hrss w7];
    subst.
  - by left.
  - by left.
  - left. intros p Hp. rewrite without_tmp_frame by done.
    by apply processed_frame.
  - right. exists post, st, segs, doc. cbv zeta.
    fold combined. set (rec := episode_record_of E post combined).
    split; [done|]. split; [done|]. split; [done|]. split; [done|].
    split; [done|].
    split.
    { cbn [files]. rewrite lookup_insert_ne by apply not_eq_sym, audio_path_neq.
      apply committed_episode. }
    split; [done|].
    split.
    { unfold rec, episode_record_of. cbn [file_size].
      by rewrite episode_title_tag. }
    split.
    { unfold loaded_state. cbn [files].
      rewrite lookup_insert_ne by discriminate.
      apply committed_state. }
    split; [exact Hrss|].
    split; [cbn [files]; apply lookup_insert_eq|].
    intros p Hp. cbn [files dirs].
    rewrite lookup_insert_ne by (intros <-; by apply rss_file_not_under in Hp).
    by apply committed_no_tmp.
Qed.

(** The state is saved before the feed is rendered, and a failure of the
    renderer undoes nothing. Take a run after which the state file holds
    a record for today that it did not hold before, and in which the date
    of some episode does not parse. That run has raised the [ValueError]
    of such a date; the state it saved is the loaded state with today's
    record appended; today's episode file is in place and the temporary
    directory is gone; and the feed file is the one from before the run:
    it lacks the episode the state has. *)
Theorem feed_failure_leaves_state_ahead_of_feed
    (E : Env) (w : World) r (w' : World) (st st' : FeedState) (ep : Episode) :
  run_pipeline E w = (r, w') →
  loaded_state w = Ok st →
  has_guid (episode_id E) st = false →
  loaded_state w' = Ok st' →
  has_guid (episode_id E) st' = true →
  ep ∈ episodes st' →
  rfc2822_of_iso E (pub_date ep) = None →
  ∃ rec bad,
    guid rec = episode_id E
    ∧ st' = append_episode st rec
    ∧ bad ∈ episodes st'
    ∧ rfc2822_of_iso E (pub_date bad) = None
    ∧ r = Raise (ValueError (pub_date bad))
    ∧ files w' !! RSS_FILE = files w !! RSS_FILE
    ∧ (∃ audio, files w' !! episode_path E = Some (Mp3 audio (episode_id E)))
    ∧ (TMP_DIR ∉ dirs w').
Proof.
  intros Hrun Hload Hguid Hload' Hguid' Hep Hdate.
  assert (Hkeep : files w' !! STATE_FILE = files w !! STATE_FILE → False).
  { intros Hsame. unfold loaded_state in Hload, Hload'.
    rewrite Hsame in Hload'. congruence. }
  apply run_pipeline_outcome in Hrun.
  inversion Hrun as [e' Hf|
                    |post e' Hf Hl
                    |post st0 Hf Hl Hg
                    |post st0 Hf Hl Hg Hk
                    |post st0 e' p Hf Hl Hg Hp Hbad
                    |post st0 segs e' Hf Hl Hg Hne Hdec combined st2 Hrss
                    |post st0 segs doc Hf Hl Hg Hne Hdec combined st2 Hrss w7];
    subst.
  - by destruct Hkeep.
  - by destruct Hkeep.
  - by destruct Hkeep.
  - by destruct Hkeep.
  - destruct Hkeep. rewrite without_tmp_frame by apply state_file_not_under.
    apply processed_frame, state_file_not_under.
  - destruct Hkeep. cbn [files]. apply processed_frame, state_file_not_under.
  - assert (st0 = st) as -> by congruence.
    rewrite committed_state in Hload'. apply (inj Ok) in Hload'. subst st'.
    destruct (generate_rss_raise_inv _ _ _ Hrss) as (bad & Hin & Hbaddate & ->).
    exists (episode_record_of E post combined), bad.
    split; [done|]. split; [done|]. split; [exact Hin|].
    split; [exact Hbaddate|]. split; [done|].
    split.
    { apply committed_frame;
        [apply rss_file_not_under | discriminate | apply not_eq_sym, audio_path_neq]. }
    split; [eexists; apply committed_episode|].
    apply committed_no_tmp. done.
  - exfalso. assert (st0 = st) as -> by congruence.
    assert (Hst' : st' = st2).
    { pose proof (committed_state E post st combined w) as Hc.
      unfold loaded_state in Hload', Hc. cbn [files] in Hload'.
      rewrite lookup_insert_ne in Hload' by discriminate.
      unfold w7 in Hload'. rewrite Hc in Hload'.
      by apply (inj Ok) in Hload'. }
    subst st'.
    by apply (generate_rss_ok_dates _ _ _ Hrss ep Hep).
Qed.

(** Once a run has changed the state file and left it readable, the state
    has a record for today, and every later run on the same UTC date does
    nothing, whatever the site, the articles and the speech service then
    give: it writes no file, requests no article and calls neither the
    speech service nor the assembler, and it returns normally when it
    finds the post. In particular a run that saved the state and then
    failed to render the feed is not made up for: the feed file stays as
    it is until another day's run. *)
Theorem rerun_same_day_does_nothing
    (E1 E2 : Env) (w : World) r1 w1 (st1 : FeedState) r2 w2 :
  run_pipeline E1 w = (r1, w1) →
  files w1 !! STATE_FILE ≠ files w !! STATE_FILE →
  loaded_state w1 = Ok st1 →
  utc_today E2 = utc_today E1 →
  run_pipeline E2 w1 = (r2, w2) →
  has_guid (episode_id E2) st1 = true
  ∧ files w2 = files w1
  ∧ trace w2 = trace w1
  ∧ (∀ post, fetch_links_post E2 = Ok (Some post) → r2 = Ok tt).
Proof.
  intros Hrun1 Hchanged Hload1 Hday Hrun2.
  destruct (run_pipeline_state_file E1 w r1 w1 Hrun1)
    as [Hsame|(st & rec & Hload & Hguid & Hrec & Hnew)]; [done|].
  assert (Hst1 : st1 = append_episode st rec).
  { unfold loaded_state in Hload1. rewrite Hnew in Hload1. congruence. }
  subst st1.
  assert (Hhas : has_guid (episode_id E2) (append_episode st rec) = true).
  { rewrite (episode_id_same_day E2 E1 Hday), <- Hrec. apply has_guid_append. }
  split; [exact Hhas|].
  apply run_pipeline_outcome in Hrun2.
  destruct Hrun2 as [e Hf|Hf|post' e Hf Hl|post' st' Hf Hl Hg
                    |post' st' Hf Hl Hg Hk
                    |post' st' e p Hf Hl Hg Hp Hbad
                    |post' st' segs e Hf Hl Hg Hne Hdec
                    |post' st' segs doc Hf Hl Hg Hne Hdec];
    try congruence.
  - split; [done|]. split; [done|]. intros post Hpost. congruence.
  - by repeat split.
  - by repeat split.
Qed.

(** ** Worked instances *)

Lemma run_pipeline_requests_each_article_once_witness :
  run_pipeline sample_env empty_world = (Ok tt, published_world)
  ∧ ∃ evs,
      trace published_world = evs
      ∧ requested evs = map art_url sample_articles
      ∧ synthesized evs = [chapter_path 1; chapter_path 3].
Proof.
  assert (Hrun : run_pipeline sample_env empty_world = (Ok tt, published_world))
    by (vm_compute; reflexivity).
  assert (Hload : loaded_state empty_world = Ok (mkFeedState []))
    by (vm_compute; reflexivity).
  assert (Hguid : has_guid (episode_id sample_env) (mkFeedState []) = false)
    by (vm_compute; reflexivity).
  split; [exact Hrun|].
  destruct (run_pipeline_requests_each_article_once sample_env empty_world
              sample_post (mkFeedState []) _ _ eq_refl Hload Hguid Hrun)
    as (evs & Htr & Hreq & Hsyn & _).
  exists evs. split; [exact Htr|]. split; [exact Hreq|].
  rewrite Hsyn. vm_compute. reflexivity.
Defined.

Lemma run_pipeline_keeps_guids_distinct_witness :
  loaded_state world_of_yesterday = Ok (mkFeedState [episode_of_yesterday])
  ∧ NoDup (guids (mkFeedState [episode_of_yesterday]))
  ∧ run_pipeline dated_env world_of_yesterday
    = (Ok tt, (run_pipeline dated_env world_of_yesterday).2)
  ∧ ∃ st', loaded_state (run_pipeline dated_env world_of_yesterday).2 = Ok st'
           ∧ NoDup (guids st')
           ∧ guids st' = [lit "nc-links-2025-02-20"; lit "nc-links-2025-02-21"].
Proof.
  assert (Hload : loaded_state world_of_yesterday
                  = Ok (mkFeedState [episode_of_yesterday]))
    by (vm_compute; reflexivity).
  assert (Hnd : NoDup (guids (mkFeedState [episode_of_yesterday])))
    by (refine (bool_decide_unpack _ _); vm_compute; exact I).
  assert (Hrun : run_pipeline dated_env world_of_yesterday
                 = (Ok tt, (run_pipeline dated_env world_of_yesterday).2))
    by (vm_compute; reflexivity).
  split; [exact Hload|]. split; [exact Hnd|]. split; [exact Hrun|].
  destruct (run_pipeline_keeps_guids_distinct dated_env world_of_yesterday
              (mkFeedState [episode_of_yesterday])
              (run_pipeline dated_env world_of_yesterday).2
              Hload Hnd Hrun)
    as (st' & Hst' & Hnd' & _).
  exists st'. split; [exact Hst'|]. split; [exact Hnd'|].
  vm_compute in Hst'. injection Hst' as <-. vm_compute. reflexivity.
Defined.

Lemma run_pipeline_fails_before_any_work_witness :
  fetch_links_post unreachable_env = Raise HTTPError
  ∧ (∃ w', run_pipeline unreachable_env world_with_history
           = (Raise HTTPError, w')
           ∧ files w' = files world_with_history)
  ∧ files world_with_cut_state !! STATE_FILE = Some (Raw [])
  ∧ not_json [] = true
  ∧ ∃ w', run_pipeline sample_env world_with_cut_state
          = (Raise JSONDecodeError, w')
          ∧ files w' = files world_with_cut_state
          ∧ trace w' = [].
Proof.
  split; [reflexivity|]. split.
  - destruct (run_pipeline_fails_before_any_work unreachable_env
                world_with_history HTTPError (or_introl eq_refl))
      as (w' & Hrun & Hfiles & _).
    exists w'. split; [exact Hrun | exact Hfiles].
  - assert (Hfile : files world_with_cut_state !! STATE_FILE = Some (Raw []))
      by (vm_compute; reflexivity).
    split; [exact Hfile|]. split; [reflexivity|].
    destruct (run_pipeline_fails_before_any_work sample_env
                world_with_cut_state JSONDecodeError)
      as (w' & Hrun & Hfiles & Htrace & _).
    { right. exists sample_post, [].
      split; [reflexivity|]. split; [exact Hfile|]. split; reflexivity. }
    exists w'. split; [exact Hrun|]. split; [exact Hfiles | exact Htrace].
Defined.

Lemma run_pipeline_touches_only_its_files_witness :
  run_pipeline sample_env world_with_readme
  = (Ok tt, (run_pipeline sample_env world_with_readme).2)
  ∧ files (run_pipeline sample_env world_with_readme).2 !! readme
    = Some (Text (lit "# podcast"))
  ∧ files (run_pipeline sample_env world_with_readme).2
      !! (AUDIO_DIR ++ [lit "nc-links-2025-02-20" ++ lit ".mp3"])
    = Some (Mp3 [1; 2]%Z []).
Proof.
  assert (Hrun : run_pipeline sample_env world_with_readme
                 = (Ok tt, (run_pipeline sample_env world_with_readme).2))
    by (vm_compute; reflexivity).
  split; [exact Hrun|].
  destruct (run_pipeline_touches_only_its_files sample_env world_with_readme
              _ _ Hrun) as (Hfiles & Haudio & _).
  split.
  - rewrite Hfiles.
    + vm_compute. reflexivity.
    + intros [k Hk]. vm_compute in Hk. discriminate Hk.
    + discriminate.
    + discriminate.
    + discriminate.
  - rewrite Haudio.
    + vm_compute. reflexivity.
    + intros Heq. vm_compute in Heq. discriminate Heq.
Defined.

Lemma normal_run_skips_or_publishes_witness :
  run_pipeline sample_env empty_world = (Ok tt, published_world)
  ∧ ∃ st doc,
      loaded_state published_world = Ok st
      ∧ generate_rss rfc_fixed (episodes st) = Ok doc
      ∧ files published_world !! RSS_FILE = Some (Text doc)
      ∧ files published_world !! chapter_path 1 = None.
Proof.
  assert (Hrun : run_pipeline sample_env empty_world = (Ok tt, published_world))
    by (vm_compute; reflexivity).
  split; [exact Hrun|].
  destruct (normal_run_skips_or_publishes sample_env empty_world published_world
              Hrun) as [Hskip|(post & st & segs & doc & H)].
  - exfalso. specialize (Hskip STATE_FILE state_file_not_under).
    vm_compute in Hskip. discriminate Hskip.
  - cbv zeta in H.
    destruct H as (_ & _ & _ & _ & _ & _ & _ & _ & Hst & Hrss & Hfile & Htmp).
    eexists _, doc. split; [exact Hst|]. split; [exact Hrss|].
    split; [exact Hfile|]. apply Htmp, chapter_path_under.
Defined.

Lemma feed_failure_leaves_state_ahead_of_feed_witness :
  loaded_state world_with_bad_date = Ok (mkFeedState [episode_with_bad_date])
  ∧ has_guid (episode_id dated_env) (mkFeedState [episode_with_bad_date])
    = false
  ∧ rfc2822_of_iso dated_env (pub_date episode_with_bad_date) = None
  ∧ (run_pipeline dated_env world_with_bad_date).1
    = Raise (ValueError (lit "20 Feb 2025"))
  ∧ files (run_pipeline dated_env world_with_bad_date).2 !! RSS_FILE
    = Some (Text (lit "<rss/>"))
  ∧ ∃ st', loaded_state (run_pipeline dated_env world_with_bad_date).2 = Ok st'
           ∧ has_guid (episode_id dated_env) st' = true.
Proof.
  assert (Hload : loaded_state world_with_bad_date
                  = Ok (mkFeedState [episode_with_bad_date]))
    by (vm_compute; reflexivity).
  assert (Hguid : has_guid (episode_id dated_env)
                    (mkFeedState [episode_with_bad_date]) = false)
    by (vm_compute; reflexivity).
  assert (Hdate : rfc2822_of_iso dated_env (pub_date episode_with_bad_date)
                  = None) by (vm_compute; reflexivity).
  destruct (loaded_state (run_pipeline dated_env world_with_bad_date).2)
    as [st'|e] eqn:Hload'; [|exfalso; vm_compute in Hload'; discriminate Hload'].
  assert (Hguid' : has_guid (episode_id dated_env) st' = true).
  { vm_compute in Hload'. injection Hload' as <-. vm_compute. reflexivity. }
  assert (Hep : episode_with_bad_date ∈ episodes st').
  { vm_compute in Hload'. injection Hload' as <-. left. }
  split; [exact Hload|]. split; [exact Hguid|]. split; [exact Hdate|].
  split; [vm_compute; reflexivity|].
  destruct (feed_failure_leaves_state_ahead_of_feed dated_env
              world_with_bad_date
              (run_pipeline dated_env world_with_bad_date).1
              (run_pipeline dated_env world_with_bad_date).2
              _ st' episode_with_bad_date
              (surjective_pairing _) Hload Hguid Hload' Hguid' Hep Hdate)
    as (rec & bad & _ & _ & _ & _ & _ & Hrss & _).
  split; [rewrite Hrss; vm_compute; reflexivity|].
  exists st'. split; [reflexivity | exact Hguid'].
Defined.

Lemma rerun_same_day_does_nothing_witness :
  run_pipeline sample_env empty_world = (Ok tt, published_world)
  ∧ files published_world !! STATE_FILE ≠ files empty_world !! STATE_FILE
  ∧ (∃ st1, loaded_state published_world = Ok st1)
  ∧ utc_today garbled_env = utc_today sample_env
  ∧ files (run_pipeline garbled_env published_world).2 = files published_world
  ∧ (run_pipeline garbled_env published_world).1 = Ok tt.
Proof.
  assert (Hrun : run_pipeline sample_env empty_world = (Ok tt, published_world))
    by (vm_compute; reflexivity).
  assert (Hchanged : files published_world !! STATE_FILE
                     ≠ files empty_world !! STATE_FILE).
  { intros Heq. vm_compute in Heq. discriminate Heq. }
  destruct (loaded_state published_world) as [st1|e] eqn:Hload;
    [|exfalso; vm_compute in Hload; discriminate Hload].
  split; [exact Hrun|]. split; [exact Hchanged|].
  split; [by exists st1|]. split; [reflexivity|].
  destruct (rerun_same_day_does_nothing sample_env garbled_env empty_world
              _ _ st1 (run_pipeline garbled_env published_world).1
              (run_pipeline garbled_env published_world).2
              Hrun Hchanged Hload eq_refl (surjective_pairing _))
    as (_ & Hfiles & _ & Hok).
  split; [exact Hfiles|]. exact (Hok sample_post eq_refl).
Defined.

Lemma failed_assembly_keeps_tmp_dir_witness :
  fetch_links_post garbled_env = Ok (Some sample_post)
  ∧ chapter_path 1 ∈ kept_paths garbled_env sample_post
  ∧ undecodable (processed garbled_env sample_post empty_world) (chapter_path 1)
  ∧ ∃ e w', run_pipeline garbled_env empty_world = (Raise e, w')
            ∧ TMP_DIR ∈ dirs w'
            ∧ files w' !! chapter_path 1 = Some (Raw (lit "<html>503</html>")).
Proof.
  assert (Hload : loaded_state empty_world = Ok (mkFeedState []))
    by (vm_compute; reflexivity).
  assert (Hguid : has_guid (episode_id garbled_env) (mkFeedState []) = false)
    by (vm_compute; reflexivity).
  assert (Hkept : kept_paths garbled_env sample_post
                  = [chapter_path 1; chapter_path 3])
    by (vm_compute; reflexivity).
  assert (Hin : chapter_path 1 ∈ kept_paths garbled_env sample_post).
  { rewrite Hkept. left. }
  assert (Hbad : undecodable (processed garbled_env sample_post empty_world)
                             (chapter_path 1)).
  { intros seg tag Heq. vm_compute in Heq. discriminate Heq. }
  split; [reflexivity|]. split; [exact Hin|]. split; [exact Hbad|].
  destruct (failed_assembly_keeps_tmp_dir garbled_env empty_world sample_post
              (mkFeedState []) (chapter_path 1) eq_refl Hload Hguid Hin Hbad)
    as (e & w' & Hrun & Htmp & Hfiles).
  exists e, w'. split; [exact Hrun|]. split; [exact Htmp|].
  rewrite Hfiles. vm_compute. reflexivity.
Defined.

Lemma tmp_dir_left_only_by_assembly_failure_witness :
  (TMP_DIR ∉ dirs empty_world)
  ∧ TMP_DIR ∈ dirs garbled_world
  ∧ ∃ e post,
      (run_pipeline garbled_env empty_world).1 = Raise e
      ∧ fetch_links_post garbled_env = Ok (Some post)
      ∧ last (trace garbled_world)
        = Some (EvAssemble (kept_paths garbled_env post)
                           (episode_path garbled_env))
      ∧ files garbled_world !! STATE_FILE = None.
Proof.
  assert (Hfresh : TMP_DIR ∉ dirs empty_world).
  { intros Hin. by apply not_elem_of_empty in Hin. }
  assert (Hleft : TMP_DIR ∈ dirs garbled_world)
    by (refine (bool_decide_unpack _ _); vm_compute; exact I).
  split; [exact Hfresh|]. split; [exact Hleft|].
  destruct (tmp_dir_left_only_by_assembly_failure garbled_env empty_world
              (run_pipeline garbled_env empty_world).1 garbled_world
              (surjective_pairing _) Hfresh Hleft)
    as (e & post & Hr & Hpost & _ & Hlast & Hstate & _).
  exists e, post. split; [exact Hr|]. split; [exact Hpost|].
  split; [exact Hlast|]. rewrite Hstate. reflexivity.
Defined.

Lemma generate_rss_raises_on_bad_date_witness :
  generate_rss (fun _ => None) two_episodes = Raise (ValueError [])
  ∧ ∃ ep, ep ∈ two_episodes ∧ ValueError [] = ValueError (pub_date ep).
Proof.
  assert (H : generate_rss (fun _ => None) two_episodes = Raise (ValueError []))
    by (vm_compute; reflexivity).
  split; [exact H|].
  destruct (proj2 (generate_rss_raises_on_bad_date (fun _ => None) two_episodes)
              _ H) as (ep & Hin & _ & He).
  exists ep. split; [exact Hin | exact He].
Defined.

Lemma fetch_article_text_min_length_witness :
  ∃ r, fetch_article_text sample_env (lit "https://example.org/a") empty_world
       = (Ok r, mkWorld ∅ ∅ [EvGet (lit "https://example.org/a")])
       ∧ r = Some sample_body
       ∧ (200 ≤ len sample_body)%Z.
Proof.
  destruct (fetch_article_text_min_length sample_env
              (lit "https://example.org/a") empty_world) as (r & Hrun & Hlong & _).
  assert (Hr : r = Some sample_body).
  { assert (Hc : fetch_article_text sample_env (lit "https://example.org/a")
                   empty_world
                 = (Ok (Some sample_body),
                    mkWorld ∅ ∅ [EvGet (lit "https://example.org/a")]))
      by (vm_compute; reflexivity).
    rewrite Hc in Hrun. by injection Hrun as <-. }
  exists r. split; [exact Hrun|]. split; [exact Hr|].
  exact (proj1 (Hlong sample_body Hr)).
Defined.

Lemma xml_is_lossless_witness :
  _xml (lit "R&D <b>") = _xml (xml_unescape (lit "R&amp;D &lt;b&gt;"))
  ∧ lit "R&D <b>" = xml_unescape (lit "R&amp;D &lt;b&gt;").
Proof.
  assert (H : _xml (lit "R&D <b>")
              = _xml (xml_unescape (lit "R&amp;D &lt;b&gt;")))
    by (vm_compute; reflexivity).
  split; [exact H|].
  exact (proj1 (proj2 (xml_is_lossless (lit "R&D <b>"))) _ H).
Defined.

Lemma chapter_text_is_collapsed_and_cut_witness :
  ∃ intro text,
    chapter_text sample_env 1 sample_article sample_body = Ok text
    ∧ length (join [Textwrap.SPACE] (split intro ++ split sample_body)) ≤ 8000
    ∧ text = join [Textwrap.SPACE] (split intro ++ split sample_body).
Proof.
  destruct (chapter_text_is_collapsed_and_cut sample_env 1 sample_article
              sample_body) as (intro & text & Hintro & Htext & _ & _ & _ & Hfull).
  cbv zeta in Hfull. destruct Hfull as [Hshort _].
  assert (Hi : intro = lit "Chapter 1. Fed holds rates. "
                       ++ lit "Fed holds rates, as expected. Reuters").
  { vm_compute in Hintro. injection Hintro as <-. vm_compute. reflexivity. }
  assert (Hlen : length (join [Textwrap.SPACE] (split intro ++ split sample_body))
                 ≤ 8000).
  { rewrite Hi. apply Nat.leb_le. vm_compute. reflexivity. }
  exists intro, text. split; [exact Htext|]. split; [exact Hlen|].
  exact (Hshort Hlen).
Defined.

(** ** The assembler stops at the first bad chapter *)

Lemma from_mp3_decode_error w p :
  undecodable w p → from_mp3 p w = (Raise (decode_error w p), w).
Proof.
  intros H. unfold from_mp3, decode_error. unfold_M.
  destruct (files w !! p) as [[| |a t|]|] eqn:Hp; try done.
  by destruct (H a t).
Qed.

Lemma assemble_loop_first_failure good : ∀ segs p rest n i combined w,
  Forall2 (decodes_to w) good segs →
  undecodable w p →
  assemble_loop n i (good ++ p :: rest) combined w
  = (Raise (decode_error w p), w).
Proof.
  induction good as [|q good IH]; intros segs p rest n i combined w Hdec Hbad.
  - cbn [app assemble_loop]. unfold mbind, M_bind at 1.
    by rewrite from_mp3_decode_error.
  - apply Forall2_cons_inv_l in Hdec as (seg & segs' & Hq & Hrest & ->).
    cbn [app assemble_loop]. unfold mbind, M_bind at 1.
    rewrite (from_mp3_decodes _ _ _ Hq). by eapply IH.
Qed.

(** The assembler reads the chapters in list order and stops at the first
    one that does not decode, whatever comes after it: it raises
    [FileNotFoundError] for a missing file and [CouldntDecodeError] for a
    file that is not audio, both naming that chapter, and it writes
    nothing: no episode file, not even a partial one. *)
Theorem assemble_episode_stops_at_first_bad_chapter
    (good : list Path) (segs : list AudioSegment) (p : Path)
    (rest : list Path) (out : Path) (w : World) :
  Forall2 (decodes_to w) good segs →
  undecodable w p →
  assemble_episode (good ++ p :: rest) out w
  = (Raise (decode_error w p),
     mkWorld (files w) (dirs w)
             (trace w ++ [EvAssemble (good ++ p :: rest) out]))
  ∧ (files w !! p = None → decode_error w p = FileNotFoundError p)
  ∧ (is_Some (files w !! p) → decode_error w p = CouldntDecodeError p).
Proof.
  intros Hdec Hbad. split; [|split].
  - unfold assemble_episode. unfold mbind at 1. unfold M_bind, emit.
    unfold mbind at 1. unfold M_bind.
    rewrite (assemble_loop_first_failure good segs); [done| |].
    + eapply Forall2_impl; [exact Hdec|]. intros q seg [tag Hq]. by exists tag.
    + intros seg tag. apply Hbad.
  - unfold decode_error. by intros ->.
  - unfold decode_error. by intros [x ->].
Qed.

Lemma assemble_episode_stops_at_first_bad_chapter_witness :
  Forall2 (decodes_to world_with_chapters) [chapter_path 1] [[5; 6; 7]%Z]
  ∧ undecodable world_with_chapters (chapter_path 2)
  ∧ assemble_episode [chapter_path 1; chapter_path 2; chapter_path 3]
      sample_episode_path world_with_chapters
    = (Raise (FileNotFoundError (chapter_path 2)),
       mkWorld (files world_with_chapters) (dirs world_with_chapters)
         [EvAssemble [chapter_path 1; chapter_path 2; chapter_path 3]
                     sample_episode_path]).
Proof.
  assert (H1 : Forall2 (decodes_to world_with_chapters)
                 [chapter_path 1] [[5; 6; 7]%Z]).
  { repeat constructor. exists []. vm_compute. reflexivity. }
  assert (H2 : undecodable world_with_chapters (chapter_path 2)).
  { intros seg tag. vm_compute. discriminate. }
  split; [exact H1|]. split; [exact H2|].
  destruct (assemble_episode_stops_at_first_bad_chapter [chapter_path 1]
              [[5; 6; 7]%Z] (chapter_path 2) [chapter_path 3]
              sample_episode_path world_with_chapters H1 H2)
    as (Hrun & Hmissing & _).
  rewrite Hmissing in Hrun by (vm_compute; reflexivity). exact Hrun.
Defined.

(** ** The chapter files of a run *)

Lemma articles_world_other E l i : ∀ w,
  i ∉ l.*1 →
  files (foldl (article_world E) w l) !! chapter_path i
  = files w !! chapter_path i.
Proof.
  induction l as [|x l IH]; intros w Hi; [done|].
  cbn [foldl]. rewrite fmap_cons, not_elem_of_cons in Hi.
  destruct Hi as [Hx Hl]. rewrite IH by done.
  unfold article_world. cbn [files].
  destruct (article_file E x); [|done].
  apply lookup_insert_ne. intros Heq. apply chapter_path_inj in Heq. done.
Qed.

Lemma articles_world_chapter E l i a data : ∀ w,
  NoDup l.*1 → (i, a) ∈ l → article_file E (i, a) = Some data →
  files (foldl (article_world E) w l) !! chapter_path i = Some data.
Proof.
  induction l as [|x l IH]; intros w Hnd Hin Hfile.
  - by apply elem_of_nil in Hin.
  - rewrite fmap_cons in Hnd. apply NoDup_cons in Hnd as [Hx Hnd].
    cbn [foldl]. apply elem_of_cons in Hin as [<-|Hin].
    + rewrite articles_world_other by done.
      unfold article_world. cbn [files fst]. rewrite Hfile.
      apply lookup_insert_eq.
    + by apply IH.
Qed.

(** Chapter files are named after positions, and different positions have
    different names. So after the loop the chapter file of every kept
    article holds what the speech service saved for the text of that very
    article: not the audio of another article, and not a file left in the
    temporary directory by an earlier run. The loop itself never raises. *)
Theorem process_articles_saves_each_chapter
    (E : Env) (articles : list Article) (w : World) :
  (∀ i j, chapter_path i = chapter_path j → i = j)
  ∧ ∃ acc w',
      process_articles E 1 articles ([], []) w = (Ok acc, w')
      ∧ length acc.1 = length acc.2
      ∧ ∀ i a, (i, a) ∈ kept_chapters E 1 articles →
          ∃ text data,
            spoken_text E (i, a) = Some text
            ∧ edge_tts_save E text TTS_VOICE TTS_RATE = TtsSaved data
            ∧ chapter_path i ∈ acc.1
            ∧ files w' !! chapter_path i = Some data.
Proof.
  split; [apply chapter_path_inj|].
  eexists _, _. split; [apply process_articles_spec|].
  cbn [fst snd app]. split; [by rewrite !length_map|].
  intros i a Hkept.
  pose proof Hkept as Hin. unfold kept_chapters in Hin.
  apply list_elem_of_filter in Hin as [Hs Hin].
  apply Is_true_true in Hs. unfold survives, tts_outcome in Hs.
  destruct (spoken_text E (i, a)) as [text|] eqn:Htext; [|done].
  destruct (edge_tts_save E text TTS_VOICE TTS_RATE) as [data|] eqn:Htts;
    [|done].
  exists text, data. split; [done|]. split; [done|]. split.
  - apply list_elem_of_fmap. by exists (i, a).
  - apply (articles_world_chapter E _ i a).
    + rewrite enumerate_from_fst. apply NoDup_seq.
    + done.
    + unfold article_file, tts_outcome. by rewrite Htext, Htts.
Qed.

Lemma process_articles_saves_each_chapter_witness :
  (3, mkArticle (lit "https://example.org/c") (lit "Bird flu update") [])
  ∈ kept_chapters sample_env 1 sample_articles
  ∧ ∃ w' data,
      (process_articles sample_env 1 sample_articles ([], [])
         world_with_chapters).2 = w'
      ∧ files world_with_chapters !! chapter_path 3 = Some (Mp3 [8; 9]%Z [])
      ∧ files w' !! chapter_path 3 = Some data
      ∧ data ≠ Mp3 [8; 9]%Z [].
Proof.
  assert (Hkept : kept_chapters sample_env 1 sample_articles
                  = [(1, sample_article);
                     (3, mkArticle (lit "https://example.org/c")
                           (lit "Bird flu update") [])])
    by (vm_compute; reflexivity).
  assert (Hin : (3, mkArticle (lit "https://example.org/c")
                      (lit "Bird flu update") [])
                ∈ kept_chapters sample_env 1 sample_articles).
  { rewrite Hkept. right. left. }
  split; [exact Hin|].
  destruct (process_articles_saves_each_chapter sample_env sample_articles
              world_with_chapters) as (_ & acc & w' & Hrun & _ & Hfiles).
  destruct (Hfiles _ _ Hin) as (text & data & Htext & Htts & _ & Hfile).
  exists w', data. split; [by rewrite Hrun|].
  split; [vm_compute; reflexivity|]. split; [exact Hfile|].
  cbn [sample_env edge_tts_save] in Htts. injection Htts as <-.
  vm_compute in Htext. injection Htext as <-. discriminate.
Defined.

(** ** What a published episode is made of *)

Lemma processed_chapter E post w i a data :
  (i, a) ∈ kept_chapters E 1 (post_articles post) →
  tts_outcome E (i, a) = Some (TtsSaved data) →
  files (processed E post w) !! chapter_path i = Some data.
Proof.
  intros Hkept Htts. unfold processed.
  apply (articles_world_chapter E _ i a).
  - rewrite enumerate_from_fst. apply NoDup_seq.
  - unfold kept_chapters in Hkept. by apply list_elem_of_filter in Hkept as [_ ?].
  - unfold article_file. by rewrite Htts.
Qed.

(** End to end: the episode a run publishes is the audio the speech
    service saved in this run for the articles that were kept, one
    chapter per kept article, in the order of the post, with the silence
    between consecutive chapters, tagged with today's guid. *)
Theorem published_episode_is_the_synthesized_audio
    (E : Env) (w w' : World) (post : Post) (st : FeedState) :
  fetch_links_post E = Ok (Some post) →
  loaded_state w = Ok st →
  has_guid (episode_id E) st = false →
  kept_chapters E 1 (post_articles post) ≠ [] →
  run_pipeline E w = (Ok tt, w') →
  ∃ segs,
    Forall2 (fun ia seg =>
               ∃ text tag,
                 spoken_text E ia = Some text
                 ∧ edge_tts_save E text TTS_VOICE TTS_RATE
                   = TtsSaved (Mp3 seg tag))
            (kept_chapters E 1 (post_articles post)) segs
    ∧ files w' !! episode_path E
      = Some (Mp3 (chapters_with_gaps
                     (AudioSegment_silent SILENCE_BETWEEN_CHAPTERS_MS) segs)
                  (episode_id E)).
Proof.
  intros Hfetch Hload Hguid Hkept Hrun. apply run_pipeline_outcome in Hrun.
  inversion Hrun as [ | | |post' st' Hf Hl Hg
                    |post' st' Hf Hl Hg Hk
                    |
                    |
                    |post' st' segs doc Hf Hl Hg Hne Hdec combined st2 Hrss w7];
    subst; try congruence.
  assert (post' = post) as -> by congruence.
  exists segs. split.
  2:{ cbn [files].
      rewrite lookup_insert_ne by apply not_eq_sym, audio_path_neq.
      apply committed_episode. }
  unfold kept_paths in Hdec.
  change (map ?f ?l) with (f <$> l) in Hdec.
  apply Forall2_same_length_lookup in Hdec as [Hlen Hdec].
  rewrite length_fmap in Hlen.
  apply Forall2_same_length_lookup. split; [exact Hlen|].
  intros k [i a] seg Hia Hseg.
  assert (Hpath : ((fun ia : nat * Article => chapter_path ia.1)
                     <$> kept_chapters E 1 (post_articles post)) !! k
                  = Some (chapter_path i)).
  { by rewrite list_lookup_fmap, Hia. }
  destruct (Hdec k _ seg Hpath Hseg) as [tag Hfile].
  assert (Hin : (i, a) ∈ kept_chapters E 1 (post_articles post))
    by (by eapply list_elem_of_lookup_2).
  pose proof Hin as Hs. unfold kept_chapters in Hs.
  apply list_elem_of_filter in Hs as [Hs _].
  apply Is_true_true in Hs. unfold survives in Hs.
  destruct (tts_outcome E (i, a)) as [[data|]|] eqn:Htts; try done.
  rewrite (processed_chapter E post w i a data Hin Htts) in Hfile.
  injection Hfile as ->.
  unfold tts_outcome in Htts.
  destruct (spoken_text E (i, a)) as [text|]; [|done].
  injection Htts as Htts. by exists text, tag.
Qed.

Lemma published_episode_is_the_synthesized_audio_witness :
  kept_chapters sample_env 1 sample_articles ≠ []
  ∧ run_pipeline sample_env empty_world = (Ok tt, published_world)
  ∧ ∃ segs,
      length segs = 2
      ∧ files published_world !! episode_path sample_env
        = Some (Mp3 (chapters_with_gaps (repeat 0%Z 2000) segs)
                    (lit "nc-links-2025-02-21")).
Proof.
  assert (Hkept : kept_chapters sample_env 1 sample_articles
                  = [(1, sample_article);
                     (3, mkArticle (lit "https://example.org/c")
                           (lit "Bird flu update") [])])
    by (vm_compute; reflexivity).
  assert (Hne : kept_chapters sample_env 1 sample_articles ≠ []).
  { rewrite Hkept. discriminate. }
  assert (Hrun : run_pipeline sample_env empty_world = (Ok tt, published_world))
    by (vm_compute; reflexivity).
  assert (Hload : loaded_state empty_world = Ok (mkFeedState []))
    by (vm_compute; reflexivity).
  assert (Hguid : has_guid (episode_id sample_env) (mkFeedState []) = false)
    by (vm_compute; reflexivity).
  split; [exact Hne|]. split; [exact Hrun|].
  destruct (published_episode_is_the_synthesized_audio sample_env empty_world
              published_world sample_post (mkFeedState [])
              eq_refl Hload Hguid Hne Hrun) as (segs & Hsegs & Hfile).
  exists segs. split; [|exact Hfile].
  apply Forall2_length in Hsegs. cbn [sample_post post_articles] in Hsegs.
  rewrite Hkept in Hsegs. by rewrite <- Hsegs.
Defined.
